(** * Prerequisite-text parser of the UIUC course graph scripts

    A shallow embedding of [scripts/parse_course_prereqs.py],
    [scripts/build_final_parsed.py] and [scripts/analyze_prereqs.py],
    with the properties of the text-to-tree parser stated over it, and
    of the graph construction of [scripts/build_graph_assets.py] and the
    colour table of [scripts/reduce_and_cluster.py].

    Python strings are lists of characters; a character is a code point
    below 256 (the Latin-1 range), which is what [ascii] holds.  The
    character classes, [str.lower] and [str.strip] below are Python's on
    that range.  The calls into Python's [re] module are modelled by a
    small backtracking matcher over a regular-expression syntax tree, and
    every pattern of the scripts is written out as such a tree. *)

From Stdlib Require Import Ascii String List Arith Bool Lia Sorted ZArith.
Import ListNotations.
Open Scope list_scope.

Set Implicit Arguments.
Set Warnings "-register-all".

(** ** Strings *)

Definition str := list ascii.

(** A string literal of the source. *)
Definition lit (x : string) : str := list_ascii_of_string x.
Arguments lit x%_string.

Definition code (c : ascii) : nat := nat_of_ascii c.

Definition in_range (lo hi : nat) (c : ascii) : bool :=
  (lo <=? code c) && (code c <=? hi).

(** [[A-Z]] *)
Definition is_upper (c : ascii) : bool := in_range 65 90 c.

(** [\d]: the decimal digits; below 256 these are 0-9 only. *)
Definition is_digit (c : ascii) : bool := in_range 48 57 c.

(** [\s] and the characters removed by [str.strip()]: tab, newline,
    vertical tab, form feed, carriage return, the separators 0x1c-0x1f,
    space, NEL (0x85) and the no-break space (0xa0). *)
Definition is_space (c : ascii) : bool :=
  in_range 9 13 c || in_range 28 32 c || (code c =? 133) || (code c =? 160).

(** [\w]: alphanumeric characters and the underscore. *)
Definition is_word (c : ascii) : bool :=
  is_digit c || is_upper c || in_range 97 122 c || (code c =? 95)
  || (code c =? 170) || in_range 178 179 c || (code c =? 181)
  || in_range 185 186 c || in_range 188 190 c
  || in_range 192 214 c || in_range 216 246 c || in_range 248 255 c.

(** [str.lower()] on one character. *)
Definition lower_char (c : ascii) : ascii :=
  if is_upper c || in_range 192 214 c || in_range 216 222 c
  then ascii_of_nat (code c + 32) else c.

Definition lower (s : str) : str := map lower_char s.

(** [s[a:b]] for non-negative indices. *)
Definition slice (s : str) (a b : nat) : str := firstn (b - a) (skipn a s).

Fixpoint starts_with (w s : str) : bool :=
  match w, s with
  | [], _ => true
  | x :: w', y :: s' => Ascii.eqb x y && starts_with w' s'
  | _ :: _, [] => false
  end.

(** [w in s] *)
Fixpoint contains (w s : str) : bool :=
  starts_with w s ||
  match s with
  | [] => false
  | _ :: s' => contains w s'
  end.

Fixpoint lstrip (s : str) : str :=
  match s with
  | c :: s' => if is_space c then lstrip s' else s
  | [] => []
  end.

Fixpoint rstrip (s : str) : str :=
  match s with
  | c :: s' =>
      match rstrip s' with
      | [] => if is_space c then [] else [c]
      | r => c :: r
      end
  | [] => []
  end.

(** [s.strip()] *)
Definition strip (s : str) : str := rstrip (lstrip s).

(** Python's order on strings: lexicographic on code points. *)
Fixpoint str_leb (a b : str) : bool :=
  match a, b with
  | [], _ => true
  | _ :: _, [] => false
  | x :: a', y :: b' =>
      if code x <? code y then true
      else if code y <? code x then false
      else str_leb a' b'
  end.

(** ** The [re] module *)

Module Re.

(** The syntax of the patterns the scripts use.  A flag such as
    [re.IGNORECASE] is applied when the tree is built, see [itext]. *)
Inductive regex : Type :=
| Eps
| Cls (p : ascii -> bool)
| Cat (r1 r2 : regex)
| Alt (r1 r2 : regex)
| Rep (r : regex) (lo : nat) (hi : option nat)
| Bnd
| Bos
| Eos
| Grp (i : nat) (r : regex).

(** A position in the subject string: the offset, the character before
    it, the text from it on, and the groups captured so far. *)
Record cursor : Type := Cursor {
  pos : nat;
  prev : option ascii;
  rest : str;
  caps : list (nat * (nat * nat))
}.

Definition advance (x : ascii) (t : str) (c : cursor) : cursor :=
  Cursor (S (pos c)) (Some x) t (caps c).

Definition set_cap (i a b : nat) (c : cursor) : cursor :=
  Cursor (pos c) (prev c) (rest c) ((i, (a, b)) :: caps c).

Definition word_before (p : option ascii) : bool :=
  match p with Some x => is_word x | None => false end.

Definition word_after (s : str) : bool :=
  match s with x :: _ => is_word x | [] => false end.

(** [\b] *)
Definition at_boundary (p : option ascii) (s : str) : bool :=
  xorb (word_before p) (word_after s).

(** [$] without [re.MULTILINE]: the end, or just before a final newline. *)
Definition at_end (s : str) : bool :=
  match s with
  | [] => true
  | [x] => code x =? 10
  | _ => false
  end.

Definition cont := cursor -> option cursor.

Section Loop.
Variable step : cursor -> cont -> option cursor.

(** A greedy repetition: [lo] mandatory rounds, then as many more as
    match, giving one back at a time when what follows fails.  A round
    that does not move is refused.  [fuel] bounds the rounds by the
    mandatory ones plus the characters left. *)
Fixpoint rep_loop (fuel lo : nat) (hi : option nat) (c : cursor) (k : cont)
  : option cursor :=
  match fuel with
  | 0 => if lo =? 0 then k c else None
  | S f =>
      match hi with
      | Some 0 => k c
      | _ =>
          let hi' := option_map pred hi in
          match lo with
          | S lo' => step c (fun c' => rep_loop f lo' hi' c' k)
          | 0 =>
              match step c (fun c' =>
                      if pos c' =? pos c then None
                      else rep_loop f 0 hi' c' k) with
              | Some e => Some e
              | None => k c
              end
          end
      end
  end.
End Loop.

(** The matcher: [run r c k] matches [r] at [c] and hands the position
    after it to [k]; when [k] fails the next alternative is tried, in
    the order of Python's engine (left branch first, longest repetition
    first). *)
Fixpoint run (r : regex) (c : cursor) (k : cont) {struct r} : option cursor :=
  match r with
  | Eps => k c
  | Cls p =>
      match rest c with
      | x :: t => if p x then k (advance x t c) else None
      | [] => None
      end
  | Cat a b => run a c (fun c' => run b c' k)
  | Alt a b =>
      match run a c k with
      | Some e => Some e
      | None => run b c k
      end
  | Rep a lo hi => rep_loop (run a) (lo + length (rest c)) lo hi c k
  | Bnd => if at_boundary (prev c) (rest c) then k c else None
  | Bos => if pos c =? 0 then k c else None
  | Eos => if at_end (rest c) then k c else None
  | Grp i a => run a c (fun c' => k (set_cap i (pos c) (pos c') c'))
  end.

(** A match object. *)
Record rmatch : Type := Match {
  m_start : nat;
  m_end : nat;
  m_caps : list (nat * (nat * nat))
}.

(** The match of [r] that starts exactly at offset [n]. *)
Definition match_here (r : regex) (n : nat) (p : option ascii) (s : str)
  : option rmatch :=
  match run r (Cursor n p s []) Some with
  | Some e => Some (Match n (pos e) (caps e))
  | None => None
  end.

(** The leftmost match at or after offset [n], where [s] is the text
    from [n] on and [p] the character before it. *)
Fixpoint search_from (r : regex) (n : nat) (p : option ascii) (s : str)
  : option rmatch :=
  match match_here r n p s with
  | Some m => Some m
  | None =>
      match s with
      | [] => None
      | x :: t => search_from r (S n) (Some x) t
      end
  end.

(** [re.search(r, s)] *)
Definition search (r : regex) (s : str) : option rmatch :=
  search_from r 0 None s.

(** [re.fullmatch(r, s)] *)
Definition fullmatch (r : regex) (s : str) : option rmatch :=
  match run r (Cursor 0 None s [])
          (fun c => match rest c with [] => Some c | _ => None end) with
  | Some e => Some (Match 0 (pos e) (caps e))
  | None => None
  end.

(** The successive non-overlapping matches, left to right.  [skip]
    counts the characters still covered by the last match.  Exact for
    patterns that do not match the empty string, which holds of every
    pattern the scripts iterate, substitute or split with. *)
Fixpoint scan (r : regex) (skip n : nat) (p : option ascii) (s : str)
  : list rmatch :=
  match skip with
  | S k =>
      match s with
      | [] => []
      | x :: t => scan r k (S n) (Some x) t
      end
  | 0 =>
      match match_here r n p s with
      | Some m =>
          m :: match s with
               | [] => []
               | x :: t => scan r (m_end m - n - 1) (S n) (Some x) t
               end
      | None =>
          match s with
          | [] => []
          | x :: t => scan r 0 (S n) (Some x) t
          end
      end
  end.

(** [r.finditer(s)] *)
Definition finditer (r : regex) (s : str) : list rmatch := scan r 0 0 None s.

(** [m.group(i)] for a group that took part in the match. *)
Definition group (i : nat) (m : rmatch) (s : str) : str :=
  match find (fun e => fst e =? i) (m_caps m) with
  | Some (_, (a, b)) => slice s a b
  | None => []
  end.

Definition cons_head (x : ascii) (l : list str) : list str :=
  match l with
  | h :: tl => (x :: h) :: tl
  | [] => [[x]]
  end.

(** The pieces of [s] between the matches of [r]: a match closes the
    current piece, the characters it covers are dropped, every other
    character goes to the piece that is open. *)
Fixpoint split_from (r : regex) (skip n : nat) (p : option ascii) (s : str)
  : list str :=
  match s with
  | [] => [[]]
  | x :: t =>
      match skip with
      | S k => split_from r k (S n) (Some x) t
      | 0 =>
          match match_here r n p s with
          | Some m => [] :: split_from r (m_end m - n - 1) (S n) (Some x) t
          | None => cons_head x (split_from r 0 (S n) (Some x) t)
          end
      end
  end.

(** [re.split(r, s)] for a pattern without groups that does not match
    the empty string. *)
Definition split (r : regex) (s : str) : list str := split_from r 0 0 None s.

(** The text of [s] with every match of [r] replaced by [repl]. *)
Fixpoint sub_from (r : regex) (repl : str) (skip n : nat) (p : option ascii)
  (s : str) : str :=
  match s with
  | [] => []
  | x :: t =>
      match skip with
      | S k => sub_from r repl k (S n) (Some x) t
      | 0 =>
          match match_here r n p s with
          | Some m => repl ++ sub_from r repl (m_end m - n - 1) (S n) (Some x) t
          | None => x :: sub_from r repl 0 (S n) (Some x) t
          end
      end
  end.

(** [re.sub(r, repl, s)] for a replacement without references and a
    pattern that does not match the empty string. *)
Definition sub (r : regex) (repl s : str) : str := sub_from r repl 0 0 None s.

(** Builders for the patterns. *)

Definition chr (x : ascii) : regex := Cls (Ascii.eqb x).

(** A letter under [re.IGNORECASE]. *)
Definition ichr (x : ascii) : regex :=
  Cls (fun y => Ascii.eqb (lower_char x) (lower_char y)).

Fixpoint seq_of (f : ascii -> regex) (w : str) : regex :=
  match w with
  | [] => Eps
  | x :: w' => Cat (f x) (seq_of f w')
  end.

(** A literal text. *)
Definition text (w : string) : regex := seq_of chr (lit w).

(** A literal text under [re.IGNORECASE]. *)
Definition itext (w : string) : regex := seq_of ichr (lit w).

Fixpoint alts (l : list regex) : regex :=
  match l with
  | [] => Eps
  | [r] => r
  | r :: l' => Alt r (alts l')
  end.

Arguments text w%_string.
Arguments itext w%_string.

Definition star (r : regex) : regex := Rep r 0 None.
Definition plus (r : regex) : regex := Rep r 1 None.
Definition opt (r : regex) : regex := Rep r 0 (Some 1).

End Re.

Import Re.

(** ** [scripts/parse_course_prereqs.py] *)

(** The requirement tree: the dictionaries [{"op": "EMPTY"}],
    [{"op": "COURSE", "course": c}], [{"op": "AND", "items": l}] and
    [{"op": "OR", "items": l}]. *)
Inductive node : Type :=
| EMPTY
| COURSE (course : str)
| AND (items : list node)
| OR (items : list node).

Definition is_empty (n : node) : bool :=
  match n with EMPTY => true | _ => false end.

Definition is_and (n : node) : bool :=
  match n with AND _ => true | _ => false end.

Definition is_or (n : node) : bool :=
  match n with OR _ => true | _ => false end.

(** [r"\b([A-Z]{2,4})\s*(\d{2,3}[A-Z]?)\b"] *)
Definition COURSE_RE : regex :=
  Cat Bnd
 (Cat (Grp 1 (Rep (Cls is_upper) 2 (Some 4)))
 (Cat (star (Cls is_space))
 (Cat (Grp 2 (Cat (Rep (Cls is_digit) 2 (Some 3)) (opt (Cls is_upper))))
      Bnd))).

(** [r";+"] *)
Definition CLAUSE_SPLIT_RE : regex := plus (chr ";").

(** A course token: the reference, [m.start()] and [m.end()]. *)
Definition span : Type := (str * nat * nat)%type.

Definition span_course (x : span) : str := fst (fst x).
Definition span_start (x : span) : nat := snd (fst x).
Definition span_end (x : span) : nat := snd x.

Definition find_course_spans (text : str) : list span :=
  map (fun m => (group 1 m text ++ lit " " ++ group 2 m text,
                 m_start m, m_end m))
      (finditer COURSE_RE text).

(** [r"\s+"] *)
Definition SPACES_RE : regex := plus (Cls is_space).

Definition normalize_space (s : str) : str :=
  strip (sub SPACES_RE (lit " ") s).

(** [r"\b(one of|any of)\b"] with [re.IGNORECASE] *)
Definition ONE_OF_RE : regex :=
  Cat Bnd (Cat (Grp 1 (Alt (itext "one of") (itext "any of"))) Bnd).

(** [r"\band\b"] and [r"\bor\b"] *)
Definition AND_RE : regex := Cat Bnd (Cat (text "and") Bnd).
Definition OR_RE : regex := Cat Bnd (Cat (text "or") Bnd).

(** [r",+"] *)
Definition COMMAS_RE : regex := plus (chr ",").

Definition found (r : regex) (s : str) : bool :=
  match search r s with Some _ => true | None => false end.

(** The entries of the list [connectors]. *)
Inductive connector : Type := K_AND | K_OR | K_LIST | K_UNKNOWN.

Definition connector_eqb (a b : connector) : bool :=
  match a, b with
  | K_AND, K_AND | K_OR, K_OR | K_LIST, K_LIST | K_UNKNOWN, K_UNKNOWN => true
  | _, _ => false
  end.

(** [k in connectors] *)
Definition has (k : connector) (l : list connector) : bool :=
  existsb (connector_eqb k) l.

(** The body of the loop over adjacent tokens, given the lowercased
    text [between] them. *)
Definition connector_of (between : str) : connector :=
  if contains (lit "and/or") between then K_OR
  else if found AND_RE between then K_AND
  else if found OR_RE between then K_OR
  else if contains (lit ",") between then K_LIST
  else K_UNKNOWN.

(** [for i in range(len(courses) - 1)]: one connector per adjacent pair. *)
Fixpoint connectors_of (clause_clean : str) (courses : list span)
  : list connector :=
  match courses with
  | a :: (b :: _) as tl =>
      connector_of (lower (slice clause_clean (span_end a) (span_start b)))
      :: connectors_of clause_clean tl
  | _ => []
  end.

Definition leaves_of (courses : list span) : list node :=
  map (fun x => COURSE (span_course x)) courses.

(** The body of the loop over the comma segments: what is appended to
    [subitems] for [seg], if anything. *)
Definition segment_group (seg : str) : option node :=
  let seg_courses := find_course_spans seg in
  match seg_courses with
  | [] => None
  | _ =>
      if found AND_RE (lower seg) && negb (found OR_RE (lower seg))
      then Some (AND (leaves_of seg_courses))
      else if found OR_RE (lower seg) && negb (found AND_RE (lower seg))
      then Some (OR (leaves_of seg_courses))
      else Some (OR (leaves_of seg_courses))
  end.

(** The truth value of a string or a list: it is not empty. *)
Definition nonempty {A : Type} (s : list A) : bool :=
  match s with [] => false | _ => true end.

Definition comma_segments (clause_clean : str) : list str :=
  map normalize_space
      (filter (fun s => nonempty (normalize_space s))
              (split COMMAS_RE clause_clean)).

Fixpoint collect_subitems (segments : list str) (subitems : list node)
  : list node :=
  match segments with
  | [] => subitems
  | seg :: segments' =>
      match segment_group seg with
      | Some g => collect_subitems segments' (subitems ++ [g])
      | None => collect_subitems segments' subitems
      end
  end.

Definition count_op (f : node -> bool) (l : list node) : nat :=
  length (filter f l).

(** The last part of [parse_clause_into_group]: the clause has both an
    AND and an OR connector. *)
Definition parse_mixed (clause_clean : str) (courses : list span) : node :=
  let segments := comma_segments clause_clean in
  let subitems := collect_subitems segments [] in
  let subitems :=
    match subitems with
    | [] => leaves_of courses
    | _ => subitems
    end in
  let and_count := count_op is_and subitems in
  let or_count := count_op is_or subitems in
  if negb (and_count =? 0) && (or_count =? 0) then AND subitems
  else if negb (or_count =? 0) && (and_count =? 0) then OR subitems
  else AND subitems.

(** [AND(items) if len(items) > 1 else items[0]]; the list is never
    empty where the source writes this. *)
Definition and_or_single (items : list node) : node :=
  match items with
  | [x] => x
  | _ => AND items
  end.

(** The part of [parse_clause_into_group] after the one-of window. *)
Definition parse_by_connectors (clause_clean : str) (courses : list span)
  : node :=
  let connectors := connectors_of clause_clean courses in
  let course_items := leaves_of courses in
  if has K_AND connectors && negb (has K_OR connectors)
  then AND course_items
  else if has K_OR connectors && negb (has K_AND connectors)
  then OR course_items
  else if negb (has K_AND connectors) && negb (has K_OR connectors)
  then
    if has K_LIST connectors then OR course_items
    else and_or_single course_items
  else parse_mixed clause_clean courses.

Definition parse_clause_into_group (clause : str) : node :=
  let clause_clean := normalize_space clause in
  let courses := find_course_spans clause_clean in
  match courses with
  | [] => EMPTY
  | _ =>
      match search ONE_OF_RE clause_clean with
      | Some one_of_match =>
          let start_idx := m_end one_of_match in
          let or_list :=
            map span_course
                (filter (fun x => start_idx <=? span_start x) courses) in
          match or_list with
          | _ :: _ =>
              let prior_courses :=
                map span_course
                    (filter (fun x => span_start x <? start_idx) courses) in
              let items :=
                map COURSE prior_courses ++ [OR (map COURSE or_list)] in
              and_or_single items
          | [] => parse_by_connectors clause_clean courses
          end
      | None => parse_by_connectors clause_clean courses
      end
  end.

(** [r"credit\s+or\s+concurrent\s+(enrollment|registration)\s+in"] *)
Definition CREDIT_OR_CONCURRENT_RE : regex :=
  Cat (text "credit")
 (Cat (plus (Cls is_space))
 (Cat (text "or")
 (Cat (plus (Cls is_space))
 (Cat (text "concurrent")
 (Cat (plus (Cls is_space))
 (Cat (Grp 1 (Alt (text "enrollment") (text "registration")))
 (Cat (plus (Cls is_space))
      (text "in")))))))).

Definition is_coreq_clause (c : str) : bool :=
  let c_low := lower c in
  contains (lit "concurrent") c_low
  || contains (lit "co-requisite") c_low
  || contains (lit "corequisite") c_low
  || found CREDIT_OR_CONCURRENT_RE c_low.

Definition fold (groups : list node) : node :=
  match groups with
  | [] => EMPTY
  | [g] => g
  | _ => AND groups
  end.

(** The result of [parse_prereq_text]: the keys ["hard"] and
    ["coreq_ok"]. *)
Record parsed : Type := Parsed { hard : node; coreq_ok : node }.

(** The clauses of a text: the pieces between runs of semicolons,
    normalised, the empty ones dropped. *)
Definition clauses_of (text : str) : list str :=
  map normalize_space
      (filter (fun c => nonempty (normalize_space c))
              (split CLAUSE_SPLIT_RE text)).

(** The loop over the clauses, on the pair
    [(hard_groups, coreq_groups)]. *)
Definition route_clause (acc : list node * list node) (clause : str)
  : list node * list node :=
  let grp := parse_clause_into_group clause in
  if is_empty grp then acc
  else if is_coreq_clause clause then (fst acc, snd acc ++ [grp])
  else (fst acc ++ [grp], snd acc).

Definition route (clauses : list str) : list node * list node :=
  fold_left route_clause clauses ([], []).

Definition parse_prereq_text (text : str) : parsed :=
  let clauses := clauses_of text in
  match clauses with
  | [] => Parsed EMPTY EMPTY
  | _ =>
      let groups := route clauses in
      Parsed (fold (fst groups)) (fold (snd groups))
  end.

Definition cs (x : string) : node := COURSE (lit x).
Arguments cs x%_string.


(** ** [scripts/build_final_parsed.py] *)

(** [COURSE_TOKEN], the same pattern as [COURSE_RE]. *)
Definition COURSE_TOKEN : regex := COURSE_RE.

Definition has_course_token (s : str) : bool := found COURSE_TOKEN s.

Definition words_re (l : list string) : regex :=
  alts (map (fun w => seq_of chr (list_ascii_of_string w)) l).

(** The list [mapping] of [detect_flags]: a pattern and the flag it
    raises. *)
Definition mapping : list (regex * str) :=
  [ (words_re ["consent"; "permission"; "approval"]%string,
     lit "CONSENT");
    (words_re ["standing"; "senior"; "junior"; "sophomore"; "freshman"]%string,
     lit "STANDING");
    (words_re ["major"; "minor"; "program"; "restricted"; "enrollment";
               "enrolled"]%string,
     lit "MAJOR_OR_PROGRAM");
    (words_re ["gpa"; "grade"; "minimum"]%string,
     lit "GRADE_OR_GPA");
    (words_re ["concurrent"; "co-requisite"; "corequisite"]%string,
     lit "COREQ_ALLOWED");
    (words_re ["department"; "instructor"]%string,
     lit "DEPT_OR_INSTRUCTOR") ].

Fixpoint insert_sorted (x : str) (l : list str) : list str :=
  match l with
  | [] => [x]
  | y :: l' => if str_leb x y then x :: l else y :: insert_sorted x l'
  end.

(** [sorted(l)] on strings. *)
Definition sorted (l : list str) : list str :=
  fold_right insert_sorted [] l.

(** [set(l)], up to the order of its elements, which [sorted] fixes. *)
Definition set_of (l : list str) : list str :=
  nodup (list_eq_dec ascii_dec) l.

Definition detect_flags (text : str) : list str :=
  let t := lower text in
  let flags :=
    fold_left (fun flags e => if found (fst e) t then flags ++ [snd e]
                              else flags)
              mapping [] in
  sorted (set_of flags).

(** A course record of the input: the values of [c.get("index")],
    [c.get("name")], [c.get("description")] and
    [c.get("prerequisites")], [None] when the key is absent or null. *)
Record course_record : Type := CourseRecord {
  c_index : option str;
  c_name : option str;
  c_description : option str;
  c_prerequisites : option str
}.

(** [x or ""] *)
Definition or_empty (x : option str) : str :=
  match x with Some s => s | None => [] end.

(** The value under ["prerequisites"] of an output record. *)
Record prerequisites_out : Type := PrerequisitesOut {
  p_raw : option str;
  p_hard : node;
  p_coreq_ok : node;
  p_flags : list str;
  p_notes : list str
}.

(** The body of the loop of [main] that builds the output of one
    record. *)
Definition build_prerequisites (c : course_record) : prerequisites_out :=
  let raw := strip (or_empty (c_prerequisites c)) in
  let ast := parse_prereq_text raw in
  let notes :=
    if nonempty raw then
      filter (fun cl => negb (has_course_token cl)
                        || nonempty (detect_flags cl))
             (map strip (filter (fun s => nonempty (strip s))
                                (split CLAUSE_SPLIT_RE raw)))
    else [] in
  PrerequisitesOut
    (if nonempty raw then Some raw else None)
    (hard ast) (coreq_ok ast)
    (if nonempty raw then detect_flags raw else [])
    notes.

(** ** [scripts/analyze_prereqs.py] *)

(** [NONE_PATTERNS], all three under [re.IGNORECASE]:
    [r"^\s*none\.?\s*$"], [r"no prerequisites"] and
    [r"prerequisite[s]?:\s*none\b"]. *)
Definition NONE_RE_1 : regex :=
  Cat Bos
 (Cat (star (Cls is_space))
 (Cat (itext "none")
 (Cat (opt (chr "."))
 (Cat (star (Cls is_space))
      Eos)))).

Definition NONE_RE_2 : regex := itext "no prerequisites".

Definition NONE_RE_3 : regex :=
  Cat (itext "prerequisite")
 (Cat (opt (ichr "s"))
 (Cat (chr ":")
 (Cat (star (Cls is_space))
 (Cat (itext "none")
      Bnd)))).

Definition NONE_PATTERNS : list regex := [NONE_RE_1; NONE_RE_2; NONE_RE_3].

Definition is_none_text (text : str) : bool :=
  let t := strip text in
  existsb (fun p => found p t) NONE_PATTERNS.

Definition extract_course_refs (text : str) : list str :=
  map (fun m => group 1 m text ++ lit " " ++ group 2 m text)
      (finditer COURSE_TOKEN text).

(** [NON_COURSE_KEYWORDS] *)
Definition NON_COURSE_KEYWORDS : list regex :=
  [ text "consent"; text "permission"; text "approval";
    text "standing"; text "senior"; text "junior"; text "sophomore";
    text "freshman";
    text "major"; text "minor"; text "program"; text "restricted";
    text "enrollment"; text "enrolled";
    text "gpa"; text "grade"; text "minimum"; text "credit hour";
    Cat (text "credit") (opt (chr "s")); Cat (text "hour") (opt (chr "s"));
    text "registration"; text "concurrent"; text "co-requisite";
    text "corequisite";
    text "department"; text "instructor" ].

Definition has_non_course_requirements (text : str) : bool :=
  let t := lower text in
  existsb (fun k => found k t) NON_COURSE_KEYWORDS.

(** [r"[(),.;]"] *)
Definition PUNCT_RE : regex :=
  Cls (fun c => existsb (Ascii.eqb c) (lit "(),.;")).

(** [r"\b(and|or|and/or|either|both|one of|two of|with|credit in)\b"]
    with [re.IGNORECASE] *)
Definition FILLER_RE : regex :=
  Cat Bnd
 (Cat (Grp 1 (alts [itext "and"; itext "or"; itext "and/or"; itext "either";
                    itext "both"; itext "one of"; itext "two of";
                    itext "with"; itext "credit in"]))
      Bnd).

(** [r"\b(at\s+least)\b"] with [re.IGNORECASE] *)
Definition AT_LEAST_RE : regex :=
  Cat Bnd
 (Cat (Grp 1 (Cat (itext "at") (Cat (plus (Cls is_space)) (itext "least"))))
      Bnd).

(** The pattern of the final [re.fullmatch]: the word COURSE followed by
    any whitespace, one or more times. *)
Definition COURSES_ONLY_RE : regex :=
  plus (Grp 1 (Cat (text "COURSE") (star (Cls is_space)))).

Definition is_course_only (text : str) : bool :=
  let t := strip text in
  if has_non_course_requirements t then false
  else
    let placeholder := sub COURSE_TOKEN (lit "COURSE") t in
    let simplified := sub PUNCT_RE (lit " ") placeholder in
    let simplified := sub FILLER_RE (lit " ") simplified in
    let simplified := sub AT_LEAST_RE (lit " ") simplified in
    let simplified := strip (sub SPACES_RE (lit " ") simplified) in
    negb (nonempty simplified)
    || match fullmatch COURSES_ONLY_RE simplified with
       | Some _ => true
       | None => false
       end.

(** The entries of the lists under ["course_only"] and ["remaining"]. *)
Record course_only_entry : Type := CourseOnlyEntry {
  co_index : option str;
  co_name : option str;
  co_prerequisites : str;
  co_courses : list str
}.

Record remaining_entry : Type := RemainingEntry {
  re_index : option str;
  re_name : option str;
  re_prerequisites : str
}.

(** The dictionary [results]. *)
Record results : Type := Results {
  none : list course_record;
  course_only : list course_only_entry;
  remaining : list remaining_entry
}.

(** The body of the loop of [analyze]. *)
Definition analyze_step (res : results) (c : course_record) : results :=
  let prereq := or_empty (c_prerequisites c) in
  if negb (nonempty (strip prereq)) then
    Results (none res ++ [c]) (course_only res) (remaining res)
  else if is_none_text prereq then
    Results (none res ++ [c]) (course_only res) (remaining res)
  else if is_course_only prereq then
    Results (none res)
            (course_only res ++
             [CourseOnlyEntry (c_index c) (c_name c) prereq
                              (extract_course_refs prereq)])
            (remaining res)
  else
    Results (none res) (course_only res)
            (remaining res ++ [RemainingEntry (c_index c) (c_name c) prereq]).

Definition analyze (courses : list course_record) : results :=
  fold_left analyze_step courses (Results [] [] []).


(** ** Vocabulary of the statements *)

(** [w] occurs in [s]. *)
Definition substring (w s : str) : Prop :=
  exists pre post, s = pre ++ w ++ post.

(** The last character of [s], or [d] when [s] is empty. *)
Definition last_of (s : str) (d : option ascii) : option ascii :=
  fold_left (fun _ x => Some x) s d.

(** [w] occurs in [s] as a whole word: with a word boundary on either
    side. *)
Definition has_word (w s : str) : Prop :=
  exists pre post,
    s = pre ++ w ++ post /\
    at_boundary (last_of pre None) (w ++ post) = true /\
    at_boundary (last_of w None) post = true.

(** Reading the text [w] off the front of [s], one character at a time
    compared by [q]: what is left of [s] and the last character read. *)
Fixpoint eat (q : ascii -> ascii -> bool) (w s : str) (p : option ascii)
  : option (option ascii * str) :=
  match w with
  | [] => Some (p, s)
  | x :: w' =>
      match s with
      | y :: s' => if q x y then eat q w' s' (Some y) else None
      | [] => None
      end
  end.

(** Equality of characters up to case. *)
Definition ieqb (x y : ascii) : bool :=
  Ascii.eqb (lower_char x) (lower_char y).

(** A regular expression has a match somewhere in [s]. *)
Definition matches (r : regex) (s : str) : Prop :=
  exists m, search r s = Some m.

(** The one-of window of the clause parser applies to the normalised
    clause: the phrase is found and a course token starts at or after
    its end. *)
Definition one_of_window (clause_clean : str) : bool :=
  match search ONE_OF_RE clause_clean with
  | Some m =>
      existsb (fun x => m_end m <=? span_start x)
              (find_course_spans clause_clean)
  | None => false
  end.

(** The phrase "one of" or "any of", in any case and as whole words,
    starts at offset [i] of [s]. *)
Definition phrase_at (s : str) (i : nat) : Prop :=
  exists pre w post,
    s = pre ++ w ++ post /\
    length pre = i /\
    (lower w = lit "one of" \/ lower w = lit "any of") /\
    at_boundary (last_of pre None) (w ++ post) = true /\
    at_boundary (last_of w None) post = true.

(** [i] is the offset of the first such phrase of [s]. *)
Definition first_phrase_at (s : str) (i : nat) : Prop :=
  phrase_at s i /\ forall j, j < i -> ~ phrase_at s j.

(** The course references of the tokens that start before, and at or
    after, offset [n], in the order of the scan. *)
Definition refs_before (n : nat) (courses : list span) : list str :=
  map span_course (filter (fun x => span_start x <? n) courses).

Definition refs_from (n : nat) (courses : list span) : list str :=
  map span_course (filter (fun x => n <=? span_start x) courses).

(** Every AND and OR node of the tree has at least one item. *)
Fixpoint items_nonempty (n : node) : bool :=
  match n with
  | AND l | OR l => nonempty l && forallb items_nonempty l
  | _ => true
  end.


(** The course references at the leaves of a tree, left to right. *)
Fixpoint course_refs (n : node) : list str :=
  match n with
  | EMPTY => []
  | COURSE c => [c]
  | AND l | OR l => flat_map course_refs l
  end.

(** A record whose only field is its prerequisite text. *)
Definition record_of (t : str) : course_record :=
  CourseRecord None None None (Some t).

(** The keyword groups as the specification lists them. *)
Definition keyword_groups_claimed : list (list str * str) :=
  [ ([lit "consent"; lit "permission"; lit "approval"], lit "CONSENT");
    ([lit "standing"; lit "senior"; lit "junior"; lit "sophomore";
      lit "freshman"], lit "STANDING");
    ([lit "major"; lit "minor"; lit "program"; lit "restricted";
      lit "enrollment"], lit "MAJOR_OR_PROGRAM");
    ([lit "gpa"; lit "grade"; lit "minimum"], lit "GRADE_OR_GPA");
    ([lit "concurrent"; lit "co-requisite"; lit "corequisite"],
     lit "COREQ_ALLOWED");
    ([lit "department"; lit "instructor"], lit "DEPT_OR_INSTRUCTOR") ].

(** The keyword groups with the keyword "enrolled", which [mapping] has
    in the group of MAJOR_OR_PROGRAM. *)
Definition keyword_groups : list (list str * str) :=
  [ ([lit "consent"; lit "permission"; lit "approval"], lit "CONSENT");
    ([lit "standing"; lit "senior"; lit "junior"; lit "sophomore";
      lit "freshman"], lit "STANDING");
    ([lit "major"; lit "minor"; lit "program"; lit "restricted";
      lit "enrollment"; lit "enrolled"], lit "MAJOR_OR_PROGRAM");
    ([lit "gpa"; lit "grade"; lit "minimum"], lit "GRADE_OR_GPA");
    ([lit "concurrent"; lit "co-requisite"; lit "corequisite"],
     lit "COREQ_ALLOWED");
    ([lit "department"; lit "instructor"], lit "DEPT_OR_INSTRUCTOR") ].

(** The same groups in the order of their names. *)
Definition groups_by_name : list (list str * str) :=
  [ ([lit "consent"; lit "permission"; lit "approval"], lit "CONSENT");
    ([lit "concurrent"; lit "co-requisite"; lit "corequisite"],
     lit "COREQ_ALLOWED");
    ([lit "department"; lit "instructor"], lit "DEPT_OR_INSTRUCTOR");
    ([lit "gpa"; lit "grade"; lit "minimum"], lit "GRADE_OR_GPA");
    ([lit "major"; lit "minor"; lit "program"; lit "restricted";
      lit "enrollment"; lit "enrolled"], lit "MAJOR_OR_PROGRAM");
    ([lit "standing"; lit "senior"; lit "junior"; lit "sophomore";
      lit "freshman"], lit "STANDING") ].

(** The flag [name] fires on the lowercased text [t]: a keyword of its
    group occurs in [t]. *)
Definition fires (groups : list (list str * str)) (name t : str) : Prop :=
  exists kws w, In (kws, name) groups /\ In w kws /\ substring w t.

Definition some_keyword_in (t : str) (kws : list str) : bool :=
  existsb (fun w => contains w t) kws.

(** Strictly before, in Python's order on strings. *)
Definition str_lt (a b : str) : Prop := str_leb a b = true /\ a <> b.

(** The number of leading characters of [s] in the class [p]. *)
Fixpoint run_length (p : ascii -> bool) (s : str) : nat :=
  match s with
  | x :: t => if p x then S (run_length p t) else 0
  | [] => 0
  end.

(** The cursor [j] characters further on. *)
Definition skip_chars (j : nat) (c : cursor) : cursor :=
  Cursor (pos c + j) (last_of (firstn j (rest c)) (prev c))
         (skipn j (rest c)) (caps c).

(** The first success of [k] on [lo + d], [lo + d - 1], ..., [lo]. *)
Fixpoint first_down (A : Type) (k : nat -> option A) (lo d : nat) : option A :=
  match k (lo + d) with
  | Some e => Some e
  | None =>
      match d with
      | 0 => None
      | S d' => first_down k lo d'
      end
  end.

Definition min_opt (hi : option nat) (n : nat) : nat :=
  match hi with Some h => Nat.min h n | None => n end.

Definition le_opt (lo : nat) (hi : option nat) : Prop :=
  match hi with Some h => lo <= h | None => True end.

(** The text has a "prerequisite: none" or "prerequisites: none" phrase,
    in any case: the word, the colon, any whitespace, and "none" ending
    at a word boundary. *)
Definition none_phrase (t : str) : Prop :=
  exists pre p s ws n post,
    t = pre ++ p ++ s ++ lit ":" ++ ws ++ n ++ post /\
    lower p = lit "prerequisite" /\
    (s = [] \/ lower s = lit "s") /\
    Forall (fun c => is_space c = true) ws /\
    lower n = lit "none" /\
    word_after post = false.

(** The text has one of the two negative phrasings that are looked for
    anywhere in it. *)
Definition negative_phrasing (t : str) : Prop :=
  substring (lit "no prerequisites") (lower t) \/ none_phrase t.

(** Splitting at the runs of characters of the class [p]; [in_run] says
    that the character before [s] was in the class. *)
Fixpoint split_on (p : ascii -> bool) (in_run : bool) (s : str) : list str :=
  match s with
  | [] => [[]]
  | x :: t =>
      if p x then
        if in_run then split_on p true t else [] :: split_on p true t
      else cons_head x (split_on p false t)
  end.

(** The text made of the pieces with the separators between them:
    piece, separator, piece, ..., piece. *)
Fixpoint weave (pieces seps : list str) : str :=
  match pieces, seps with
  | p :: ps, r :: rs => p ++ r ++ weave ps rs
  | p :: _, [] => p
  | [], _ => []
  end.

(** The text [s] cut at its semicolons: [pieces] are the parts of [s]
    without a semicolon, in order, between the runs of one or more
    semicolons of [s].  The first and the last piece may be empty. *)
Definition cut_at_semicolons (s : str) (pieces : list str) : Prop :=
  Forall (fun p => ~ In ";"%char p) pieces /\
  exists seps,
    length pieces = S (length seps) /\
    Forall (fun r => r <> [] /\ Forall (eq ";"%char) r) seps /\
    s = weave pieces seps.

(** Every run of whitespace replaced by one space; [in_run] says that
    the character before [s] was whitespace. *)
Fixpoint squeeze (in_run : bool) (s : str) : str :=
  match s with
  | [] => []
  | x :: t =>
      if is_space x then
        if in_run then squeeze true t else " "%char :: squeeze true t
      else x :: squeeze false t
  end.

(** A subject code: two to four capital letters. *)
Definition is_subject (w : str) : Prop :=
  2 <= length w <= 4 /\ Forall (fun c => is_upper c = true) w.

(** A catalog number: two or three digits and at most one capital
    letter after them. *)
Definition is_number (w : str) : Prop :=
  exists ds sfx,
    w = ds ++ sfx /\
    2 <= length ds <= 3 /\
    Forall (fun c => is_digit c = true) ds /\
    (sfx = [] \/ exists u, sfx = [u] /\ is_upper u = true).

(** The text [s], which comes after the character [p], has a course
    token that renders as [ref]: a subject code, any whitespace and a
    catalog number, as a whole word. *)
Definition token_from (p : option ascii) (s ref : str) : Prop :=
  exists pre subj ws num post,
    s = pre ++ subj ++ ws ++ num ++ post /\
    is_subject subj /\
    Forall (fun c => is_space c = true) ws /\
    is_number num /\
    ref = subj ++ lit " " ++ num /\
    word_before (last_of pre p) = false /\
    word_after post = false.

(** The same, for a token that starts at offset [i] of [s]. *)
Definition token_at (s : str) (i : nat) (ref : str) : Prop :=
  exists pre subj ws num post,
    s = pre ++ subj ++ ws ++ num ++ post /\
    length pre = i /\
    is_subject subj /\
    Forall (fun c => is_space c = true) ws /\
    is_number num /\
    ref = subj ++ lit " " ++ num /\
    word_before (last_of pre None) = false /\
    word_after post = false.

(** The reference [ref] is one that the scanner returns on [src]. *)
Definition scanned (src ref : str) : Prop :=
  exists x, In x (find_course_spans src) /\ span_course x = ref.

(** The text [s] is empty or starts with a character of the class
    [P]. *)
Definition sep_start (P : ascii -> bool) (s : str) : Prop :=
  s = [] \/ exists x s', s = x :: s' /\ P x = true.

(** The groups that the loop over the comma segments appends, in the
    order of the segments. *)
Definition segment_groups (segments : list str) : list node :=
  flat_map (fun seg => match segment_group seg with
                       | Some g => [g]
                       | None => []
                       end) segments.

(** The tokens are listed from left to right and do not overlap. *)
Definition in_textual_order (courses : list span) : Prop :=
  StronglySorted
    (fun a b => span_start a < span_start b /\ span_end a <= span_start b)
    courses.

(** ** [scripts/parse_course_prereqs.py], the loop of [main] *)

(** An output record: the keys ["index"], ["name"], ["raw"] and
    ["ast"]. *)
Record parsed_record : Type := ParsedRecord {
  r_index : option str;
  r_name : option str;
  r_raw : str;
  r_ast : parsed
}.

(** The body of the loop, on the pair [(parsed, unparsed)]. *)
Definition main_step (acc : list parsed_record * list parsed_record)
  (item : course_record) : list parsed_record * list parsed_record :=
  let raw := or_empty (c_prerequisites item) in
  let ast := parse_prereq_text raw in
  let record := ParsedRecord (c_index item) (c_name item) raw ast in
  if is_empty (hard ast) && is_empty (coreq_ok ast)
  then (fst acc, snd acc ++ [record])
  else (fst acc ++ [record], snd acc).

Definition parse_all (data : list course_record)
  : list parsed_record * list parsed_record :=
  fold_left main_step data ([], []).

(** ** [scripts/build_graph_assets.py] *)

(** The inner function [walk] of [collect_courses_from_ast]: what it
    appends to [out] for a node, in order.  A COURSE node counts when its
    course is not the empty string. *)
Fixpoint walk (n : node) : list str :=
  match n with
  | EMPTY => []
  | COURSE c => if nonempty c then [c] else []
  | AND l | OR l => flat_map walk l
  end.

Definition str_in (c : str) (l : list str) : bool :=
  if in_dec (list_eq_dec ascii_dec) c l then true else false.

(** The loop that keeps the first occurrence of every course. *)
Fixpoint uniq_loop (out seen uniq : list str) : list str :=
  match out with
  | [] => uniq
  | c :: out' =>
      if str_in c seen then uniq_loop out' seen uniq
      else uniq_loop out' (c :: seen) (uniq ++ [c])
  end.

Definition collect_courses_from_ast (ast : node) : list str :=
  uniq_loop (walk ast) [] [].

(** The value under ["prerequisites"] of an input record of
    [build_graph]: the values of [pr.get("hard")] and
    [pr.get("coreq_ok")]. *)
Record prerequisites_in : Type := PrerequisitesIn {
  g_hard : option node;
  g_coreq_ok : option node
}.

Record graph_course : Type := GraphCourse {
  g_index : option str;
  g_name : option str;
  g_prerequisites : option prerequisites_in
}.

(** A value of [nodes_map]: the keys ["id"], ["label"] and
    ["subject"]. *)
Record graph_node : Type := GraphNode {
  n_id : str;
  n_label : str;
  n_subject : option str
}.

Inductive edge_kind : Type := Hard | Coreq.

Record graph_edge : Type := GraphEdge {
  e_source : str;
  e_target : str;
  e_kind : edge_kind
}.

(** [s.split()]: the maximal runs of characters that are not
    whitespace. *)
Definition split_whitespace (s : str) : list str :=
  filter nonempty (split_on is_space false s).

(** [course_id.split()[0] if ' ' in course_id else None]; the outer
    [None] stands for the [IndexError] of [[][0]]. *)
Definition subject_of (course_id : str) : option (option str) :=
  if existsb (Ascii.eqb " ") course_id then
    match split_whitespace course_id with
    | w :: _ => Some (Some w)
    | [] => None
    end
  else Some None.

(** [x or y] on strings. *)
Definition or_str (x : option str) (y : str) : str :=
  match x with
  | Some (c :: s) => c :: s
  | _ => y
  end.

(** [course_id in nodes_map]; the dictionary is the list of its values
    in insertion order. *)
Definition has_node (course_id : str) (nodes_map : list graph_node) : bool :=
  str_in course_id (map n_id nodes_map).

(** [ensure_node]; [None] stands for an exception: the [TypeError] of
    [' ' in None] when the identifier is missing, or the [IndexError] of
    [subject_of]. *)
Definition ensure_node (course_id : option str) (label : option str)
  (nodes_map : list graph_node) : option (list graph_node) :=
  match course_id with
  | None => None
  | Some id =>
      if has_node id nodes_map then Some nodes_map
      else
        match subject_of id with
        | Some subject =>
            Some (nodes_map ++ [GraphNode id (or_str label id) subject])
        | None => None
        end
  end.

(** The state of the loops of [build_graph]: [nodes_map] and [edges]. *)
Definition graph_state : Type := (list graph_node * list graph_edge)%type.

(** [for pre in pres: ensure_node(pre); edges.append(...)] *)
Fixpoint add_edges (pres : list str) (idx : str) (k : edge_kind)
  (st : graph_state) : option graph_state :=
  match pres with
  | [] => Some st
  | pre :: pres' =>
      match ensure_node (Some pre) None (fst st) with
      | Some nodes_map =>
          add_edges pres' idx k (nodes_map, snd st ++ [GraphEdge pre idx k])
      | None => None
      end
  end.

(** [x or {"op": "EMPTY"}] *)
Definition or_EMPTY (x : option node) : node :=
  match x with Some n => n | None => EMPTY end.

(** [pr.get("hard") or {"op": "EMPTY"}] and
    [pr.get("coreq_ok") or {"op": "EMPTY"}], where [pr] is
    [c.get("prerequisites") or {}]. *)
Definition pr_hard (c : graph_course) : node :=
  or_EMPTY (match g_prerequisites c with
            | Some pr => g_hard pr
            | None => None
            end).

Definition pr_coreq (c : graph_course) : node :=
  or_EMPTY (match g_prerequisites c with
            | Some pr => g_coreq_ok pr
            | None => None
            end).

(** The body of the loop over the courses. *)
Definition graph_step (include_coreq : bool) (st : graph_state)
  (c : graph_course) : option graph_state :=
  match ensure_node (g_index c) (g_name c) (fst st) with
  | None => None
  | Some nodes_map =>
      match g_index c with
      | None => None
      | Some idx =>
          match add_edges (collect_courses_from_ast (pr_hard c)) idx Hard
                          (nodes_map, snd st) with
          | None => None
          | Some st' =>
              if include_coreq
              then add_edges (collect_courses_from_ast (pr_coreq c)) idx
                             Coreq st'
              else Some st'
          end
      end
  end.

Fixpoint graph_loop (include_coreq : bool) (courses : list graph_course)
  (st : graph_state) : option graph_state :=
  match courses with
  | [] => Some st
  | c :: courses' =>
      match graph_step include_coreq st c with
      | Some st' => graph_loop include_coreq courses' st'
      | None => None
      end
  end.

(** [build_graph]: the nodes in insertion order and the edges, or
    [None] when an exception is raised. *)
Definition build_graph (courses : list graph_course) (include_coreq : bool)
  : option (list graph_node * list graph_edge) :=
  graph_loop include_coreq courses ([], []).

(** The record that [build_final_parsed.py] writes for a course, as
    [build_graph] reads it. *)
Definition graph_course_of (c : course_record) : graph_course :=
  let p := build_prerequisites c in
  GraphCourse (c_index c) (c_name c)
              (Some (PrerequisitesIn (Some (p_hard p)) (Some (p_coreq_ok p)))).

(** The edges that one course contributes: one hard edge from every
    course of its hard tree and, when asked for, one coreq edge from
    every course of its coreq_ok tree. *)
Definition edges_of (include_coreq : bool) (c : graph_course)
  : list graph_edge :=
  match g_index c with
  | Some idx =>
      map (fun pre => GraphEdge pre idx Hard)
          (collect_courses_from_ast (pr_hard c))
      ++ (if include_coreq
          then map (fun pre => GraphEdge pre idx Coreq)
                   (collect_courses_from_ast (pr_coreq c))
          else [])
  | None => []
  end.

(** An identifier that has a space and nothing but whitespace. *)
Definition blank_id (id : str) : Prop :=
  In " "%char id /\ Forall (fun c => is_space c = true) id.

(** A course on which [build_graph] raises: its index is missing or
    blank, or a course of one of its trees is blank. *)
Definition course_fails (include_coreq : bool) (c : graph_course) : Prop :=
  match g_index c with
  | None => True
  | Some idx =>
      blank_id idx \/
      exists e, In e (edges_of include_coreq c) /\ blank_id (e_source e)
  end.

(** The nodes have distinct identifiers, and the subject of each is the
    one computed from its identifier. *)
Definition nodes_ok (nodes_map : list graph_node) : Prop :=
  NoDup (map n_id nodes_map) /\
  forall n, In n nodes_map -> subject_of (n_id n) = Some (n_subject n).

(** ** [scripts/reduce_and_cluster.py] *)

Definition palette_base : list str :=
  [ lit "#1f77b4"; lit "#ff7f0e"; lit "#2ca02c"; lit "#d62728";
    lit "#9467bd"; lit "#8c564b"; lit "#e377c2"; lit "#7f7f7f";
    lit "#bcbd22"; lit "#17becf" ].

(** [palette(n)] for an integer [n]; [base[:n]] counts from the end when
    [n] is negative. *)
Definition palette (n : Z) : list str :=
  if (n <=? 10)%Z then
    if (0 <=? n)%Z then firstn (Z.to_nat n) palette_base
    else firstn (Z.to_nat (10 + n)) palette_base
  else
    map (fun i => nth (i mod 10) palette_base [])
        (seq 0 (Z.to_nat n)).

(** * Properties *)

(** ** Strings *)

Lemma last_of_app (a b : str) (d : option ascii) :
  last_of (a ++ b) d = last_of b (last_of a d).
Proof. unfold last_of. apply fold_left_app. Qed.

Lemma last_of_snoc (a : str) (x : ascii) (d : option ascii) :
  last_of (a ++ [x]) d = Some x.
Proof. rewrite last_of_app. reflexivity. Qed.

Lemma last_of_cons_nonempty (x : ascii) (a : str) (d d' : option ascii) :
  last_of (x :: a) d = last_of (x :: a) d'.
Proof. reflexivity. Qed.

Lemma starts_with_spec (w s : str) :
  starts_with w s = true <-> exists post, s = w ++ post.
Proof.
  revert s. induction w as [|x w IH]; intros s; simpl.
  - split; [intros _; now exists s | reflexivity].
  - destruct s as [|y s].
    + split; [discriminate | intros [post H]; discriminate].
    + rewrite andb_true_iff, IH, Ascii.eqb_eq. split.
      * intros [-> [post ->]]. now exists post.
      * intros [post H]. injection H as -> ->. split; [reflexivity | now exists post].
Qed.

Lemma contains_spec (w s : str) : contains w s = true <-> substring w s.
Proof.
  unfold substring. induction s as [|y s IH]; simpl.
  - rewrite orb_false_r, starts_with_spec. split.
    + intros [post H]. now exists [], post.
    + intros [pre [post H]]. destruct pre; simpl in H.
      * now exists post.
      * discriminate.
  - rewrite orb_true_iff, starts_with_spec, IH. split.
    + intros [[post H] | [pre [post H]]].
      * now exists [], post.
      * exists (y :: pre), post. now rewrite H.
    + intros [pre [post H]]. destruct pre as [|z pre]; simpl in H.
      * left. now exists post.
      * right. injection H as _ H. now exists pre, post.
Qed.

Lemma contains_false (w s : str) : contains w s = false <-> ~ substring w s.
Proof.
  rewrite <- contains_spec. destruct (contains w s); split; congruence.
Qed.

Lemma app_inv_length (A : Type) (a c b d : list A) :
  a ++ b = c ++ d -> length a = length c -> a = c /\ b = d.
Proof.
  revert c. induction a as [|x a IH]; intros [|y c] H L; try discriminate.
  - now split.
  - simpl in H. injection H as -> H. simpl in L. injection L as L.
    destruct (IH c H L) as [-> ->]. now split.
Qed.

(** ** The matcher *)

Lemma cursor_eta (c : cursor) :
  Cursor (pos c) (prev c) (rest c) (caps c) = c.
Proof. now destruct c. Qed.

Lemma run_seq_of (q : ascii -> ascii -> bool) (w : str) :
  forall (c : cursor) (k : cont),
    run (seq_of (fun x => Cls (q x)) w) c k =
    match eat q w (rest c) (prev c) with
    | Some (p', t) => k (Cursor (pos c + length w) p' t (caps c))
    | None => None
    end.
Proof.
  induction w as [|x w IH]; intros c k; simpl.
  - now rewrite Nat.add_0_r, cursor_eta.
  - destruct (rest c) as [|y t]; [reflexivity|].
    destruct (q x y); [|reflexivity].
    rewrite IH. simpl. destruct (eat q w t (Some y)) as [[p' t']|]; [|reflexivity].
    now rewrite Nat.add_succ_r.
Qed.

Lemma run_text (w : str) (c : cursor) (k : cont) :
  run (seq_of chr w) c k =
  match eat Ascii.eqb w (rest c) (prev c) with
  | Some (p', t) => k (Cursor (pos c + length w) p' t (caps c))
  | None => None
  end.
Proof. apply (run_seq_of Ascii.eqb). Qed.

Lemma run_itext (w : str) (c : cursor) (k : cont) :
  run (seq_of ichr w) c k =
  match eat ieqb w (rest c) (prev c) with
  | Some (p', t) => k (Cursor (pos c + length w) p' t (caps c))
  | None => None
  end.
Proof. apply (run_seq_of ieqb). Qed.

Lemma eat_eqb_spec (w s : str) (p p' : option ascii) (t : str) :
  eat Ascii.eqb w s p = Some (p', t) <-> s = w ++ t /\ p' = last_of w p.
Proof.
  revert s p. induction w as [|x w IH]; intros s p; simpl.
  - split.
    + intros H. injection H as -> ->. now split.
    + intros [-> ->]. reflexivity.
  - destruct s as [|y s].
    + split; [discriminate | intros [H _]; discriminate].
    + destruct (Ascii.eqb x y) eqn:E.
      * apply Ascii.eqb_eq in E. subst y. rewrite IH. split.
        -- intros [-> ->]. now split.
        -- intros [H ->]. injection H as ->. now split.
      * split; [discriminate|]. intros [H _]. injection H as -> _.
        now rewrite Ascii.eqb_refl in E.
Qed.

Lemma eat_eqb_none (w s : str) (p : option ascii) :
  eat Ascii.eqb w s p = None <-> starts_with w s = false.
Proof.
  revert s p. induction w as [|x w IH]; intros s p; simpl.
  - split; discriminate.
  - destruct s as [|y s]; [tauto|].
    destruct (Ascii.eqb x y); simpl; [apply IH | tauto].
Qed.

Lemma eat_ieqb_spec (w s : str) (p p' : option ascii) (t : str) :
  eat ieqb w s p = Some (p', t) <->
  exists m, s = m ++ t /\ lower m = lower w /\ p' = last_of m p.
Proof.
  revert s p. induction w as [|x w IH]; intros s p; simpl.
  - split.
    + intros H. injection H as -> ->. now exists [].
    + intros [m [-> [Hm ->]]]. destruct m; [reflexivity | discriminate].
  - destruct s as [|y s].
    + split; [discriminate|]. intros [m [H [Hm _]]].
      destruct m; discriminate.
    + unfold ieqb at 1. destruct (Ascii.eqb (lower_char x) (lower_char y)) eqn:E.
      * apply Ascii.eqb_eq in E. rewrite IH. split.
        -- intros [m [-> [Hm ->]]]. exists (y :: m). simpl.
           repeat split. now rewrite Hm, E.
        -- intros [m [H [Hm ->]]]. destruct m as [|z m]; [discriminate|].
           simpl in H, Hm. injection H as <- ->. injection Hm as _ Hm.
           now exists m.
      * split; [discriminate|]. intros [m [H [Hm _]]].
        destruct m as [|z m]; [discriminate|]. simpl in H, Hm.
        injection H as <- _. injection Hm as Hz _.
        rewrite Hz, Ascii.eqb_refl in E. discriminate.
Qed.

(** [search_from] returns the match at the first offset that has one. *)
Lemma search_from_spec (r : regex) (m : rmatch) :
  forall (s : str) (n : nat) (p : option ascii),
    search_from r n p s = Some m <->
    exists pre post,
      s = pre ++ post /\
      match_here r (n + length pre) (last_of pre p) post = Some m /\
      forall pre' post',
        s = pre' ++ post' -> length pre' < length pre ->
        match_here r (n + length pre') (last_of pre' p) post' = None.
Proof.
  induction s as [|x s IH]; intros n p; simpl.
  - destruct (match_here r n p []) eqn:E.
    + split.
      * intros H. injection H as <-. exists [], []. simpl.
        rewrite Nat.add_0_r. repeat split; [assumption|].
        intros pre' post' _ H. inversion H.
      * intros [pre [post [H [Hm _]]]].
        destruct pre; [|discriminate]. simpl in *. subst post.
        rewrite Nat.add_0_r in Hm. congruence.
    + split; [discriminate|]. intros [pre [post [H [Hm _]]]].
      destruct pre; [|discriminate]. simpl in *. subst post.
      rewrite Nat.add_0_r in Hm. congruence.
  - destruct (match_here r n p (x :: s)) eqn:E.
    + split.
      * intros H. injection H as <-. exists [], (x :: s). simpl.
        rewrite Nat.add_0_r. repeat split; [assumption|].
        intros pre' post' _ H. inversion H.
      * intros [pre [post [H [Hm Hfirst]]]].
        destruct pre as [|y pre].
        -- simpl in *. subst post. rewrite Nat.add_0_r in Hm. congruence.
        -- specialize (Hfirst [] (x :: s) eq_refl). simpl in Hfirst.
           rewrite Nat.add_0_r in Hfirst.
           rewrite Hfirst in E; [discriminate | lia].
    + rewrite IH. split.
      * intros [pre [post [-> [Hm Hfirst]]]].
        exists (x :: pre), post. simpl.
        rewrite Nat.add_succ_r. repeat split; [assumption|].
        intros pre' post' H Hlen. destruct pre' as [|y pre'].
        -- simpl in *. subst post'. now rewrite Nat.add_0_r.
        -- simpl in H. injection H as <- H. simpl.
           rewrite Nat.add_succ_r. apply Hfirst; [assumption | simpl in Hlen; lia].
      * intros [pre [post [H [Hm Hfirst]]]].
        destruct pre as [|y pre].
        -- simpl in *. subst post. rewrite Nat.add_0_r in Hm. congruence.
        -- simpl in H. injection H as <- ->. exists pre, post.
           simpl in Hm. rewrite Nat.add_succ_r in Hm.
           repeat split; [assumption|].
           intros pre' post' H Hlen.
           specialize (Hfirst (x :: pre') post').
           simpl in Hfirst. rewrite Nat.add_succ_r in Hfirst.
           apply Hfirst; [now rewrite H | lia].
Qed.

Lemma search_from_none (r : regex) :
  forall (s : str) (n : nat) (p : option ascii),
    search_from r n p s = None <->
    forall pre post,
      s = pre ++ post ->
      match_here r (n + length pre) (last_of pre p) post = None.
Proof.
  induction s as [|x s IH]; intros n p; simpl.
  - destruct (match_here r n p []) eqn:E.
    + split; [discriminate|]. intros H.
      specialize (H [] [] eq_refl). simpl in H. rewrite Nat.add_0_r in H.
      congruence.
    + split; [|reflexivity]. intros _ pre post H.
      destruct pre; [|discriminate]. simpl in *. subst post.
      now rewrite Nat.add_0_r.
  - destruct (match_here r n p (x :: s)) eqn:E.
    + split; [discriminate|]. intros H.
      specialize (H [] (x :: s) eq_refl). simpl in H. rewrite Nat.add_0_r in H.
      congruence.
    + rewrite IH. split.
      * intros H pre post Hs. destruct pre as [|y pre].
        -- simpl in *. subst post. now rewrite Nat.add_0_r.
        -- simpl in Hs. injection Hs as <- ->. simpl.
           rewrite Nat.add_succ_r. now apply H.
      * intros H pre post ->. specialize (H (x :: pre) post eq_refl).
        simpl in H. now rewrite Nat.add_succ_r in H.
Qed.

Lemma found_spec (r : regex) (s : str) :
  found r s = true <->
  exists pre post,
    s = pre ++ post /\
    match_here r (length pre) (last_of pre None) post <> None.
Proof.
  unfold found, search. destruct (search_from r 0 None s) eqn:E.
  - apply search_from_spec in E. destruct E as [pre [post [H [Hm _]]]].
    split; [|reflexivity]. intros _. exists pre, post. simpl in Hm.
    split; [assumption | congruence].
  - split; [discriminate|]. intros [pre [post [H Hm]]].
    rewrite search_from_none in E. specialize (E pre post H). simpl in E.
    contradiction.
Qed.

Lemma found_matches (r : regex) (s : str) : found r s = true <-> matches r s.
Proof.
  unfold found, matches. destruct (search r s) as [m|].
  - split; [intros _; now exists m | reflexivity].
  - split; [discriminate | intros [m H]; discriminate].
Qed.

(** ** The order of the matches of an iteration *)

Lemma match_here_start (r : regex) (n : nat) (p : option ascii) (s : str)
  (m : rmatch) :
  match_here r n p s = Some m -> m_start m = n.
Proof.
  unfold match_here. destruct (run r _ Some); [|discriminate].
  intros H. injection H as <-. reflexivity.
Qed.

Lemma scan_bounds (r : regex) (m : rmatch) :
  forall (s : str) (skip n : nat) (p : option ascii),
    In m (scan r skip n p s) -> n + skip <= m_start m.
Proof.
  induction s as [|x t IH]; intros skip n p H.
  - destruct skip as [|k]; simpl in H; [|contradiction].
    destruct (match_here r n p []) as [m0|] eqn:E; [|contradiction].
    destruct H as [<- | []]. apply match_here_start in E. lia.
  - destruct skip as [|k]; simpl in H.
    + destruct (match_here r n p (x :: t)) as [m0|] eqn:E.
      * destruct H as [<- | H].
        -- apply match_here_start in E. lia.
        -- apply IH in H. lia.
      * apply IH in H. lia.
    + apply IH in H. lia.
Qed.

Lemma scan_sorted (r : regex) :
  forall (s : str) (skip n : nat) (p : option ascii),
    StronglySorted
      (fun a b => m_start a < m_start b /\ m_end a <= m_start b)
      (scan r skip n p s).
Proof.
  induction s as [|x t IH]; intros skip n p.
  - destruct skip as [|k]; simpl; [|constructor].
    destruct (match_here r n p []); repeat constructor.
  - destruct skip as [|k]; simpl; [|apply IH].
    destruct (match_here r n p (x :: t)) as [m0|] eqn:E; [|apply IH].
    constructor; [apply IH|]. apply Forall_forall. intros m Hm.
    apply scan_bounds in Hm. apply match_here_start in E. lia.
Qed.

(** ** Repetition of a character class *)

Lemma skip_chars_0 (c : cursor) : skip_chars 0 c = c.
Proof. unfold skip_chars. simpl. now rewrite Nat.add_0_r, cursor_eta. Qed.

Lemma skip_chars_S (j : nat) (x : ascii) (t : str) (c : cursor) :
  rest c = x :: t -> skip_chars (S j) c = skip_chars j (advance x t c).
Proof.
  intros H. unfold skip_chars, advance. rewrite H. simpl.
  now rewrite Nat.add_succ_r.
Qed.

Lemma first_down_shift (A : Type) (g : nat -> option A) (lo d : nat) :
  first_down (fun j => g (S j)) lo d = first_down g (S lo) d.
Proof. induction d as [|d IH]; simpl; [reflexivity | now rewrite IH]. Qed.

Lemma first_down_last (A : Type) (g : nat -> option A) (d : nat) :
  first_down g 0 (S d) =
  match first_down (fun j => g (S j)) 0 d with
  | Some e => Some e
  | None => g 0
  end.
Proof.
  induction d as [|d IH].
  - simpl. destruct (g 1); [reflexivity|]. now destruct (g 0).
  - change (first_down g 0 (S (S d)))
      with (match g (S (S d)) with
            | Some e => Some e
            | None => first_down g 0 (S d)
            end).
    rewrite IH. simpl. now destruct (g (S (S d))).
Qed.

Lemma first_down_0 (A : Type) (g : nat -> option A) (lo : nat) :
  first_down g lo 0 = g lo.
Proof. simpl. rewrite Nat.add_0_r. now destruct (g lo). Qed.

(** A greedy repetition of a class reads the longest run the bounds
    allow and gives characters back one at a time. *)
Lemma rep_loop_cls (p : ascii -> bool) (k : cont) :
  forall (fuel lo : nat) (hi : option nat) (c : cursor),
    lo + length (rest c) <= fuel ->
    le_opt lo hi ->
    rep_loop (run (Cls p)) fuel lo hi c k =
    let n := min_opt hi (run_length p (rest c)) in
    if lo <=? n
    then first_down (fun j => k (skip_chars j c)) lo (n - lo)
    else None.
Proof.
  induction fuel as [|f IH]; intros lo hi c Hf Hle.
  - assert (lo = 0) by lia. subst lo.
    destruct (rest c) eqn:Hr; [|simpl in Hf; lia].
    simpl.
    replace (min_opt hi 0) with 0 by (destruct hi as [h|]; simpl; lia).
    simpl. rewrite skip_chars_0. now destruct (k c).
  - destruct hi as [[|h]|].
    + simpl in Hle. assert (lo = 0) by lia. subst lo. simpl.
      rewrite skip_chars_0. now destruct (k c).
    + cbn [rep_loop option_map pred]. destruct lo as [|lo'].
      * cbn [run]. destruct (rest c) as [|x t] eqn:Hr.
        -- simpl. rewrite skip_chars_0. now destruct (k c).
        -- cbn [run_length]. destruct (p x) eqn:Hp.
           ++ replace (pos (advance x t c) =? pos c) with false
                by (symmetry; apply Nat.eqb_neq; simpl; lia).
              rewrite IH; [|simpl in *; lia | simpl; lia].
              cbn [advance rest min_opt]. cbv zeta.
              rewrite Nat.sub_0_r.
              replace (Nat.min (S h) (S (run_length p t)))
                with (S (Nat.min h (run_length p t))) by reflexivity.
              cbn [Nat.leb]. rewrite Nat.sub_0_r, first_down_last.
              replace (first_down
                         (fun j => k (skip_chars (S j) c)) 0
                         (Nat.min h (run_length p t)))
                with (first_down
                        (fun j => k (skip_chars j (advance x t c))) 0
                        (Nat.min h (run_length p t))).
              ** rewrite skip_chars_0. reflexivity.
              ** clear IH. induction (Nat.min h (run_length p t)) as [|d IHd];
                   simpl; rewrite (skip_chars_S _ c Hr); [reflexivity|].
                 now rewrite IHd.
           ++ simpl. rewrite skip_chars_0. now destruct (k c).
      * cbn [run]. destruct (rest c) as [|x t] eqn:Hr.
        -- reflexivity.
        -- cbn [run_length]. destruct (p x) eqn:Hp; [|reflexivity].
           rewrite IH; [|simpl in *; lia | simpl in *; lia].
           cbn [advance rest min_opt]. cbv zeta.
           replace (Nat.min (S h) (S (run_length p t)))
             with (S (Nat.min h (run_length p t))) by reflexivity.
           cbn [Nat.leb Nat.sub].
           destruct (lo' <=? Nat.min h (run_length p t)); [|reflexivity].
           rewrite <- first_down_shift.
           generalize (Nat.min h (run_length p t) - lo'). intros d.
           induction d as [|d IHd]; simpl;
             rewrite <- (skip_chars_S _ c Hr); [reflexivity|].
           now rewrite IHd.
    + cbn [rep_loop option_map]. destruct lo as [|lo'].
      * cbn [run]. destruct (rest c) as [|x t] eqn:Hr.
        -- simpl. rewrite skip_chars_0. now destruct (k c).
        -- cbn [run_length]. destruct (p x) eqn:Hp.
           ++ replace (pos (advance x t c) =? pos c) with false
                by (symmetry; apply Nat.eqb_neq; simpl; lia).
              rewrite IH; [|simpl in *; lia | exact I].
              cbn [advance rest min_opt]. cbv zeta.
              rewrite Nat.sub_0_r.
              cbn [Nat.leb]. rewrite Nat.sub_0_r, first_down_last.
              replace (first_down
                         (fun j => k (skip_chars (S j) c)) 0
                         (run_length p t))
                with (first_down
                        (fun j => k (skip_chars j (advance x t c))) 0
                        (run_length p t)).
              ** rewrite skip_chars_0. reflexivity.
              ** clear IH. induction (run_length p t) as [|d IHd];
                   simpl; rewrite (skip_chars_S _ c Hr); [reflexivity|].
                 now rewrite IHd.
           ++ simpl. rewrite skip_chars_0. now destruct (k c).
      * cbn [run]. destruct (rest c) as [|x t] eqn:Hr.
        -- reflexivity.
        -- cbn [run_length]. destruct (p x) eqn:Hp; [|reflexivity].
           rewrite IH; [|simpl in *; lia | exact I].
           cbn [advance rest min_opt]. cbv zeta.
           cbn [Nat.leb Nat.sub].
           destruct (lo' <=? run_length p t); [|reflexivity].
           rewrite <- first_down_shift.
           generalize (run_length p t - lo'). intros d.
           induction d as [|d IHd]; simpl;
             rewrite <- (skip_chars_S _ c Hr); [reflexivity|].
           now rewrite IHd.
Qed.

Lemma run_rep_cls (p : ascii -> bool) (lo : nat) (hi : option nat)
  (c : cursor) (k : cont) :
  le_opt lo hi ->
  run (Rep (Cls p) lo hi) c k =
  let n := min_opt hi (run_length p (rest c)) in
  if lo <=? n
  then first_down (fun j => k (skip_chars j c)) lo (n - lo)
  else None.
Proof. intros H. cbn [run]. now apply rep_loop_cls. Qed.

Lemma run_Cat (a b : regex) (c : cursor) (k : cont) :
  run (Cat a b) c k = run a c (fun c' => run b c' k).
Proof. reflexivity. Qed.

Lemma run_Bnd (c : cursor) (k : cont) :
  run Bnd c k = if at_boundary (prev c) (rest c) then k c else None.
Proof. reflexivity. Qed.

Lemma run_Grp (i : nat) (a : regex) (c : cursor) (k : cont) :
  run (Grp i a) c k = run a c (fun c' => k (set_cap i (pos c) (pos c') c')).
Proof. reflexivity. Qed.

Lemma run_Cls (p : ascii -> bool) (c : cursor) (k : cont) :
  run (Cls p) c k =
  match rest c with
  | x :: t => if p x then k (advance x t c) else None
  | [] => None
  end.
Proof. reflexivity. Qed.

Lemma first_down_some (A : Type) (g : nat -> option A) (lo d j : nat) :
  lo <= j <= lo + d -> g j <> None -> first_down g lo d <> None.
Proof.
  revert j. induction d as [|d IH]; intros j Hj Hg; simpl.
  - replace (lo + 0) with j by lia. now destruct (g j).
  - destruct (g (lo + S d)) eqn:E; [discriminate|].
    apply (IH j); [|assumption].
    assert (j <> lo + S d) by (intros ->; congruence). lia.
Qed.

Lemma first_down_inv (A : Type) (g : nat -> option A) (lo d : nat) (e : A) :
  first_down g lo d = Some e ->
  exists j, lo <= j <= lo + d /\ g j = Some e.
Proof.
  induction d as [|d IH]; simpl; intros H.
  - destruct (g (lo + 0)) eqn:E; [|discriminate].
    exists (lo + 0). split; [lia | congruence].
  - destruct (g (lo + S d)) eqn:E.
    + exists (lo + S d). split; [lia | congruence].
    + destruct (IH H) as [j [Hj Hg]]. exists j. split; [lia | assumption].
Qed.

Lemma run_length_firstn (p : ascii -> bool) (s : str) (j : nat) :
  j <= run_length p s ->
  Forall (fun c => p c = true) (firstn j s) /\ length (firstn j s) = j.
Proof.
  revert j. induction s as [|x t IH]; intros j Hj; simpl in Hj.
  - assert (j = 0) by lia. subst j. now split.
  - destruct j as [|j]; [now split|]. simpl.
    destruct (p x) eqn:E; [|lia].
    destruct (IH j) as [H1 H2]; [lia|]. split; [now constructor | now rewrite H2].
Qed.

Lemma run_length_ge (p : ascii -> bool) (w r : str) :
  Forall (fun c => p c = true) w -> length w <= run_length p (w ++ r).
Proof.
  induction 1 as [|x w Hx _ IH]; simpl; [lia|]. rewrite Hx. lia.
Qed.

Lemma skip_chars_cursor (j n : nat) (p : option ascii) (s : str)
  (cp : list (nat * (nat * nat))) :
  skip_chars j (Cursor n p s cp)
  = Cursor (n + j) (last_of (firstn j s) p) (skipn j s) cp.
Proof. reflexivity. Qed.

(** ** Whole words *)

Lemma last_of_nonempty (w : str) (d : option ascii) :
  w <> [] -> last_of w d = last_of w None.
Proof. destruct w; [congruence | reflexivity]. Qed.

Lemma match_here_word (w : str) (n : nat) (p : option ascii) (s : str) :
  match_here (Cat Bnd (Cat (seq_of chr w) Bnd)) n p s <> None <->
  at_boundary p s = true /\
  exists t, s = w ++ t /\ at_boundary (last_of w p) t = true.
Proof.
  unfold match_here. simpl. destruct (at_boundary p s).
  - rewrite run_text. simpl.
    destruct (eat Ascii.eqb w s p) as [[p' t]|] eqn:E.
    + apply eat_eqb_spec in E. destruct E as [-> ->]. simpl.
      destruct (at_boundary (last_of w p) t) eqn:B.
      * split; [|discriminate]. intros _. split; [reflexivity|]. now exists t.
      * split; [congruence|]. intros [_ [t' [H B']]].
        apply app_inv_head in H. subst t'. congruence.
    + split; [congruence|]. intros [_ [t [-> _]]].
      specialize (proj2 (eat_eqb_spec w (w ++ t) p (last_of w p) t)
                        (conj eq_refl eq_refl)).
      congruence.
  - split; [congruence | intros [H _]; discriminate].
Qed.

(** [r"\bw\b"] is found in [s] exactly when [w] occurs in [s] as a whole
    word. *)
Lemma found_word (w s : str) :
  w <> [] ->
  found (Cat Bnd (Cat (seq_of chr w) Bnd)) s = true <-> has_word w s.
Proof.
  intros Hw. rewrite found_spec. unfold has_word. split.
  - intros [pre [post [-> H]]]. apply match_here_word in H.
    destruct H as [B [t [-> B']]]. exists pre, t.
    rewrite (last_of_nonempty _ Hw) in B'. now repeat split.
  - intros [pre [post [-> [B B']]]]. exists pre, (w ++ post).
    split; [reflexivity|]. apply match_here_word. split; [assumption|].
    exists post. now rewrite (last_of_nonempty _ Hw).
Qed.

Lemma found_AND_RE (s : str) : found AND_RE s = true <-> has_word (lit "and") s.
Proof. apply found_word. discriminate. Qed.

Lemma found_OR_RE (s : str) : found OR_RE s = true <-> has_word (lit "or") s.
Proof. apply found_word. discriminate. Qed.

Lemma contains_comma (s : str) :
  contains (lit ",") s = true <-> In ","%char s.
Proof.
  rewrite contains_spec. unfold substring. split.
  - intros [pre [post ->]]. apply in_or_app. right. now left.
  - intros H. apply in_split in H. destruct H as [pre [post ->]].
    now exists pre, post.
Qed.

(** ** The connectors *)

Lemma connectors_of_length (clause_clean : str) (courses : list span) :
  length (connectors_of clause_clean courses) = length courses - 1.
Proof.
  induction courses as [|a [|b tl] IH]; try reflexivity.
  change (connectors_of clause_clean (a :: b :: tl))
    with (connector_of (lower (slice clause_clean (span_end a) (span_start b)))
          :: connectors_of clause_clean (b :: tl)).
  simpl length in *. rewrite IH. lia.
Qed.

Lemma connectors_of_nth (clause_clean : str) :
  forall (courses : list span) (i : nat) (a b : span),
    nth_error courses i = Some a ->
    nth_error courses (S i) = Some b ->
    nth_error (connectors_of clause_clean courses) i =
    Some (connector_of
            (lower (slice clause_clean (span_end a) (span_start b)))).
Proof.
  induction courses as [|x [|y tl] IH]; intros i a b Ha Hb.
  - destruct i; discriminate.
  - destruct i as [|[|i]]; discriminate.
  - change (connectors_of clause_clean (x :: y :: tl))
      with (connector_of (lower (slice clause_clean (span_end x) (span_start y)))
            :: connectors_of clause_clean (y :: tl)).
    destruct i as [|i].
    + simpl in Ha, Hb. injection Ha as ->. injection Hb as ->. reflexivity.
    + simpl nth_error. apply IH; assumption.
Qed.

(** The cascade of [connector_of], read off the between-text. *)
Lemma connector_of_spec (between : str) :
  (substring (lit "and/or") between -> connector_of between = K_OR) /\
  (~ substring (lit "and/or") between ->
   has_word (lit "and") between -> connector_of between = K_AND) /\
  (~ substring (lit "and/or") between ->
   ~ has_word (lit "and") between ->
   has_word (lit "or") between -> connector_of between = K_OR) /\
  (~ substring (lit "and/or") between ->
   ~ has_word (lit "and") between ->
   ~ has_word (lit "or") between ->
   In ","%char between -> connector_of between = K_LIST) /\
  (~ substring (lit "and/or") between ->
   ~ has_word (lit "and") between ->
   ~ has_word (lit "or") between ->
   ~ In ","%char between -> connector_of between = K_UNKNOWN).
Proof.
  unfold connector_of.
  rewrite <- !contains_spec, <- found_AND_RE, <- found_OR_RE, <- contains_comma.
  destruct (contains (lit "and/or") between), (found AND_RE between),
    (found OR_RE between), (contains (lit ",") between);
    repeat split; intros; congruence.
Qed.

(** C3.  For every pair of adjacent course tokens of a clause, the
    connector recorded for the pair is computed from the lowercased text
    strictly between the end of the first token and the start of the
    second, and from nothing else; it is one of the four values AND, OR,
    LIST and UNKNOWN, namely: OR when that text contains "and/or"
    (decided first); else AND when it contains the word "and"; else OR
    when it contains the word "or"; else LIST when it contains a comma;
    else UNKNOWN. *)
Theorem connector_classification :
  forall (clause_clean : str) (courses : list span) (i : nat) (a b : span),
    nth_error courses i = Some a ->
    nth_error courses (S i) = Some b ->
    let between := lower (slice clause_clean (span_end a) (span_start b)) in
    exists k : connector,
      nth_error (connectors_of clause_clean courses) i = Some k /\
      k = connector_of between /\
      (substring (lit "and/or") between -> k = K_OR) /\
      (~ substring (lit "and/or") between ->
       has_word (lit "and") between -> k = K_AND) /\
      (~ substring (lit "and/or") between ->
       ~ has_word (lit "and") between ->
       has_word (lit "or") between -> k = K_OR) /\
      (~ substring (lit "and/or") between ->
       ~ has_word (lit "and") between ->
       ~ has_word (lit "or") between ->
       In ","%char between -> k = K_LIST) /\
      (~ substring (lit "and/or") between ->
       ~ has_word (lit "and") between ->
       ~ has_word (lit "or") between ->
       ~ In ","%char between -> k = K_UNKNOWN).
Proof.
  intros clause_clean courses i a b Ha Hb between.
  exists (connector_of between). split.
  - now apply connectors_of_nth.
  - split; [reflexivity | apply connector_of_spec].
Qed.

Lemma connector_classification_witness :
  nth_error (connectors_of (lit "CS 225, MATH 231 and/or CS 233")
               (find_course_spans (lit "CS 225, MATH 231 and/or CS 233"))) 1
  = Some K_OR.
Proof.
  destruct (@connector_classification
              (lit "CS 225, MATH 231 and/or CS 233")
              (find_course_spans (lit "CS 225, MATH 231 and/or CS 233"))
              1 (lit "MATH 231", 8, 16) (lit "CS 233", 24, 30)
              eq_refl eq_refl) as [k [Hk [_ [Hor _]]]].
  rewrite Hk. f_equal. apply Hor.
  exists (lit " "), (lit " "). reflexivity.
Defined.

(** The scanner lists the tokens from left to right. *)
Lemma find_course_spans_order (t : str) :
  in_textual_order (find_course_spans t).
Proof.
  unfold in_textual_order, find_course_spans, finditer.
  pose proof (scan_sorted COURSE_RE t 0 0 None) as H.
  induction H as [|m l _ IH Hall]; simpl; constructor; [assumption|].
  apply Forall_forall. intros y Hy. apply in_map_iff in Hy.
  destruct Hy as [m' [<- Hm']]. rewrite Forall_forall in Hall.
  exact (Hall m' Hm').
Qed.

(** ** The one-of window *)

Lemma lower_length (s : str) : length (lower s) = length s.
Proof. apply length_map. Qed.

Lemma match_here_one_of (n : nat) (p : option ascii) (s : str) (m : rmatch) :
  match_here ONE_OF_RE n p s = Some m <->
  (at_boundary p s = true /\
   exists w t,
     s = w ++ t /\
     (lower w = lit "one of" \/ lower w = lit "any of") /\
     at_boundary (last_of w p) t = true) /\
  m = Match n (n + 6) [(1, (n, n + 6))].
Proof.
  unfold match_here, ONE_OF_RE, itext.
  cbn [run pos prev rest caps].
  destruct (at_boundary p s); [|split; [discriminate | intros [[H _] _]; discriminate]].
  rewrite !run_itext. cbn [pos prev rest caps set_cap].
  destruct (eat ieqb (lit "one of") s p) as [[p1 t1]|] eqn:E1.
  - apply eat_ieqb_spec in E1. destruct E1 as [w1 [-> [L1 ->]]].
    destruct (at_boundary (last_of w1 p) t1) eqn:B1.
    + cbn [pos caps]. change (length (lit "one of")) with 6. split.
      * intros H. injection H as <-. split; [split; [reflexivity|] | reflexivity].
        exists w1, t1. repeat split; [now left | assumption].
      * intros [_ ->]. reflexivity.
    + destruct (eat ieqb (lit "any of") (w1 ++ t1) p) as [[p2 t2]|] eqn:E2.
      * apply eat_ieqb_spec in E2. destruct E2 as [w2 [H2 [L2 ->]]].
        exfalso.
        assert (Hl : length w1 = length w2).
        { rewrite <- (lower_length w1), <- (lower_length w2), L1, L2.
          reflexivity. }
        apply app_inv_length in H2; [|exact Hl].
        destruct H2 as [-> _]. rewrite L1 in L2. discriminate.
      * split; [discriminate|].
        intros [[_ [w [t [H [[L|L] B]]]]] _].
        -- assert (Hl : length w = length w1).
           { rewrite <- (lower_length w), <- (lower_length w1), L, L1.
             reflexivity. }
           apply app_inv_length in H; [|now symmetry].
           destruct H as [-> ->]. congruence.
        -- assert (E : eat ieqb (lit "any of") (w1 ++ t1) p
                       = Some (last_of w p, t)).
           { apply eat_ieqb_spec. exists w. rewrite H. auto. }
           congruence.
  - destruct (eat ieqb (lit "any of") s p) as [[p2 t2]|] eqn:E2.
    + apply eat_ieqb_spec in E2. destruct E2 as [w2 [-> [L2 ->]]].
      destruct (at_boundary (last_of w2 p) t2) eqn:B2.
      * cbn [pos caps]. change (length (lit "any of")) with 6. split.
        -- intros H. injection H as <-. split; [split; [reflexivity|] | reflexivity].
           exists w2, t2. repeat split; [now right | assumption].
        -- intros [_ ->]. reflexivity.
      * split; [discriminate|].
        intros [[_ [w [t [H [[L|L] B]]]]] _].
        -- assert (E : eat ieqb (lit "one of") (w2 ++ t2) p
                       = Some (last_of w p, t)).
           { apply eat_ieqb_spec. exists w. rewrite H. auto. }
           congruence.
        -- assert (Hl : length w = length w2).
           { rewrite <- (lower_length w), <- (lower_length w2), L, L2.
             reflexivity. }
           apply app_inv_length in H; [|now symmetry].
           destruct H as [-> ->]. congruence.
    + split; [discriminate|].
      intros [[_ [w [t [H [[L|L] B]]]]] _].
      * assert (E : eat ieqb (lit "one of") s p = Some (last_of w p, t)).
        { apply eat_ieqb_spec. exists w. auto. }
        congruence.
      * assert (E : eat ieqb (lit "any of") s p = Some (last_of w p, t)).
        { apply eat_ieqb_spec. exists w. auto. }
        congruence.
Qed.

Lemma phrase_at_match (s pre post : str) (m : rmatch) :
  s = pre ++ post ->
  match_here ONE_OF_RE (length pre) (last_of pre None) post = Some m ->
  phrase_at s (length pre).
Proof.
  intros -> H. apply match_here_one_of in H.
  destruct H as [[B [w [t [-> [L B']]]]] _].
  exists pre, w, t. repeat split; try assumption.
  rewrite last_of_nonempty in B'; [assumption|].
  destruct L as [L|L]; destruct w; discriminate || congruence.
Qed.

Lemma match_phrase_at (s : str) (i : nat) :
  phrase_at s i ->
  exists pre post,
    s = pre ++ post /\ length pre = i /\
    match_here ONE_OF_RE i (last_of pre None) post
    = Some (Match i (i + 6) [(1, (i, i + 6))]).
Proof.
  intros [pre [w [post [-> [Hi [L [B B']]]]]]].
  exists pre, (w ++ post). repeat split; [assumption|].
  apply match_here_one_of. split; [|reflexivity].
  split; [assumption|]. exists w, post. repeat split; [assumption|].
  rewrite last_of_nonempty; [assumption|].
  destruct L as [L|L]; destruct w; discriminate || congruence.
Qed.

(** [re.search] with the one-of pattern returns the first whole-word
    occurrence of "one of" or "any of", whatever its case. *)
Lemma search_one_of (s : str) (m : rmatch) :
  search ONE_OF_RE s = Some m <->
  first_phrase_at s (m_start m) /\
  m = Match (m_start m) (m_start m + 6) [(1, (m_start m, m_start m + 6))].
Proof.
  unfold search. rewrite search_from_spec. split.
  - intros [pre [post [Hs [Hm Hfirst]]]]. simpl in Hm.
    assert (Hst : m_start m = length pre).
    { apply match_here_one_of in Hm. destruct Hm as [_ ->]. reflexivity. }
    rewrite Hst. split.
    + split.
      * eapply phrase_at_match; eassumption.
      * intros j Hj Hp. apply match_phrase_at in Hp.
        destruct Hp as [pre' [post' [Hs' [Hl Hm']]]].
        specialize (Hfirst pre' post' Hs'). simpl in Hfirst.
        rewrite Hl in Hfirst. rewrite Hfirst in Hm'; [discriminate | lia].
    + apply match_here_one_of in Hm. now destruct Hm as [_ ->].
  - intros [[Hp Hfirst] Hm].
    apply match_phrase_at in Hp. destruct Hp as [pre [post [Hs [Hl Hmh]]]].
    exists pre, post. simpl. rewrite Hl. repeat split.
    + assumption.
    + now rewrite Hm.
    + intros pre' post' Hs' Hlen.
      destruct (match_here ONE_OF_RE (length pre') (last_of pre' None) post')
        as [m'|] eqn:E; [|reflexivity].
      exfalso. apply (Hfirst (length pre')); [lia|].
      eapply phrase_at_match; eassumption.
Qed.

Lemma filter_nil_existsb (A : Type) (f : A -> bool) (l : list A) :
  existsb f l = false -> filter f l = [].
Proof.
  induction l as [|x l IH]; simpl; [reflexivity|].
  destruct (f x); simpl; [discriminate | exact IH].
Qed.

Lemma filter_cons_existsb (A : Type) (f : A -> bool) (l : list A) :
  existsb f l = true -> filter f l <> [].
Proof.
  induction l as [|x l IH]; simpl; [discriminate|].
  destruct (f x); simpl; [discriminate | exact IH].
Qed.

(** The two ways out of the one-of window. *)
Lemma parse_clause_window (clause : str) (m : rmatch) :
  let cc := normalize_space clause in
  let courses := find_course_spans cc in
  search ONE_OF_RE cc = Some m ->
  existsb (fun x => m_end m <=? span_start x) courses = true ->
  parse_clause_into_group clause =
  and_or_single
    (map COURSE (refs_before (m_end m) courses)
     ++ [OR (map COURSE (refs_from (m_end m) courses))]).
Proof.
  intros cc courses Hs He. unfold parse_clause_into_group.
  fold cc. fold courses. rewrite Hs.
  destruct courses as [|c0 cs0] eqn:Hc; [discriminate|].
  rewrite <- Hc in *.
  apply filter_cons_existsb in He. unfold refs_before, refs_from.
  destruct (filter (fun x => m_end m <=? span_start x) courses) as [|y ys];
    [congruence | reflexivity].
Qed.

Lemma parse_clause_no_window (clause : str) :
  let cc := normalize_space clause in
  let courses := find_course_spans cc in
  courses <> [] ->
  one_of_window cc = false ->
  parse_clause_into_group clause = parse_by_connectors cc courses.
Proof.
  intros cc courses Hne Hw. unfold parse_clause_into_group, one_of_window in *.
  fold cc in Hw |- *. fold courses in Hw |- *.
  destruct courses as [|c0 cs0] eqn:Hc; [congruence|].
  rewrite <- Hc in *.
  destruct (search ONE_OF_RE cc) as [m|]; [|reflexivity].
  now rewrite (filter_nil_existsb _ _ Hw).
Qed.

(** C1.  When the normalised clause contains the phrase "one of" or
    "any of" (any case, whole words; [i] is the offset of its first
    occurrence, so the phrase ends at [i + 6]) and a course token starts
    at or after the end of the phrase, the clause parser returns the
    tokens that start from there on as one OR, in the order of the scan
    (which is from left to right in the text), and the tokens that start
    earlier as AND siblings of that OR; when
    there is no earlier token the OR is returned as it is, without an
    AND around it.  The clause "MATH 231 and one of CS 225, CS 233, or
    CS 241" gives AND[MATH 231, OR[CS 225, CS 233, CS 241]]. *)
Theorem one_of_grouping :
  (forall (clause : str) (i : nat),
      let cc := normalize_space clause in
      let courses := find_course_spans cc in
      let before := refs_before (i + 6) courses in
      let after := refs_from (i + 6) courses in
      first_phrase_at cc i ->
      (exists x, In x courses /\ i + 6 <= span_start x) ->
      in_textual_order courses /\
      after <> [] /\
      parse_clause_into_group clause
      = and_or_single (map COURSE before ++ [OR (map COURSE after)]) /\
      (before = [] ->
       parse_clause_into_group clause = OR (map COURSE after)) /\
      (before <> [] ->
       parse_clause_into_group clause
       = AND (map COURSE before ++ [OR (map COURSE after)]))) /\
  parse_clause_into_group
    (lit "MATH 231 and one of CS 225, CS 233, or CS 241")
  = AND [COURSE (lit "MATH 231");
         OR [COURSE (lit "CS 225"); COURSE (lit "CS 233");
             COURSE (lit "CS 241")]].
Proof.
  split; [|vm_compute; reflexivity].
  intros clause i cc courses before after Hp [x [Hx Hle]].
  pose (m := Match i (i + 6) [(1, (i, i + 6))]).
  assert (Hs : search ONE_OF_RE cc = Some m).
  { apply search_one_of. simpl. split; [assumption | reflexivity]. }
  assert (He : existsb (fun y => m_end m <=? span_start y) courses = true).
  { apply existsb_exists. exists x. split; [assumption|].
    simpl. now apply Nat.leb_le. }
  pose proof (parse_clause_window clause Hs He) as Hparse.
  simpl in Hparse. fold cc in Hparse. fold courses in Hparse.
  fold before in Hparse. fold after in Hparse.
  assert (Hafter : after <> []).
  { unfold after, refs_from. intros H. apply map_eq_nil in H.
    apply filter_cons_existsb in He. simpl in He. contradiction. }
  split; [apply find_course_spans_order|].
  split; [assumption|]. split; [assumption|]. split.
  - intros Hb. rewrite Hparse, Hb. reflexivity.
  - intros Hb. rewrite Hparse. destruct before as [|b bs]; [congruence|].
    simpl. destruct (map COURSE bs ++ [OR (map COURSE after)]) eqn:E;
      [|reflexivity].
    destruct (map COURSE bs); discriminate.
Qed.

Lemma one_of_grouping_witness :
  parse_clause_into_group (lit "CS 411 and any of CS 225, CS 233") =
  AND [COURSE (lit "CS 411");
       OR [COURSE (lit "CS 225"); COURSE (lit "CS 233")]].
Proof.
  destruct (proj1 one_of_grouping (lit "CS 411 and any of CS 225, CS 233") 11)
    as [_ [_ [H _]]].
  - apply (proj1 (search_one_of _ (Match 11 17 [(1, (11, 17))]))).
    vm_compute. reflexivity.
  - exists (lit "CS 225", 18, 24). split.
    + vm_compute. right. left. reflexivity.
    + vm_compute. repeat constructor.
  - rewrite H. vm_compute. reflexivity.
Defined.

(** ** Clauses with one kind of connector *)

Lemma has_In (k : connector) (l : list connector) :
  has k l = true <-> In k l.
Proof.
  unfold has. rewrite existsb_exists. split.
  - intros [x [Hx E]]. destruct k, x; try discriminate; exact Hx.
  - intros H. exists k. split; [assumption | now destruct k].
Qed.

Lemma has_not_In (k : connector) (l : list connector) :
  has k l = false <-> ~ In k l.
Proof.
  rewrite <- has_In. destruct (has k l); split; congruence.
Qed.

Lemma leaves_of_length (courses : list span) :
  length (leaves_of courses) = length courses.
Proof. apply length_map. Qed.

(** What [parse_by_connectors] returns, by the connectors present. *)
Lemma parse_by_connectors_cases (cc : str) (courses : list span) :
  let conns := connectors_of cc courses in
  (has K_AND conns = true -> has K_OR conns = false ->
   parse_by_connectors cc courses = AND (leaves_of courses)) /\
  (has K_OR conns = true -> has K_AND conns = false ->
   parse_by_connectors cc courses = OR (leaves_of courses)) /\
  (has K_AND conns = false -> has K_OR conns = false ->
   has K_LIST conns = true ->
   parse_by_connectors cc courses = OR (leaves_of courses)) /\
  (has K_AND conns = false -> has K_OR conns = false ->
   has K_LIST conns = false ->
   parse_by_connectors cc courses = and_or_single (leaves_of courses)) /\
  (has K_AND conns = true -> has K_OR conns = true ->
   parse_by_connectors cc courses = parse_mixed cc courses).
Proof.
  intros conns. unfold parse_by_connectors. fold conns.
  destruct (has K_AND conns), (has K_OR conns), (has K_LIST conns);
    simpl; repeat split; intros; congruence.
Qed.

(** C4.  For a clause with at least one course token that the one-of
    window does not handle, and whose connectors are not mixed: when AND
    is among the connectors and OR is not, the result is AND over the
    course leaves in the order of the scan, which is from left to right
    in the text; when OR is among them and AND is not, it is OR over the
    leaves; when neither AND nor OR occurs and some connector is LIST,
    it is OR over the leaves; when neither AND nor OR nor LIST occurs
    (one course, or UNKNOWN separators only), it is AND over the leaves,
    and the leaf itself when there is one course.  The tests are
    membership tests: a LIST or UNKNOWN connector beside the ANDs, or
    beside the ORs, changes nothing.  The clause "CS 225, CS 233,
    CS 241" gives OR over its three courses, and so does "CS 225,
    CS 233, or CS 241"; "CS 225, MATH 231, and STAT 400" gives AND over
    its three courses. *)
Theorem unmixed_clause :
  (forall clause : str,
      let cc := normalize_space clause in
      let courses := find_course_spans cc in
      let conns := connectors_of cc courses in
      let leaves := leaves_of courses in
      courses <> [] ->
      one_of_window cc = false ->
      in_textual_order courses /\
      (In K_AND conns -> ~ In K_OR conns ->
       parse_clause_into_group clause = AND leaves) /\
      (In K_OR conns -> ~ In K_AND conns ->
       parse_clause_into_group clause = OR leaves) /\
      (~ In K_AND conns -> ~ In K_OR conns -> In K_LIST conns ->
       parse_clause_into_group clause = OR leaves) /\
      (~ In K_AND conns -> ~ In K_OR conns -> ~ In K_LIST conns ->
       (forall x, leaves = [x] -> parse_clause_into_group clause = x) /\
       (length courses <> 1 ->
        parse_clause_into_group clause = AND leaves))) /\
  parse_clause_into_group (lit "CS 225, CS 233, CS 241")
  = OR [COURSE (lit "CS 225"); COURSE (lit "CS 233"); COURSE (lit "CS 241")]
  /\
  parse_clause_into_group (lit "CS 225, CS 233, or CS 241")
  = OR [COURSE (lit "CS 225"); COURSE (lit "CS 233"); COURSE (lit "CS 241")]
  /\
  parse_clause_into_group (lit "CS 225, MATH 231, and STAT 400")
  = AND [COURSE (lit "CS 225"); COURSE (lit "MATH 231");
         COURSE (lit "STAT 400")].
Proof.
  split; [|repeat split; vm_compute; reflexivity].
  intros clause cc courses conns leaves Hne Hw.
  rewrite (parse_clause_no_window clause Hne Hw). fold cc. fold courses.
  destruct (parse_by_connectors_cases cc courses)
    as [Hand [Hor [Hlist [Hnone _]]]].
  fold conns in Hand, Hor, Hlist, Hnone. fold leaves in Hand, Hor, Hlist, Hnone.
  split; [apply find_course_spans_order|].
  split; [|split; [|split; [|split]]].
  - intros Ha Ho. apply Hand; [now apply has_In | now apply has_not_In].
  - intros Ho Ha. apply Hor; [now apply has_In | now apply has_not_In].
  - intros Ha Ho Hl.
    apply Hlist; [now apply has_not_In | now apply has_not_In
                  | now apply has_In].
  - intros x Hx. rewrite Hnone by now apply has_not_In. now rewrite Hx.
  - intros Hlen. rewrite Hnone by now apply has_not_In.
    pose proof (leaves_of_length courses) as Hl. fold leaves in Hl.
    destruct leaves as [|x [|y l]]; try reflexivity.
    simpl in Hl. congruence.
Qed.

Lemma unmixed_clause_witness :
  parse_clause_into_group (lit "CS 225, MATH 231 and  STAT 400")
  = AND [COURSE (lit "CS 225"); COURSE (lit "MATH 231");
         COURSE (lit "STAT 400")].
Proof.
  destruct (proj1 unmixed_clause (lit "CS 225, MATH 231 and  STAT 400"))
    as [_ [H _]].
  - vm_compute. discriminate.
  - vm_compute. reflexivity.
  - rewrite H.
    + vm_compute. reflexivity.
    + vm_compute. right. left. reflexivity.
    + vm_compute. intros [E | [E | []]]; discriminate E.
Defined.

(** ** Routing of the clauses *)

(** The non-empty trees of the clauses selected by [sel], in clause
    order. *)
Lemma route_spec (clauses : list str) :
  forall acc : list node * list node,
    fold_left route_clause clauses acc =
    (fst acc ++
       map parse_clause_into_group
         (filter (fun c => negb (is_empty (parse_clause_into_group c))
                           && negb (is_coreq_clause c)) clauses),
     snd acc ++
       map parse_clause_into_group
         (filter (fun c => negb (is_empty (parse_clause_into_group c))
                           && is_coreq_clause c) clauses)).
Proof.
  induction clauses as [|c l IH]; intros [h q]; simpl.
  - now rewrite !app_nil_r.
  - rewrite IH. unfold route_clause.
    destruct (is_empty (parse_clause_into_group c)); simpl; [reflexivity|].
    destruct (is_coreq_clause c); simpl; now rewrite <- app_assoc.
Qed.

Lemma is_coreq_clause_spec (c : str) :
  is_coreq_clause c = true <->
  substring (lit "concurrent") (lower c) \/
  substring (lit "co-requisite") (lower c) \/
  substring (lit "corequisite") (lower c) \/
  matches CREDIT_OR_CONCURRENT_RE (lower c).
Proof.
  unfold is_coreq_clause.
  rewrite !orb_true_iff, !contains_spec, found_matches. tauto.
Qed.

(** ** The shape of the trees *)

Lemma items_nonempty_courses (l : list str) :
  forallb items_nonempty (map COURSE l) = true.
Proof. induction l; simpl; auto. Qed.

Lemma items_nonempty_leaves (courses : list span) :
  forallb items_nonempty (leaves_of courses) = true.
Proof. induction courses; simpl; auto. Qed.

Lemma items_nonempty_and_or_single (l : list node) :
  l <> [] -> forallb items_nonempty l = true ->
  items_nonempty (and_or_single l) = true.
Proof.
  intros Hne H. destruct l as [|x [|y l]]; [congruence | |].
  - simpl in *. now rewrite andb_true_r in H.
  - unfold and_or_single. simpl in *. exact H.
Qed.

Lemma segment_group_shape (seg : str) (g : node) :
  segment_group seg = Some g ->
  items_nonempty g = true /\ (is_and g = true \/ is_or g = true).
Proof.
  unfold segment_group.
  destruct (find_course_spans seg) as [|c cs] eqn:E; [discriminate|].
  rewrite <- E.
  assert (Hl : nonempty (leaves_of (find_course_spans seg)) = true)
    by now rewrite E.
  pose proof (items_nonempty_leaves (find_course_spans seg)) as Hi.
  destruct (found AND_RE (lower seg) && negb (found OR_RE (lower seg)));
    [|destruct (found OR_RE (lower seg) && negb (found AND_RE (lower seg)))];
    intros H; injection H as <-; simpl; rewrite Hl, Hi; auto.
Qed.

Lemma collect_subitems_shape (segments : list str) :
  forall acc : list node,
    forallb items_nonempty acc = true ->
    forallb items_nonempty (collect_subitems segments acc) = true.
Proof.
  induction segments as [|seg l IH]; intros acc Hacc; simpl; [assumption|].
  destruct (segment_group seg) as [g|] eqn:E; [|now apply IH].
  apply IH. rewrite forallb_app, Hacc. simpl.
  apply segment_group_shape in E. destruct E as [-> _]. reflexivity.
Qed.

Lemma parse_mixed_shape (cc : str) (courses : list span) :
  courses <> [] -> items_nonempty (parse_mixed cc courses) = true.
Proof.
  intros Hne. unfold parse_mixed.
  pose proof (collect_subitems_shape (comma_segments cc) [] eq_refl) as H.
  destruct (collect_subitems (comma_segments cc) []) as [|g gs] eqn:E.
  - assert (Hl : nonempty (leaves_of courses) = true)
      by (destruct courses; [congruence | reflexivity]).
    pose proof (items_nonempty_leaves courses) as Hi.
    destruct (negb (count_op is_and (leaves_of courses) =? 0)
              && (count_op is_or (leaves_of courses) =? 0));
      [|destruct (negb (count_op is_or (leaves_of courses) =? 0)
                  && (count_op is_and (leaves_of courses) =? 0))];
      simpl; now rewrite Hl, Hi.
  - destruct (negb (count_op is_and (g :: gs) =? 0)
              && (count_op is_or (g :: gs) =? 0));
      [|destruct (negb (count_op is_or (g :: gs) =? 0)
                  && (count_op is_and (g :: gs) =? 0))];
      exact H.
Qed.

Lemma parse_by_connectors_shape (cc : str) (courses : list span) :
  courses <> [] -> items_nonempty (parse_by_connectors cc courses) = true.
Proof.
  intros Hne. unfold parse_by_connectors.
  assert (Hl : nonempty (leaves_of courses) = true)
    by (destruct courses; [congruence | reflexivity]).
  pose proof (items_nonempty_leaves courses) as Hi.
  destruct (has K_AND (connectors_of cc courses)),
    (has K_OR (connectors_of cc courses)),
    (has K_LIST (connectors_of cc courses)); simpl;
    try (now rewrite Hl, Hi);
    try (now apply parse_mixed_shape).
  all: apply items_nonempty_and_or_single; [|assumption].
  all: destruct courses; [congruence | discriminate].
Qed.

Lemma parse_clause_shape (clause : str) :
  items_nonempty (parse_clause_into_group clause) = true.
Proof.
  unfold parse_clause_into_group.
  set (cc := normalize_space clause).
  destruct (find_course_spans cc) as [|c0 cs0] eqn:Hc; [reflexivity|].
  rewrite <- Hc.
  assert (Hne : find_course_spans cc <> []) by (rewrite Hc; discriminate).
  destruct (search ONE_OF_RE cc) as [m|];
    [|now apply parse_by_connectors_shape].
  destruct (map span_course
              (filter (fun x => m_end m <=? span_start x)
                      (find_course_spans cc))) as [|y ys] eqn:E;
    [now apply parse_by_connectors_shape|].
  apply items_nonempty_and_or_single.
  - intros H. apply app_eq_nil in H. destruct H as [_ H]. discriminate.
  - rewrite forallb_app, items_nonempty_courses. simpl.
    change (COURSE y :: map COURSE ys) with (map COURSE (y :: ys)).
    now rewrite items_nonempty_courses.
Qed.

Lemma fold_shape (groups : list node) :
  forallb items_nonempty groups = true -> items_nonempty (fold groups) = true.
Proof.
  intros H. destruct groups as [|g [|h l]]; [reflexivity | |].
  - simpl in H. now rewrite andb_true_r in H.
  - exact H.
Qed.

(** The half of the collapsing convention that the parser keeps: no AND
    or OR node of an output tree is without items. *)
Lemma parse_items_nonempty (text : str) :
  items_nonempty (hard (parse_prereq_text text)) = true /\
  items_nonempty (coreq_ok (parse_prereq_text text)) = true.
Proof.
  unfold parse_prereq_text, route.
  destruct (clauses_of text) as [|c l] eqn:E; [now split|].
  rewrite route_spec. simpl fst. simpl snd. simpl app.
  split; apply fold_shape; apply forallb_forall; intros g Hg;
    apply in_map_iff in Hg; destruct Hg as [cl [<- _]];
    apply parse_clause_shape.
Qed.


(** ** Texts without prerequisites *)

(** C9.  The texts "", "None.", "No prerequisites." and "Prerequisites:
    none" go to the bucket "none" of the pre-parse gate (the text is
    blank after stripping, or one of the negative phrasings is found in
    it), they parse to hard = EMPTY and coreq_ok = EMPTY, and the output
    record built for them has these two trees and no flags. *)
Theorem none_inputs :
  Forall (fun t : str =>
            let c := record_of t in
            analyze [c] = Results [c] [] [] /\
            negb (nonempty (strip t)) || is_none_text t = true /\
            parse_prereq_text t = Parsed EMPTY EMPTY /\
            p_hard (build_prerequisites c) = EMPTY /\
            p_coreq_ok (build_prerequisites c) = EMPTY /\
            p_flags (build_prerequisites c) = [])
         [lit ""; lit "None."; lit "No prerequisites.";
          lit "Prerequisites: none"].
Proof. repeat constructor; vm_compute; reflexivity. Qed.

(** ** Alternatives of literal texts *)

Lemma match_here_alt (a b : regex) (n : nat) (p : option ascii) (s : str) :
  match_here (Alt a b) n p s <> None <->
  match_here a n p s <> None \/ match_here b n p s <> None.
Proof.
  unfold match_here. simpl.
  destruct (run a (Cursor n p s []) Some);
    destruct (run b (Cursor n p s []) Some); split; intros H;
    try congruence; try (now left); try (now right).
  destruct H; congruence.
Qed.

Lemma found_alt (a b : regex) (s : str) :
  found (Alt a b) s = found a s || found b s.
Proof.
  apply eq_true_iff_eq. rewrite orb_true_iff, !found_spec. split.
  - intros [pre [post [H Hm]]]. apply match_here_alt in Hm.
    destruct Hm; [left | right]; now exists pre, post.
  - intros [[pre [post [H Hm]]] | [pre [post [H Hm]]]];
      exists pre, post; split; try assumption; apply match_here_alt; auto.
Qed.

Lemma found_text (w s : str) : found (seq_of chr w) s = contains w s.
Proof.
  apply eq_true_iff_eq. rewrite found_spec, contains_spec. unfold substring.
  unfold match_here. split.
  - intros [pre [post [-> Hm]]]. rewrite run_text in Hm. simpl in Hm.
    destruct (eat Ascii.eqb w post (last_of pre None)) as [[p' t]|] eqn:E;
      [|congruence].
    apply eat_eqb_spec in E. destruct E as [-> _]. now exists pre, t.
  - intros [pre [post ->]]. exists pre, (w ++ post). split; [reflexivity|].
    rewrite run_text. simpl.
    rewrite (proj2 (eat_eqb_spec w (w ++ post) (last_of pre None)
                                 (last_of w (last_of pre None)) post)
                   (conj eq_refl eq_refl)).
    discriminate.
Qed.

Lemma found_words_re (l : list string) (s : str) :
  l <> [] ->
  found (words_re l) s = some_keyword_in s (map list_ascii_of_string l).
Proof.
  unfold words_re, some_keyword_in. induction l as [|w [|w' l] IH]; intros Hne.
  - congruence.
  - simpl. now rewrite found_text, orb_false_r.
  - change (alts (map (fun w0 => seq_of chr (list_ascii_of_string w0))
                      (w :: w' :: l)))
      with (Alt (seq_of chr (list_ascii_of_string w))
                (alts (map (fun w0 => seq_of chr (list_ascii_of_string w0))
                           (w' :: l)))).
    rewrite found_alt, found_text, IH by discriminate. reflexivity.
Qed.

(** ** The flags *)

(** [detect_flags] keeps, of the groups taken in the order of their
    names, those with a keyword in the lowercased text. *)
Lemma detect_flags_filter (text : str) :
  detect_flags text =
  map snd (filter (fun g => some_keyword_in (lower text) (fst g))
                  groups_by_name).
Proof.
  unfold detect_flags, mapping, groups_by_name.
  cbn [fold_left fst snd filter].
  rewrite !found_words_re by discriminate.
  cbn [map]. fold (lit "consent").
  destruct (some_keyword_in (lower text) _);
  destruct (some_keyword_in (lower text) _);
  destruct (some_keyword_in (lower text) _);
  destruct (some_keyword_in (lower text) _);
  destruct (some_keyword_in (lower text) _);
  destruct (some_keyword_in (lower text) _);
  vm_compute; reflexivity.
Qed.

Lemma some_keyword_in_spec (t : str) (kws : list str) :
  some_keyword_in t kws = true <-> exists w, In w kws /\ substring w t.
Proof.
  unfold some_keyword_in. rewrite existsb_exists.
  split; intros [w [Hw H]]; exists w; split; try assumption;
    now apply contains_spec.
Qed.

Lemma groups_by_name_perm (g : list str * str) :
  In g groups_by_name <-> In g keyword_groups.
Proof. unfold groups_by_name, keyword_groups. simpl. tauto. Qed.

Lemma StronglySorted_filter (A : Type) (R : A -> A -> Prop)
  (f : A -> bool) (l : list A) :
  StronglySorted R l -> StronglySorted R (filter f l).
Proof.
  induction 1 as [|x l Hs IH Hall]; simpl; [constructor|].
  destruct (f x); [|assumption]. constructor; [assumption|].
  apply Forall_forall. intros y Hy. apply filter_In in Hy.
  destruct Hy as [Hy _]. rewrite Forall_forall in Hall. now apply Hall.
Qed.

Lemma StronglySorted_map_snd_filter (f : list str * str -> bool)
  (l : list (list str * str)) :
  StronglySorted (fun a b => str_lt (snd a) (snd b)) l ->
  StronglySorted str_lt (map snd (filter f l)).
Proof.
  intros H. apply (StronglySorted_filter f) in H.
  induction H as [|x l' Hs IH Hall]; simpl; constructor; [assumption|].
  apply Forall_forall. intros y Hy. apply in_map_iff in Hy.
  destruct Hy as [g [<- Hg]]. rewrite Forall_forall in Hall. now apply Hall.
Qed.

Lemma groups_by_name_sorted :
  StronglySorted (fun a b => str_lt (snd a) (snd b)) groups_by_name.
Proof.
  unfold groups_by_name.
  repeat (constructor; [|repeat (constructor;
                                 [split; [reflexivity | discriminate]|]);
                         constructor]).
  constructor.
Qed.

(** C7, as amended.  [detect_flags] lowercases the text and returns the
    names of the flags whose keyword group has a keyword in it, each
    once and in increasing order of the names, where the groups are the
    six of the specification with "enrolled" added to the keywords of
    MAJOR_OR_PROGRAM. *)
Theorem detect_flags_spec :
  forall text : str,
    StronglySorted str_lt (detect_flags text) /\
    forall name : str,
      In name (detect_flags text) <->
      fires keyword_groups name (lower text).
Proof.
  intros text. rewrite detect_flags_filter. split.
  - apply StronglySorted_map_snd_filter, groups_by_name_sorted.
  - intros name. rewrite in_map_iff. unfold fires. split.
    + intros [[kws n] [Hn Hg]]. simpl in Hn. subst n.
      apply filter_In in Hg. destruct Hg as [Hg Hk].
      apply groups_by_name_perm in Hg. simpl in Hk.
      apply some_keyword_in_spec in Hk. destruct Hk as [w [Hw Hs]].
      now exists kws, w.
    + intros [kws [w [Hg [Hw Hs]]]]. exists (kws, name).
      split; [reflexivity|]. apply filter_In. split.
      * now apply groups_by_name_perm.
      * simpl. apply some_keyword_in_spec. now exists w.
Qed.

(** C7 as stated fails: "enrolled" is a keyword of [mapping] that the
    six groups of the specification do not list, and it raises
    MAJOR_OR_PROGRAM. *)
Lemma detect_flags_enrolled :
  ~ (forall text name : str,
        In name (detect_flags text) <->
        fires keyword_groups_claimed name (lower text)).
Proof.
  intros H.
  destruct (proj1 (H (lit "enrolled") (lit "MAJOR_OR_PROGRAM")))
    as [kws [w [Hg [Hw Hs]]]].
  - vm_compute. now left.
  - apply contains_spec in Hs.
    unfold keyword_groups_claimed in Hg. simpl in Hg.
    repeat (destruct Hg as [Hg|Hg]; [try discriminate|]);
      try contradiction.
    injection Hg as <-. simpl in Hw.
    repeat (destruct Hw as [<-|Hw]; [vm_compute in Hs; discriminate|]).
    contradiction.
Qed.

(** ** Case and the character classes *)

Lemma is_word_lower (c : ascii) : is_word (lower_char c) = is_word c.
Proof.
  destruct c as [[] [] [] [] [] [] [] []]; vm_compute; reflexivity.
Qed.

Lemma is_space_lower (c : ascii) : is_space (lower_char c) = is_space c.
Proof.
  destruct c as [[] [] [] [] [] [] [] []]; vm_compute; reflexivity.
Qed.

Lemma space_not_word (c : ascii) : is_space c = true -> is_word c = false.
Proof.
  destruct c as [[] [] [] [] [] [] [] []]; vm_compute; congruence.
Qed.

(** ** Stripping *)

Lemma rstrip_app_nonspace (a : str) (x : ascii) (b : str) :
  is_space x = false -> rstrip (a ++ x :: b) = a ++ x :: rstrip b.
Proof.
  intros Hx. induction a as [|y a IH]; simpl.
  - destruct (rstrip b); [now rewrite Hx | reflexivity].
  - rewrite IH. now destruct a.
Qed.

Lemma lstrip_app_nonspace (a : str) (x : ascii) (b : str) :
  is_space x = false -> exists a', lstrip (a ++ x :: b) = a' ++ x :: b.
Proof.
  intros Hx. induction a as [|y a IH]; simpl.
  - rewrite Hx. now exists [].
  - destruct (is_space y); [exact IH|]. now exists (y :: a).
Qed.

Lemma strip_app_nonspace (a : str) (x : ascii) (m : str) (y : ascii)
  (b : str) :
  is_space x = false -> is_space y = false ->
  exists a', strip (a ++ x :: m ++ y :: b) = a' ++ x :: m ++ y :: rstrip b.
Proof.
  intros Hx Hy. unfold strip.
  destruct (lstrip_app_nonspace a x (m ++ y :: b) Hx) as [a' ->].
  exists a'.
  change (a' ++ x :: m ++ y :: b) with (a' ++ (x :: m) ++ y :: b).
  rewrite app_assoc, rstrip_app_nonspace by assumption.
  now rewrite <- app_assoc.
Qed.

Lemma word_after_rstrip (s : str) :
  word_after s = false -> word_after (rstrip s) = false.
Proof.
  destruct s as [|x s]; [reflexivity|]. simpl. intros H.
  destruct (rstrip s); [|exact H]. now destruct (is_space x).
Qed.

Lemma substring_lower_strip (x : ascii) (mid : str) (y : ascii) (s : str) :
  is_space x = false -> is_space y = false ->
  substring (x :: mid ++ [y]) (lower s) ->
  substring (x :: mid ++ [y]) (lower (strip s)).
Proof.
  intros Hx Hy [pre [post H]]. unfold lower in H.
  apply map_eq_app in H. destruct H as [a [r [-> [Ha H]]]].
  simpl in H. apply map_eq_cons in H. destruct H as [x' [r' [-> [Hx' H]]]].
  rewrite <- app_assoc in H.
  apply map_eq_app in H. destruct H as [m' [r [-> [Hm H]]]].
  simpl in H. apply map_eq_cons in H. destruct H as [y' [b [-> [Hy' Hb]]]].
  assert (Hsx : is_space x' = false) by now rewrite <- is_space_lower, Hx'.
  assert (Hsy : is_space y' = false) by now rewrite <- is_space_lower, Hy'.
  destruct (strip_app_nonspace a x' m' y' b Hsx Hsy) as [a' ->].
  exists (lower a'), (lower (rstrip b)). unfold lower.
  rewrite map_app. simpl. rewrite map_app. simpl.
  rewrite Hx', Hm, Hy'. now rewrite <- app_assoc.
Qed.

(** ** The negative phrasings *)

Lemma found_itext (w s : str) :
  lower w = w -> found (seq_of ichr w) s = contains w (lower s).
Proof.
  intros Hw. apply eq_true_iff_eq.
  rewrite found_spec, contains_spec. unfold substring, match_here. split.
  - intros [pre [post [-> Hm]]]. rewrite run_itext in Hm. simpl in Hm.
    destruct (eat ieqb w post (last_of pre None)) as [[p' t]|] eqn:E;
      [|congruence].
    apply eat_ieqb_spec in E. destruct E as [m [-> [Hl _]]].
    exists (lower pre), (lower t). unfold lower in *.
    now rewrite !map_app, Hl, Hw.
  - intros [pre [post H]]. unfold lower in H.
    apply map_eq_app in H. destruct H as [a [r [-> [Ha H]]]].
    apply map_eq_app in H. destruct H as [m [t [-> [Hm Ht]]]].
    exists a, (m ++ t). split; [reflexivity|].
    rewrite run_itext. simpl.
    assert (E : eat ieqb w (m ++ t) (last_of a None)
                = Some (last_of m (last_of a None), t)).
    { apply eat_ieqb_spec. exists m. unfold lower in *. now rewrite Hm, Hw. }
    rewrite E. discriminate.
Qed.

Lemma found_NONE_RE_2 (s : str) :
  found NONE_RE_2 s = contains (lit "no prerequisites") (lower s).
Proof. apply found_itext. reflexivity. Qed.

Lemma none_phrase_strip (t : str) : none_phrase t -> none_phrase (strip t).
Proof.
  intros [pre [p [sx [ws [n [post [-> [Hp [Hs [Hws [Hn Hpost]]]]]]]]]]].
  destruct p as [|x p']; [discriminate|].
  destruct n as [|n1 [|n2 [|n3 [|n4 [|n5 n']]]]]; try discriminate.
  assert (Hx : is_space x = false).
  { rewrite <- is_space_lower. simpl in Hp. injection Hp as -> _. reflexivity. }
  assert (Hy : is_space n4 = false).
  { rewrite <- is_space_lower. simpl in Hn. injection Hn as _ _ _ ->.
    reflexivity. }
  pose (M := p' ++ sx ++ lit ":" ++ ws ++ [n1; n2; n3]).
  assert (E : pre ++ (x :: p') ++ sx ++ lit ":" ++ ws ++ [n1; n2; n3; n4] ++ post
              = pre ++ x :: M ++ n4 :: post).
  { unfold M. repeat first [progress simpl | rewrite <- app_assoc].
    reflexivity. }
  rewrite E. destruct (strip_app_nonspace pre x M n4 post Hx Hy) as [a' ->].
  exists a', (x :: p'), sx, ws, [n1; n2; n3; n4], (rstrip post).
  repeat split; try assumption.
  - unfold M. repeat first [progress simpl | rewrite <- app_assoc].
    reflexivity.
  - now apply word_after_rstrip.
Qed.

Lemma run_length_app (p : ascii -> bool) (ws r : str) :
  Forall (fun c => p c = true) ws ->
  run_length p (ws ++ r) = length ws + run_length p r.
Proof.
  induction 1 as [|x ws Hx _ IH]; simpl; [reflexivity|].
  now rewrite Hx, IH.
Qed.

Lemma skip_chars_app (ws r : str) (n : nat) (p : option ascii)
  (cp : list (nat * (nat * nat))) :
  skip_chars (length ws) (Cursor n p (ws ++ r) cp)
  = Cursor (n + length ws) (last_of ws p) r cp.
Proof.
  unfold skip_chars. simpl.
  rewrite firstn_app, Nat.sub_diag, firstn_all. simpl. rewrite app_nil_r.
  rewrite skipn_app, Nat.sub_diag, skipn_all. reflexivity.
Qed.

Lemma none_tail_matches (c : cursor) (ws n post : str) :
  rest c = lit ":" ++ ws ++ n ++ post ->
  Forall (fun x => is_space x = true) ws ->
  lower n = lit "none" ->
  word_after post = false ->
  run (Cat (chr ":")
        (Cat (star (Cls is_space)) (Cat (itext "none") Bnd))) c Some
  <> None.
Proof.
  intros Hr Hws Hn Hpost.
  rewrite run_Cat. unfold chr at 1. rewrite run_Cls, Hr. simpl app.
  change (Ascii.eqb ":" ":") with true. cbv iota.
  unfold star. rewrite run_Cat, run_rep_cls by exact I.
  cbn [advance rest min_opt]. cbv zeta. cbn [Nat.leb].
  apply first_down_some with (j := length ws).
  - rewrite run_length_app by assumption. lia.
  - unfold advance. rewrite skip_chars_app.
    unfold itext. rewrite run_Cat, run_itext. cbn [rest prev pos caps].
    set (P := last_of ws (Some ":"%char)).
    assert (E : eat ieqb (lit "none") (n ++ post) P
                = Some (last_of n P, post)).
    { apply eat_ieqb_spec. exists n. auto. }
    rewrite E, run_Bnd. cbn [prev rest].
    destruct n as [|n1 [|n2 [|n3 [|n4 [|n5 n']]]]]; try discriminate.
    unfold at_boundary. rewrite Hpost. simpl.
    rewrite <- is_word_lower. simpl in Hn. injection Hn as _ _ _ ->.
    discriminate.
Qed.

Lemma found_NONE_RE_3 (s : str) : none_phrase s -> found NONE_RE_3 s = true.
Proof.
  intros [pre [p [sx [ws [n [post [-> [Hp [Hs [Hws [Hn Hpost]]]]]]]]]]].
  apply found_spec.
  exists pre, (p ++ sx ++ lit ":" ++ ws ++ n ++ post).
  split; [reflexivity|].
  unfold match_here, NONE_RE_3, itext.
  rewrite run_Cat, run_itext. cbn [rest prev pos caps].
  set (P := last_of pre None).
  assert (E1 : eat ieqb (lit "prerequisite")
                   (p ++ sx ++ lit ":" ++ ws ++ n ++ post) P
               = Some (last_of p P, sx ++ lit ":" ++ ws ++ n ++ post)).
  { apply eat_ieqb_spec. exists p. auto. }
  rewrite E1. clear E1.
  unfold opt. change (ichr "s") with (Cls (ieqb "s")).
  rewrite run_Cat, run_rep_cls by (simpl; lia).
  cbn [rest min_opt]. cbv zeta. cbn [Nat.leb]. rewrite Nat.sub_0_r.
  match goal with
  | |- match ?x with _ => _ end <> None =>
      assert (Hx : x <> None); [|destruct x; congruence]
  end.
  destruct Hs as [-> | Hs].
  - apply first_down_some with (j := 0); [lia|].
    rewrite skip_chars_0.
    apply none_tail_matches with (ws := ws) (n := n) (post := post); auto.
  - destruct sx as [|x [|x' sx']]; try discriminate.
    apply first_down_some with (j := 1).
    + simpl. unfold ieqb at 1. simpl in Hs. injection Hs as Hs.
      rewrite Hs. simpl. lia.
    + change ([x] ++ lit ":" ++ ws ++ n ++ post)
        with ([x] ++ (lit ":" ++ ws ++ n ++ post)).
      change 1 with (length [x]). rewrite skip_chars_app.
      apply none_tail_matches with (ws := ws) (n := n) (post := post); auto.
Qed.

(** A text with a negative phrasing anywhere in it is a none-text. *)
Lemma is_none_text_phrasing (t : str) :
  negative_phrasing t -> is_none_text t = true.
Proof.
  intros [H | H]; unfold is_none_text, NONE_PATTERNS; cbn [existsb].
  - rewrite found_NONE_RE_2.
    apply (@substring_lower_strip "n" (lit "o prerequisite") "s") in H;
      [|reflexivity..].
    apply contains_spec in H.
    change ("n"%char :: lit "o prerequisite" ++ ["s"%char])
      with (lit "no prerequisites") in H.
    rewrite H. now rewrite orb_true_r.
  - rewrite (found_NONE_RE_3 (none_phrase_strip H)).
    now rewrite !orb_true_r.
Qed.

(** ** The buckets of [analyze] *)

Lemma analyze_step_none (res : results) (c x : course_record) :
  In x (none res) -> In x (none (analyze_step res c)).
Proof.
  intros H. unfold analyze_step.
  destruct (negb (nonempty (strip (or_empty (c_prerequisites c)))));
    [simpl; apply in_or_app; now left|].
  destruct (is_none_text (or_empty (c_prerequisites c)));
    [simpl; apply in_or_app; now left|].
  now destruct (is_course_only (or_empty (c_prerequisites c))).
Qed.

Lemma analyze_step_none_text (res : results) (c : course_record) :
  is_none_text (or_empty (c_prerequisites c)) = true ->
  In c (none (analyze_step res c)).
Proof.
  intros H. unfold analyze_step. rewrite H.
  destruct (negb (nonempty (strip (or_empty (c_prerequisites c)))));
    simpl; apply in_or_app; right; now left.
Qed.

Lemma analyze_none (courses : list course_record) (c : course_record) :
  forall res : results,
    (In c (none res) \/
     In c courses /\ is_none_text (or_empty (c_prerequisites c)) = true) ->
    In c (none (fold_left analyze_step courses res)).
Proof.
  induction courses as [|x l IH]; intros res H; simpl.
  - destruct H as [H | [[] _]]. exact H.
  - apply IH. destruct H as [H | [[-> | H] Ht]].
    + left. now apply analyze_step_none.
    + left. now apply analyze_step_none_text.
    + right. now split.
Qed.

Lemma analyze_others (courses : list course_record) :
  forall res : results,
    (forall e, In e (course_only res) ->
               is_none_text (co_prerequisites e) = false) ->
    (forall e, In e (remaining res) ->
               is_none_text (re_prerequisites e) = false) ->
    (forall e, In e (course_only (fold_left analyze_step courses res)) ->
               is_none_text (co_prerequisites e) = false) /\
    (forall e, In e (remaining (fold_left analyze_step courses res)) ->
               is_none_text (re_prerequisites e) = false).
Proof.
  induction courses as [|x l IH]; intros res Hc Hr; simpl; [now split|].
  apply IH; unfold analyze_step;
    destruct (negb (nonempty (strip (or_empty (c_prerequisites x)))));
    try assumption;
    destruct (is_none_text (or_empty (c_prerequisites x))) eqn:E;
    try assumption;
    destruct (is_course_only (or_empty (c_prerequisites x)));
    simpl; try assumption;
    intros e He; apply in_app_or in He; destruct He as [He | [<- | []]];
    auto.
Qed.

(** C10.  A record whose prerequisite text contains "no prerequisites"
    in any case, or a "prerequisite(s): none" phrase, anywhere in it, is
    put in the bucket "none" by [analyze], whatever else the text holds;
    and no entry of the buckets "course_only" and "remaining" has such a
    text. *)
Theorem negative_phrasing_bucket :
  forall (courses : list course_record) (c : course_record) (t : str),
    In c courses ->
    c_prerequisites c = Some t ->
    negative_phrasing t ->
    In c (none (analyze courses)) /\
    (forall e, In e (course_only (analyze courses)) ->
               ~ negative_phrasing (co_prerequisites e)) /\
    (forall e, In e (remaining (analyze courses)) ->
               ~ negative_phrasing (re_prerequisites e)).
Proof.
  intros courses c t Hin Hc Hp. unfold analyze. split.
  - apply analyze_none. right. split; [assumption|].
    rewrite Hc. simpl. now apply is_none_text_phrasing.
  - destruct (analyze_others courses (Results [] [] [])) as [H1 H2];
      try (intros e []).
    split; intros e He Hn; apply is_none_text_phrasing in Hn.
    + rewrite (H1 e He) in Hn. discriminate.
    + rewrite (H2 e He) in Hn. discriminate.
Qed.

Lemma negative_phrasing_bucket_witness :
  In (record_of (lit "CS 225; No prerequisites for majors"))
     (none (analyze [record_of (lit "CS 225 or CS 233");
                     record_of (lit "CS 225; No prerequisites for majors")])).
Proof.
  apply (negative_phrasing_bucket
           [record_of (lit "CS 225 or CS 233");
            record_of (lit "CS 225; No prerequisites for majors")]
           (record_of (lit "CS 225; No prerequisites for majors"))
           (t := lit "CS 225; No prerequisites for majors")).
  - right. left. reflexivity.
  - reflexivity.
  - left. exists (lit "cs 225; "), (lit " for majors"). reflexivity.
Defined.

(** ** Runs of a character class *)

Lemma match_here_plus_cls (p : ascii -> bool) (n : nat) (pr : option ascii)
  (s : str) :
  match_here (plus (Cls p)) n pr s =
  match run_length p s with
  | 0 => None
  | S j => Some (Match n (n + S j) [])
  end.
Proof.
  unfold match_here, plus. rewrite run_rep_cls by exact I.
  cbn [rest min_opt]. cbv zeta.
  destruct (run_length p s) as [|j]; [reflexivity|].
  cbn [Nat.leb Nat.sub]. rewrite Nat.sub_0_r.
  destruct j; reflexivity.
Qed.

Lemma split_from_runs (p : ascii -> bool) (s : str) :
  forall (n : nat) (pr : option ascii),
    split_from (plus (Cls p)) 0 n pr s = split_on p false s /\
    split_from (plus (Cls p)) (run_length p s) n pr s = split_on p true s.
Proof.
  induction s as [|x t IH]; intros n pr; [now split|].
  assert (H0 : split_from (plus (Cls p)) 0 n pr (x :: t)
               = split_on p false (x :: t)).
  { cbn [split_from split_on]. rewrite match_here_plus_cls.
    cbn [run_length]. destruct (p x).
    - cbn [m_end].
      replace (n + S (run_length p t) - n - 1) with (run_length p t) by lia.
      now rewrite (proj2 (IH (S n) (Some x))).
    - now rewrite (proj1 (IH (S n) (Some x))). }
  split; [exact H0|].
  cbn [run_length]. destruct (p x) eqn:E.
  - cbn [split_from split_on]. rewrite E.
    apply (proj2 (IH (S n) (Some x))).
  - rewrite H0. cbn [split_on]. now rewrite E.
Qed.

(** Splitting at a pattern [c+] is splitting at the runs of [c]. *)
Lemma split_plus_cls (p : ascii -> bool) (s : str) :
  split (plus (Cls p)) s = split_on p false s.
Proof. apply split_from_runs. Qed.

Lemma sub_from_spaces (s : str) :
  forall (n : nat) (pr : option ascii),
    sub_from SPACES_RE (lit " ") 0 n pr s = squeeze false s /\
    sub_from SPACES_RE (lit " ") (run_length is_space s) n pr s
    = squeeze true s.
Proof.
  unfold SPACES_RE.
  induction s as [|x t IH]; intros n pr; [now split|].
  assert (H0 : sub_from (plus (Cls is_space)) (lit " ") 0 n pr (x :: t)
               = squeeze false (x :: t)).
  { cbn [sub_from squeeze]. rewrite match_here_plus_cls.
    cbn [run_length]. destruct (is_space x).
    - cbn [m_end].
      replace (n + S (run_length is_space t) - n - 1)
        with (run_length is_space t) by lia.
      now rewrite (proj2 (IH (S n) (Some x))).
    - now rewrite (proj1 (IH (S n) (Some x))). }
  split; [exact H0|].
  cbn [run_length]. destruct (is_space x) eqn:E.
  - cbn [sub_from squeeze]. rewrite E.
    apply (proj2 (IH (S n) (Some x))).
  - rewrite H0. cbn [squeeze]. now rewrite E.
Qed.

Lemma squeeze_true_head (s : str) :
  match squeeze true s with
  | x :: _ => is_space x = false
  | [] => True
  end.
Proof.
  induction s as [|x t IH]; simpl; [exact I|].
  destruct (is_space x) eqn:E; [exact IH | exact E].
Qed.

Lemma lstrip_squeeze (s : str) : lstrip (squeeze false s) = squeeze true s.
Proof.
  destruct s as [|x t]; [reflexivity|]. simpl.
  destruct (is_space x) eqn:E.
  - change (is_space " ") with true. cbv iota.
    pose proof (squeeze_true_head t) as H.
    destruct (squeeze true t) as [|y u]; [reflexivity|].
    simpl. now rewrite H.
  - simpl. now rewrite E.
Qed.

(** [normalize_space] drops the whitespace at both ends and turns every
    other run of whitespace into one space. *)
Lemma normalize_space_squeeze (s : str) :
  normalize_space s = rstrip (squeeze true s).
Proof.
  unfold normalize_space, strip, sub.
  rewrite (proj1 (sub_from_spaces s 0 None)). now rewrite lstrip_squeeze.
Qed.

(** ** The matches of an iteration *)

Lemma scan_sound (r : regex) (m : rmatch) :
  forall (s : str) (skip n : nat) (p : option ascii),
    In m (scan r skip n p s) ->
    exists pre post,
      s = pre ++ post /\
      match_here r (n + length pre) (last_of pre p) post = Some m.
Proof.
  induction s as [|x t IH]; intros skip n p H.
  - destruct skip as [|k]; simpl in H; [|contradiction].
    destruct (match_here r n p []) as [m0|] eqn:E; [|contradiction].
    destruct H as [<- | []]. exists [], []. simpl. now rewrite Nat.add_0_r.
  - assert (Htail : forall k, In m (scan r k (S n) (Some x) t) ->
              exists pre post,
                x :: t = pre ++ post /\
                match_here r (n + length pre) (last_of pre p) post = Some m).
    { intros k Hk. destruct (IH _ _ _ Hk) as [pre [post [-> Hm]]].
      exists (x :: pre), post. simpl. now rewrite Nat.add_succ_r. }
    destruct skip as [|k]; simpl in H; [|now apply (Htail k)].
    destruct (match_here r n p (x :: t)) as [m0|] eqn:E.
    + destruct H as [<- | H]; [|now apply (Htail _ H)].
      exists [], (x :: t). simpl. now rewrite Nat.add_0_r.
    + now apply (Htail 0).
Qed.

Lemma finditer_sound (r : regex) (s : str) (m : rmatch) :
  In m (finditer r s) ->
  exists pre post,
    s = pre ++ post /\
    match_here r (length pre) (last_of pre None) post = Some m.
Proof. intros H. apply scan_sound in H. exact H. Qed.

Lemma scan_nonempty (r : regex) :
  forall (s : str) (n : nat) (p : option ascii),
    search_from r n p s <> None -> scan r 0 n p s <> [].
Proof.
  induction s as [|x t IH]; intros n p H; simpl in *.
  - destruct (match_here r n p []); [discriminate | congruence].
  - destruct (match_here r n p (x :: t)); [discriminate|].
    now apply IH.
Qed.

Lemma finditer_nonempty (r : regex) (s : str) :
  found r s = true -> finditer r s <> [].
Proof.
  unfold found, search, finditer. intros H. apply scan_nonempty.
  destruct (search_from r 0 None s); [discriminate | discriminate].
Qed.

(** ** The course-token pattern *)

Lemma upper_is_word (c : ascii) : is_upper c = true -> is_word c = true.
Proof. unfold is_word. intros ->. now rewrite orb_true_r. Qed.

Lemma digit_is_word (c : ascii) : is_digit c = true -> is_word c = true.
Proof. unfold is_word. now intros ->. Qed.

Lemma upper_not_space (c : ascii) : is_upper c = true -> is_space c = false.
Proof.
  destruct c as [[] [] [] [] [] [] [] []]; vm_compute; congruence.
Qed.

Lemma digit_not_space (c : ascii) : is_digit c = true -> is_space c = false.
Proof.
  destruct c as [[] [] [] [] [] [] [] []]; vm_compute; congruence.
Qed.

Lemma digit_not_upper (c : ascii) : is_digit c = true -> is_upper c = false.
Proof.
  destruct c as [[] [] [] [] [] [] [] []]; vm_compute; congruence.
Qed.

Lemma last_of_word (w : str) (d : option ascii) :
  Forall (fun c => is_word c = true) w ->
  word_before (last_of w d) = word_before d \/ word_before (last_of w d) = true.
Proof.
  intros H. revert d. induction H as [|x w Hx _ IH]; intros d; [now left|].
  simpl. destruct (IH (Some x)) as [-> | ->]; right; [exact Hx | reflexivity].
Qed.

Lemma last_of_word_nonempty (w : str) (d : option ascii) :
  Forall (fun c => is_word c = true) w -> w <> [] ->
  word_before (last_of w d) = true.
Proof.
  intros H Hne. destruct H as [|x w Hx H]; [congruence|].
  simpl. destruct (last_of_word (Some x) H) as [-> | ->];
    [exact Hx | reflexivity].
Qed.

Ltac norm_cursor H :=
  unfold set_cap, skip_chars in H; cbn [pos prev rest caps] in H.

Lemma course_match_sound (n : nat) (p : option ascii) (s : str) (m : rmatch) :
  match_here COURSE_RE n p s = Some m ->
  exists subj ws num post,
    s = subj ++ ws ++ num ++ post /\
    is_subject subj /\
    Forall (fun c => is_space c = true) ws /\
    is_number num /\
    word_before p = false /\
    word_after post = false /\
    m = Match n (n + length subj + length ws + length num)
              [(2, (n + length subj + length ws,
                    n + length subj + length ws + length num));
               (1, (n, n + length subj))].
Proof.
  unfold match_here, COURSE_RE, star, opt.
  rewrite run_Cat, run_Bnd. cbn [prev rest].
  destruct (at_boundary p s) eqn:B0; [|discriminate].
  rewrite run_Cat, run_Grp, run_rep_cls by (simpl; lia).
  cbn [rest min_opt pos]. cbv zeta.
  destruct (2 <=? Nat.min 4 (run_length is_upper s)) eqn:L1; [|discriminate].
  destruct (first_down _ 2 _) as [e|] eqn:F1; [|discriminate].
  intros Hm. injection Hm as <-.
  apply first_down_inv in F1. destruct F1 as [j1 [Hj1 F1]].
  norm_cursor F1.
  rewrite run_Cat, run_rep_cls in F1 by exact I.
  cbn [rest min_opt] in F1. cbv zeta in F1. cbn [Nat.leb] in F1.
  apply first_down_inv in F1. destruct F1 as [j2 [Hj2 F1]].
  norm_cursor F1.
  rewrite run_Cat, run_Grp, run_Cat, run_rep_cls in F1 by (simpl; lia).
  cbn [rest min_opt pos] in F1. cbv zeta in F1.
  destruct (2 <=? _) eqn:L3 in F1; [|discriminate].
  apply first_down_inv in F1. destruct F1 as [j3 [Hj3 F1]].
  norm_cursor F1.
  rewrite run_rep_cls in F1 by (simpl; lia).
  cbn [rest min_opt pos] in F1. cbv zeta in F1. cbn [Nat.leb] in F1.
  apply first_down_inv in F1. destruct F1 as [j4 [Hj4 F1]].
  norm_cursor F1.
  rewrite run_Bnd in F1. cbn [prev rest] in F1.
  destruct (at_boundary _ _) eqn:B4 in F1; [|discriminate].
  injection F1 as <-. cbn [pos caps].
  apply Nat.leb_le in L1, L3.
  destruct (run_length_firstn is_upper s (j := j1)) as [U1 N1]; [lia|].
  destruct (run_length_firstn is_space (skipn j1 s) (j := j2)) as [U2 N2];
    [lia|].
  destruct (run_length_firstn is_digit (skipn j2 (skipn j1 s)) (j := j3))
    as [U3 N3]; [lia|].
  destruct (run_length_firstn is_upper
              (skipn j3 (skipn j2 (skipn j1 s))) (j := j4)) as [U4 N4];
    [lia|].
  set (subj := firstn j1 s) in *.
  set (ws := firstn j2 (skipn j1 s)) in *.
  set (ds := firstn j3 (skipn j2 (skipn j1 s))) in *.
  set (sfx := firstn j4 (skipn j3 (skipn j2 (skipn j1 s)))) in *.
  set (post := skipn j4 (skipn j3 (skipn j2 (skipn j1 s)))) in *.
  exists subj, ws, (ds ++ sfx), post.
  assert (Hs : s = subj ++ ws ++ (ds ++ sfx) ++ post).
  { unfold subj, ws, ds, sfx, post. rewrite <- app_assoc.
    now rewrite !firstn_skipn. }
  assert (Hw1 : Forall (fun c => is_word c = true) ds).
  { eapply Forall_impl; [|exact U3]. apply digit_is_word. }
  assert (Hw2 : Forall (fun c => is_word c = true) sfx).
  { eapply Forall_impl; [|exact U4]. apply upper_is_word. }
  repeat split; try assumption; try lia.
  - exists ds, sfx. repeat split; try assumption; try lia.
    destruct sfx as [|u [|u' sfx']]; [now left | right | simpl in N4; lia].
    exists u. split; [reflexivity|]. now inversion U4.
  - destruct subj as [|x subj'] eqn:Es; [simpl in N1; lia|].
    rewrite Hs in B0. unfold at_boundary in B0. simpl in B0.
    inversion U1 as [|? ? Hx _]. rewrite (upper_is_word _ Hx) in B0.
    now destruct (word_before p).
  - unfold at_boundary in B4.
    assert (Hb : word_before
                   (last_of sfx (last_of ds
                      (last_of ws (last_of subj p)))) = true).
    { destruct (last_of_word (last_of ds (last_of ws (last_of subj p))) Hw2)
        as [-> | ->]; [|reflexivity].
      apply last_of_word_nonempty; [assumption|].
      destruct ds; [simpl in N3; lia | discriminate]. }
    rewrite Hb in B4. now destruct (word_after post).
  - rewrite length_app, N1, N2, N3, N4.
    now rewrite (Nat.add_assoc (n + j1 + j2) j3 j4).
Qed.

Lemma course_match_complete (n : nat) (p : option ascii)
  (subj ws num post : str) :
  is_subject subj ->
  Forall (fun c => is_space c = true) ws ->
  is_number num ->
  word_before p = false ->
  word_after post = false ->
  match_here COURSE_RE n p (subj ++ ws ++ num ++ post) <> None.
Proof.
  intros [Ls Us] Uw [ds [sfx [-> [Ld [Ud Hsfx]]]]] Hp Hpost.
  assert (Usfx : Forall (fun c => is_upper c = true) sfx /\ length sfx <= 1).
  { destruct Hsfx as [-> | [u [-> Hu]]]; split; auto. }
  destruct Usfx as [Usfx Lsfx]. clear Hsfx.
  rewrite <- (app_assoc ds sfx post).
  assert (Hx : run COURSE_RE (Cursor n p (subj ++ ws ++ ds ++ sfx ++ post) [])
                   Some <> None);
    [|unfold match_here;
      destruct (run COURSE_RE
                  (Cursor n p (subj ++ ws ++ ds ++ sfx ++ post) []) Some);
      congruence].
  unfold COURSE_RE, star, opt.
  rewrite run_Cat, run_Bnd. cbn [prev rest].
  assert (B0 : at_boundary p (subj ++ ws ++ ds ++ sfx ++ post) = true).
  { unfold at_boundary. rewrite Hp.
    destruct subj as [|x subj']; [simpl in Ls; lia|]. simpl.
    inversion Us as [|? ? Hx _]. apply (upper_is_word _ Hx). }
  rewrite B0.
  rewrite run_Cat, run_Grp, run_rep_cls by (simpl; lia).
  cbn [rest min_opt pos]. cbv zeta.
  pose proof (@run_length_ge is_upper subj (ws ++ ds ++ sfx ++ post) Us) as G1.
  replace (2 <=? Nat.min 4 (run_length is_upper
                              (subj ++ ws ++ ds ++ sfx ++ post)))
    with true by (symmetry; apply Nat.leb_le; lia).
  apply first_down_some with (j := length subj); [lia|].
  unfold set_cap, skip_chars. cbn [pos prev rest caps].
  rewrite firstn_app, Nat.sub_diag, firstn_all, firstn_0, app_nil_r.
  rewrite skipn_app, Nat.sub_diag, skipn_all, skipn_0. cbn [app].
  rewrite run_Cat, run_rep_cls by exact I.
  cbn [rest min_opt]. cbv zeta. cbn [Nat.leb].
  pose proof (@run_length_ge is_space ws (ds ++ sfx ++ post) Uw) as G2.
  apply first_down_some with (j := length ws); [lia|].
  unfold set_cap, skip_chars. cbn [pos prev rest caps].
  rewrite firstn_app, Nat.sub_diag, firstn_all, firstn_0, app_nil_r.
  rewrite skipn_app, Nat.sub_diag, skipn_all, skipn_0. cbn [app].
  rewrite run_Cat, run_Grp, run_Cat, run_rep_cls by (simpl; lia).
  cbn [rest min_opt pos]. cbv zeta.
  pose proof (@run_length_ge is_digit ds (sfx ++ post) Ud) as G3.
  replace (2 <=? Nat.min 3 (run_length is_digit (ds ++ sfx ++ post)))
    with true by (symmetry; apply Nat.leb_le; lia).
  apply first_down_some with (j := length ds); [lia|].
  unfold set_cap, skip_chars. cbn [pos prev rest caps].
  rewrite firstn_app, Nat.sub_diag, firstn_all, firstn_0, app_nil_r.
  rewrite skipn_app, Nat.sub_diag, skipn_all, skipn_0. cbn [app].
  rewrite run_rep_cls by (simpl; lia).
  cbn [rest min_opt pos]. cbv zeta. cbn [Nat.leb].
  pose proof (@run_length_ge is_upper sfx post Usfx) as G4.
  apply first_down_some with (j := length sfx); [lia|].
  unfold set_cap, skip_chars. cbn [pos prev rest caps].
  rewrite firstn_app, Nat.sub_diag, firstn_all, firstn_0, app_nil_r.
  rewrite skipn_app, Nat.sub_diag, skipn_all, skipn_0. cbn [app].
  rewrite run_Bnd. cbn [prev rest].
  assert (B4 : at_boundary
                 (last_of sfx (last_of ds (last_of ws (last_of subj p))))
                 post = true).
  { unfold at_boundary. rewrite Hpost.
    assert (Hw1 : Forall (fun c => is_word c = true) ds).
    { eapply Forall_impl; [|exact Ud]. apply digit_is_word. }
    assert (Hw2 : Forall (fun c => is_word c = true) sfx).
    { eapply Forall_impl; [|exact Usfx]. apply upper_is_word. }
    destruct (last_of_word (last_of ds (last_of ws (last_of subj p))) Hw2)
      as [-> | ->]; [|reflexivity].
    rewrite last_of_word_nonempty; [reflexivity | assumption |].
    destruct ds; [simpl in Ld; lia | discriminate]. }
  rewrite B4. discriminate.
Qed.

Lemma slice_app (pre w post : str) :
  slice (pre ++ w ++ post) (length pre) (length pre + length w) = w.
Proof.
  unfold slice. rewrite skipn_app, Nat.sub_diag, skipn_all. simpl.
  replace (length pre + length w - length pre) with (length w) by lia.
  rewrite firstn_app, Nat.sub_diag, firstn_all. simpl. apply app_nil_r.
Qed.

(** What the scanner returns are tokens of the text, at the offsets it
    reports. *)
Lemma find_course_spans_sound (t : str) (x : span) :
  In x (find_course_spans t) ->
  token_at t (span_start x) (span_course x).
Proof.
  unfold find_course_spans. intros H. apply in_map_iff in H.
  destruct H as [m [<- Hm]]. apply finditer_sound in Hm.
  destruct Hm as [pre [post0 [-> Hm]]].
  apply course_match_sound in Hm.
  destruct Hm as [subj [ws [num [post [-> [Hsubj [Hws [Hnum [Hp [Hq ->]]]]]]]]]].
  unfold span_start, span_course, group. cbn [fst snd m_start m_caps find].
  change (2 =? 1) with false. change (1 =? 1) with true. cbv iota.
  exists pre, subj, ws, num, post.
  split; [reflexivity|]. split; [reflexivity|].
  split; [assumption|]. split; [assumption|]. split; [assumption|].
  split; [|split; assumption].
  f_equal.
  - apply slice_app.
  - f_equal.
    replace (pre ++ subj ++ ws ++ num ++ post)
      with ((pre ++ subj ++ ws) ++ num ++ post)
      by (now rewrite <- !app_assoc).
    replace (length pre + length subj + length ws)
      with (length (pre ++ subj ++ ws))
      by (rewrite !length_app; lia).
    apply slice_app.
Qed.

Lemma token_at_from (t : str) (i : nat) (ref : str) :
  token_at t i ref -> token_from None t ref.
Proof.
  intros [pre [subj [ws [num [post [H [_ H']]]]]]].
  now exists pre, subj, ws, num, post.
Qed.

Lemma token_from_at (t ref : str) :
  token_from None t ref -> exists i, token_at t i ref.
Proof.
  intros [pre [subj [ws [num [post [H H']]]]]].
  exists (length pre), pre, subj, ws, num, post. tauto.
Qed.

(** A text with a token has a match of the scanner. *)
Lemma find_course_spans_nonempty (t ref : str) :
  token_from None t ref -> find_course_spans t <> [].
Proof.
  intros [pre [subj [ws [num [post [-> [Hs [Hw [Hn [_ [Hp Hq]]]]]]]]]]].
  unfold find_course_spans. intros H. apply map_eq_nil in H. revert H.
  apply finditer_nonempty. apply found_spec.
  exists pre, (subj ++ ws ++ num ++ post). split; [reflexivity|].
  now apply course_match_complete.
Qed.

(** ** Tokens and their context *)

Lemma token_from_context (p q : option ascii) (s ref : str) :
  word_before p = word_before q -> token_from p s ref -> token_from q s ref.
Proof.
  intros Hpq [pre [subj [ws [num [post [Hs [H1 [H2 [H3 [H4 [H5 H6]]]]]]]]]]].
  exists pre, subj, ws, num, post. repeat (split; [assumption|]).
  split; [|assumption]. destruct pre; simpl in *; congruence.
Qed.

Lemma token_from_cons (p : option ascii) (x : ascii) (s ref : str) :
  token_from (Some x) s ref -> token_from p (x :: s) ref.
Proof.
  intros [pre [subj [ws [num [post [Hs [H1 [H2 [H3 [H4 [H5 H6]]]]]]]]]]].
  exists (x :: pre), subj, ws, num, post. rewrite Hs.
  split; [reflexivity|]. repeat (split; [assumption|]). assumption.
Qed.

Lemma word_after_app (a b : str) :
  word_after a = false -> word_after b = false -> word_after (a ++ b) = false.
Proof. destruct a; simpl; auto. Qed.

(** A token of a part of a text is a token of the text, when what
    comes after the part does not start with a word character. *)
Lemma token_from_embed (p : option ascii) (pre s post ref : str) :
  token_from (last_of pre p) s ref ->
  word_after post = false ->
  token_from p (pre ++ s ++ post) ref.
Proof.
  intros [a [subj [ws [num [b [Hs [H1 [H2 [H3 [H4 [H5 H6]]]]]]]]]]] Hpost.
  exists (pre ++ a), subj, ws, num, (b ++ post). rewrite Hs.
  split; [now rewrite <- !app_assoc|]. repeat (split; [assumption|]).
  split; [now rewrite last_of_app | now apply word_after_app].
Qed.

Lemma token_nonempty (p : option ascii) (ref : str) : ~ token_from p [] ref.
Proof.
  intros [pre [subj [ws [num [post [Hs [[H1 _] _]]]]]]].
  destruct pre; [|discriminate]. destruct subj; [simpl in H1; lia|].
  discriminate.
Qed.

(** ** Pieces of a split *)

Section Pieces.
Variable P : ascii -> bool.

Lemma split_on_nonempty (b : bool) (s : str) : split_on P b s <> [].
Proof.
  revert b. induction s as [|x t IH]; intros b; simpl; [discriminate|].
  destruct (P x).
  - destruct b; [apply IH | discriminate].
  - specialize (IH false). destruct (split_on P false t);
      [congruence | discriminate].
Qed.

(** The first piece is what follows the separators at the front, up to
    the next separator; every other piece comes after a separator and
    stops at one or at the end. *)
Lemma split_on_pieces (s : str) :
  forall (b : bool) (h : str) (tl : list str),
    split_on P b s = h :: tl ->
    (exists pre post,
        s = pre ++ h ++ post /\
        Forall (fun c => P c = true) pre /\
        (b = false -> pre = []) /\
        sep_start P post) /\
    (forall piece, In piece tl ->
       exists pre x post,
         s = pre ++ [x] ++ piece ++ post /\
         P x = true /\ sep_start P post).
Proof.
  induction s as [|x t IH]; intros b h tl H; simpl in H.
  - injection H as <- <-. split; [|intros piece []].
    exists [], []. repeat split; auto. now left.
  - destruct (P x) eqn:E.
    + destruct b.
      * destruct (IH true h tl H) as [[pre [post [-> [Hp [_ Hq]]]]] Htl].
        split.
        -- exists (x :: pre), post. repeat split; auto. discriminate.
        -- intros piece Hpc.
           destruct (Htl piece Hpc) as [pre' [y [post' [Hs [Hy Hq']]]]].
           exists (x :: pre'), y, post'. rewrite Hs. now repeat split.
      * injection H as <- <-. split.
        -- exists [], (x :: t). repeat split; auto.
           right. now exists x, t.
        -- intros piece Hpc.
           destruct (split_on P true t) as [|h' tl'] eqn:Ht;
             [contradiction|].
           destruct (IH true h' tl' Ht)
             as [[pre [post [Hs [Hp [_ Hq]]]]] Htl].
           destruct Hpc as [<- | Hpc].
           ++ destruct (@exists_last _ (x :: pre)) as [l' [a Hl]];
                [discriminate|].
              exists l', a, post. rewrite Hs.
              change (x :: pre ++ h' ++ post)
                with ((x :: pre) ++ h' ++ post).
              rewrite Hl, <- app_assoc. repeat split; auto.
              assert (Hall : Forall (fun c => P c = true) (x :: pre))
                by now constructor.
              rewrite Hl in Hall. apply Forall_app in Hall.
              destruct Hall as [_ Hall]. now inversion Hall.
           ++ destruct (Htl piece Hpc) as [pre' [y [post' [Hs' [Hy Hq']]]]].
              exists (x :: pre'), y, post'. rewrite Hs'. now repeat split.
    + destruct (split_on P false t) as [|h0 tl0] eqn:Ht;
        [now apply split_on_nonempty in Ht|].
      simpl in H. injection H as <- <-.
      destruct (IH false h0 tl0 Ht)
        as [[pre [post [Hs [Hp [Hb Hq]]]]] Htl].
      rewrite (Hb eq_refl) in Hs. simpl in Hs. split.
      * exists [], post. rewrite Hs. repeat split; auto.
      * intros piece Hpc.
        destruct (Htl piece Hpc) as [pre' [y [post' [Hs' [Hy Hq']]]]].
        exists (x :: pre'), y, post'. rewrite Hs'. now repeat split.
Qed.

Hypothesis P_not_word : forall c, P c = true -> is_word c = false.

Lemma sep_start_not_word (s : str) : sep_start P s -> word_after s = false.
Proof.
  intros [-> | [x [s' [-> Hx]]]]; [reflexivity|]. simpl. now apply P_not_word.
Qed.

Lemma last_of_seps (pre : str) (d : option ascii) :
  Forall (fun c => P c = true) pre ->
  word_before d = false ->
  word_before (last_of pre d) = false.
Proof.
  intros H. revert d. induction H as [|x pre Hx _ IH]; intros d Hd;
    [exact Hd|].
  simpl. apply IH. simpl. now apply P_not_word.
Qed.

(** A token of a piece is a token of the text that was split. *)
Lemma token_of_piece (s piece ref : str) (b : bool) :
  In piece (split_on P b s) ->
  token_from None piece ref ->
  token_from None s ref.
Proof.
  intros Hin Ht. destruct (split_on P b s) as [|h tl] eqn:E; [contradiction|].
  destruct (split_on_pieces s b E) as [[pre [post [Hs [Hp [_ Hq]]]]] Htl].
  destruct Hin as [<- | Hin].
  - rewrite Hs. apply token_from_embed; [|now apply sep_start_not_word].
    eapply token_from_context; [|exact Ht].
    symmetry. now apply last_of_seps.
  - destruct (Htl piece Hin) as [pre' [x [post' [Hs' [Hx Hq']]]]].
    rewrite Hs', app_assoc.
    apply token_from_embed; [|now apply sep_start_not_word].
    eapply token_from_context; [|exact Ht].
    rewrite last_of_snoc. simpl. symmetry. now apply P_not_word.
Qed.

Hypothesis P_not_space : forall c, P c = true -> is_space c = false.

Lemma split_on_nonsep_prefix (tok post h : str) (tl : list str) :
  Forall (fun c => P c = false) tok ->
  split_on P false post = h :: tl ->
  forall b, tok <> [] \/ b = false ->
            split_on P b (tok ++ post) = (tok ++ h) :: tl.
Proof.
  intros Ht Hp. induction Ht as [|y tok Hy _ IH]; intros b Hb.
  - destruct Hb as [Hb | ->]; [congruence | exact Hp].
  - simpl. rewrite Hy, (IH false) by now right. reflexivity.
Qed.

Lemma token_chars_not_sep (subj ws num : str) :
  is_subject subj ->
  Forall (fun c => is_space c = true) ws ->
  is_number num ->
  Forall (fun c => P c = false) (subj ++ ws ++ num).
Proof.
  intros [_ Hs] Hw [ds [sfx [-> [_ [Hd Hsfx]]]]].
  assert (Hn : forall c, is_word c = true -> P c = false).
  { intros c Hc. destruct (P c) eqn:E; [|reflexivity].
    apply P_not_word in E. congruence. }
  repeat (apply Forall_app; split).
  - eapply Forall_impl; [|exact Hs]. intros c Hc. apply Hn.
    now apply upper_is_word.
  - eapply Forall_impl; [|exact Hw]. intros c Hc.
    destruct (P c) eqn:E; [|reflexivity]. apply P_not_space in E. congruence.
  - eapply Forall_impl; [|exact Hd]. intros c Hc. apply Hn.
    now apply digit_is_word.
  - destruct Hsfx as [-> | [u [-> Hu]]]; constructor; [|constructor].
    apply Hn. now apply upper_is_word.
Qed.

(** A token of a text lies in one of the pieces the text splits into. *)
Lemma token_in_piece (ref : str) (s : str) :
  forall (b : bool) (acc : str) (p : option ascii),
    token_from p s ref ->
    word_before p = word_before (last_of acc None) ->
    (b = true -> acc = []) ->
    exists h tl,
      split_on P b s = h :: tl /\
      (token_from None (acc ++ h) ref \/
       exists piece, In piece tl /\ token_from None piece ref).
Proof.
  induction s as [|x t IH]; intros b acc p Htok Hctx Hb.
  - now apply token_nonempty in Htok.
  - destruct Htok as [pre [subj [ws [num [post [Hs [H1 [H2 [H3 [H4 [H5 H6]]]]]]]]]]].
    destruct pre as [|y pre'].
    + simpl in Hs, H5.
      destruct (split_on P false post) as [|h tl] eqn:Ep;
        [now apply split_on_nonempty in Ep|].
      exists ((subj ++ ws ++ num) ++ h), tl. split.
      * rewrite Hs.
        replace (subj ++ ws ++ num ++ post)
          with ((subj ++ ws ++ num) ++ post)
          by (now rewrite <- !app_assoc).
        apply split_on_nonsep_prefix; [|assumption|].
        -- now apply token_chars_not_sep.
        -- left. destruct H1 as [H1 _]. destruct subj; [simpl in H1; lia|].
           discriminate.
      * left. exists acc, subj, ws, num, h.
        split; [now rewrite <- !app_assoc|]. repeat (split; [assumption|]).
        split; [congruence|].
        destruct (split_on_pieces post false Ep)
          as [[pre0 [post0 [Hp0 [_ [Hb0 _]]]]] _].
        rewrite (Hb0 eq_refl) in Hp0. simpl in Hp0.
        destruct h; [reflexivity|]. rewrite Hp0 in H6. exact H6.
    + simpl in Hs. injection Hs as <- Ht.
      assert (Htok : token_from (Some x) t ref).
      { exists pre', subj, ws, num, post. repeat (split; [assumption|]).
        assumption. }
      destruct (P x) eqn:E.
      * destruct (IH true [] (Some x) Htok) as [h [tl [Hsp Hor]]].
        -- simpl. now apply P_not_word.
        -- reflexivity.
        -- destruct b.
           ++ exists h, tl. simpl. rewrite E, (Hb eq_refl). now split.
           ++ exists [], (h :: tl). simpl. rewrite E, Hsp.
              split; [reflexivity|]. right.
              destruct Hor as [Hh | [piece [Hin Hp]]].
              ** exists h. split; [now left | exact Hh].
              ** exists piece. split; [now right | exact Hp].
      * destruct (IH false (acc ++ [x]) (Some x) Htok) as [h [tl [Hsp Hor]]].
        -- now rewrite last_of_snoc.
        -- discriminate.
        -- exists (x :: h), tl. simpl. rewrite E, Hsp.
           split; [reflexivity|].
           destruct Hor as [Hh | Hr]; [left | now right].
           now rewrite <- app_assoc in Hh.
Qed.

Lemma token_in_some_piece (ref s : str) :
  token_from None s ref ->
  exists piece, In piece (split_on P false s) /\ token_from None piece ref.
Proof.
  intros H.
  destruct (@token_in_piece ref s false [] None H) as [h [tl [Hsp Hor]]];
    [reflexivity | discriminate |].
  rewrite Hsp. destruct Hor as [Hh | [piece [Hin Hp]]].
  - exists h. split; [now left | exact Hh].
  - exists piece. split; [now right | exact Hp].
Qed.

End Pieces.

(** ** Tokens and whitespace *)

Lemma rstrip_prefix (s : str) :
  exists ws, s = rstrip s ++ ws /\ Forall (fun c => is_space c = true) ws.
Proof.
  induction s as [|c s IH]; simpl.
  - exists []. now split.
  - destruct IH as [ws [Hs Hws]]. destruct (rstrip s) as [|r0 r] eqn:E.
    + simpl in Hs. subst s. destruct (is_space c) eqn:Ec.
      * exists (c :: ws). split; [reflexivity | now constructor].
      * exists ws. now split.
    + exists ws. split; [|assumption]. simpl. f_equal. exact Hs.
Qed.

Lemma spaces_not_word (ws : str) :
  Forall (fun c => is_space c = true) ws -> word_after ws = false.
Proof. intros [|x l Hx _]; [reflexivity|]. simpl. now apply space_not_word. Qed.

Lemma token_of_rstrip (p : option ascii) (s ref : str) :
  token_from p (rstrip s) ref -> token_from p s ref.
Proof.
  intros H. destruct (rstrip_prefix s) as [ws [Hs Hws]].
  rewrite Hs. apply (@token_from_embed p [] (rstrip s) ws ref); [exact H|].
  now apply spaces_not_word.
Qed.

Lemma number_last (num : str) :
  is_number num -> exists num' y, num = num' ++ [y] /\ is_space y = false.
Proof.
  intros [ds [sfx [-> [Ld [Hd [-> | [u [-> Hu]]]]]]]].
  - destruct (@exists_last _ ds) as [ds' [d Hds]].
    + intros ->. simpl in Ld. lia.
    + exists ds', d. rewrite app_nil_r. split; [assumption|].
      rewrite Hds in Hd. apply Forall_app in Hd. destruct Hd as [_ Hd].
      inversion Hd. now apply digit_not_space.
  - exists ds, u. split; [reflexivity | now apply upper_not_space].
Qed.

Lemma token_rstrip (p : option ascii) (s ref : str) :
  token_from p s ref -> token_from p (rstrip s) ref.
Proof.
  intros [pre [subj [ws [num [post [Hs [H1 [H2 [H3 [H4 [H5 H6]]]]]]]]]]].
  destruct (number_last H3) as [num' [y [Hn Hy]]].
  assert (E : s = (pre ++ subj ++ ws ++ num') ++ y :: post).
  { rewrite Hs, Hn. now rewrite <- !app_assoc. }
  rewrite E, rstrip_app_nonspace by assumption.
  exists pre, subj, ws, num, (rstrip post).
  split; [rewrite Hn; now rewrite <- !app_assoc|].
  repeat (split; [assumption|]). now apply word_after_rstrip.
Qed.

Lemma squeeze_nonspace_cons (b : bool) (x : ascii) (t : str) :
  is_space x = false -> squeeze b (x :: t) = x :: squeeze false t.
Proof. intros H. simpl. now rewrite H. Qed.

Lemma squeeze_nonspace_app (w r : str) :
  Forall (fun c => is_space c = false) w ->
  forall b, w <> [] \/ b = false -> squeeze b (w ++ r) = w ++ squeeze false r.
Proof.
  induction 1 as [|y w Hy _ IH]; intros b Hb.
  - destruct Hb as [Hb | ->]; [congruence | reflexivity].
  - simpl. rewrite Hy, (IH false) by now right. reflexivity.
Qed.

Lemma squeeze_spaces_app (ws : str) (d : ascii) (r : str) :
  Forall (fun c => is_space c = true) ws ->
  is_space d = false ->
  squeeze true (ws ++ d :: r) = d :: squeeze false r.
Proof.
  intros H Hd. induction H as [|y ws Hy _ IH]; simpl.
  - now rewrite Hd.
  - now rewrite Hy.
Qed.

Lemma word_after_squeeze (t : str) :
  word_after (squeeze false t) = word_after t.
Proof.
  destruct t as [|c t]; [reflexivity|]. simpl.
  destruct (is_space c) eqn:E; [|reflexivity].
  simpl. symmetry. now apply space_not_word.
Qed.

Lemma squeeze_inv_nonspace (w : str) :
  Forall (fun c => is_space c = false) w ->
  forall t r,
    squeeze false t = w ++ r ->
    exists t', t = w ++ t' /\ squeeze false t' = r.
Proof.
  induction 1 as [|y w Hy _ IH]; intros t r H.
  - now exists t.
  - destruct t as [|z t]; [discriminate|]. simpl in H.
    destruct (is_space z) eqn:Ez.
    + injection H as <- _. discriminate.
    + injection H as -> H. destruct (IH t r H) as [t' [-> Ht']].
      now exists t'.
Qed.

Lemma squeeze_true_inv (d : ascii) (r : str) :
  is_space d = false ->
  forall t,
    squeeze true t = d :: r ->
    exists ws t',
      t = ws ++ t' /\ Forall (fun c => is_space c = true) ws /\
      squeeze false t' = d :: r.
Proof.
  intros Hd. induction t as [|c t IH]; intros H; [discriminate|].
  simpl in H. destruct (is_space c) eqn:Ec.
  - destruct (IH H) as [ws [t' [-> [Hws Ht']]]].
    exists (c :: ws), t'. repeat split; [now constructor | assumption].
  - exists [], (c :: t). repeat split; [constructor|].
    simpl. now rewrite Ec.
Qed.

Lemma squeeze_inv_spaces (ws : str) (d : ascii) (r : str) :
  Forall (fun c => is_space c = true) ws ->
  is_space d = false ->
  forall t,
    squeeze false t = ws ++ d :: r ->
    exists ws' t',
      t = ws' ++ t' /\ Forall (fun c => is_space c = true) ws' /\
      squeeze false t' = d :: r.
Proof.
  intros Hws Hd t H. destruct Hws as [|y ws1 Hy Hws1].
  - exists [], t. now repeat split.
  - destruct t as [|z t0]; [discriminate|]. simpl in H.
    destruct (is_space z) eqn:Ez.
    + injection H as _ H.
      pose proof (squeeze_true_head t0) as Hh. rewrite H in Hh.
      destruct Hws1 as [|y1 ws2 Hy1 _]; [|simpl in Hh; congruence].
      simpl in H. destruct (@squeeze_true_inv d r Hd t0 H) as [ws [t' [-> [Hw Ht']]]].
      exists (z :: ws), t'. repeat split; [now constructor | assumption].
    + injection H as -> _. congruence.
Qed.

Lemma subject_nonspace (subj : str) :
  is_subject subj -> Forall (fun c => is_space c = false) subj /\ subj <> [].
Proof.
  intros [L U]. split.
  - eapply Forall_impl; [|exact U]. apply upper_not_space.
  - intros ->. simpl in L. lia.
Qed.

Lemma number_nonspace (num : str) :
  is_number num ->
  Forall (fun c => is_space c = false) num /\
  exists d r, num = d :: r /\ is_space d = false.
Proof.
  intros [ds [sfx [-> [L [Hd Hsfx]]]]].
  assert (Hds : Forall (fun c => is_space c = false) ds).
  { eapply Forall_impl; [|exact Hd]. apply digit_not_space. }
  split.
  - apply Forall_app. split; [assumption|].
    destruct Hsfx as [-> | [u [-> Hu]]]; constructor; [|constructor].
    now apply upper_not_space.
  - destruct ds as [|d ds']; [simpl in L; lia|].
    exists d, (ds' ++ sfx). split; [reflexivity|]. now inversion Hds.
Qed.

(** A token at the front of a squeezed text is at the front of the text
    itself, with the whitespace it had there. *)
Lemma token_head_of_squeezed (t subj ws num post : str) :
  squeeze false t = subj ++ ws ++ num ++ post ->
  is_subject subj ->
  Forall (fun c => is_space c = true) ws ->
  is_number num ->
  word_after post = false ->
  exists ws' post',
    t = subj ++ ws' ++ num ++ post' /\
    Forall (fun c => is_space c = true) ws' /\
    word_after post' = false.
Proof.
  intros H Hs Hw Hn Hp.
  destruct (subject_nonspace Hs) as [Us _].
  destruct (number_nonspace Hn) as [Un [d [r [En Hd]]]].
  destruct (squeeze_inv_nonspace Us _ _ H) as [t1 [-> H1]].
  rewrite En in H1. simpl in H1.
  destruct (@squeeze_inv_spaces ws d (r ++ post) Hw Hd t1 H1)
    as [ws' [t2 [-> [Hw' H2]]]].
  change (d :: r ++ post) with ((d :: r) ++ post) in H2. rewrite <- En in H2.
  destruct (squeeze_inv_nonspace Un _ _ H2) as [t3 [-> H3]].
  exists ws', t3. repeat split; [assumption|].
  now rewrite <- word_after_squeeze, H3.
Qed.

Lemma token_of_squeezed (ref : str) (s : str) :
  forall (b : bool) (p q : option ascii),
    token_from q (squeeze b s) ref ->
    word_before p = word_before q ->
    (b = true -> word_before p = false) ->
    token_from p s ref.
Proof.
  induction s as [|x t IH]; intros b p q Htok Hctx Hb.
  - now apply token_nonempty in Htok.
  - simpl in Htok. destruct (is_space x) eqn:Ex.
    + apply token_from_cons. destruct b.
      * apply (IH true (Some x) q Htok); [|intros _];
          simpl; rewrite (space_not_word _ Ex); [|reflexivity].
        rewrite <- Hctx. symmetry. now apply Hb.
      * destruct Htok
          as [pre [subj [ws [num [post [Hs [H1 [H2 [H3 [H4 [H5 H6]]]]]]]]]]].
        destruct pre as [|y pre'].
        -- exfalso. destruct (subject_nonspace H1) as [Us Hne].
           destruct subj as [|u subj']; [congruence|].
           simpl in Hs. injection Hs as <- _. inversion Us. discriminate.
        -- simpl in Hs. injection Hs as <- Hs.
           apply (IH true (Some x) (Some " "%char)).
           ++ exists pre', subj, ws, num, post.
              repeat (split; [assumption|]). assumption.
           ++ simpl. now rewrite (space_not_word _ Ex).
           ++ intros _. simpl. now apply space_not_word.
    + destruct Htok
        as [pre [subj [ws [num [post [Hs [H1 [H2 [H3 [H4 [H5 H6]]]]]]]]]]].
      destruct pre as [|y pre'].
      * simpl in Hs, H5.
        assert (Hsq : squeeze false (x :: t) = subj ++ ws ++ num ++ post).
        { simpl. now rewrite Ex. }
        destruct (@token_head_of_squeezed (x :: t) subj ws num post Hsq H1 H2 H3 H6)
          as [ws' [post' [Ht [Hw' Hp']]]].
        exists [], subj, ws', num, post'.
        split; [exact Ht|]. repeat (split; [assumption|]).
        split; [simpl; congruence | assumption].
      * simpl in Hs. injection Hs as <- Hs. apply token_from_cons.
        apply (IH false (Some x) (Some x)); [|reflexivity | discriminate].
        exists pre', subj, ws, num, post.
        repeat (split; [assumption|]). assumption.
Qed.

(** A token of the normalised text is a token of the text. *)
Lemma token_of_normalized (s ref : str) :
  token_from None (normalize_space s) ref -> token_from None s ref.
Proof.
  rewrite normalize_space_squeeze. intros H. apply token_of_rstrip in H.
  now apply (@token_of_squeezed ref s true None None H).
Qed.

Lemma squeeze_token_head (b : bool) (subj ws num post : str) :
  is_subject subj ->
  Forall (fun c => is_space c = true) ws ->
  is_number num ->
  exists ws',
    squeeze b (subj ++ ws ++ num ++ post)
    = subj ++ ws' ++ num ++ squeeze false post /\
    Forall (fun c => is_space c = true) ws'.
Proof.
  intros Hs Hw Hn.
  destruct (subject_nonspace Hs) as [Us Hne].
  destruct (number_nonspace Hn) as [Un [d [r [En Hd]]]].
  rewrite (squeeze_nonspace_app _ Us) by now left.
  destruct Hw as [|y ws1 Hy Hw1].
  - exists []. simpl. split; [|constructor].
    rewrite (squeeze_nonspace_app _ Un); [reflexivity|]. now right.
  - exists [" "%char]. split; [|now repeat constructor].
    simpl. rewrite Hy. rewrite En at 1. simpl.
    rewrite squeeze_spaces_app by assumption.
    rewrite En in Un. inversion Un as [|? ? _ Ur].
    rewrite (squeeze_nonspace_app _ Ur) by now right.
    now rewrite En.
Qed.

Lemma token_squeezed (ref : str) (s : str) :
  forall (b : bool) (p q : option ascii),
    token_from p s ref ->
    word_before p = word_before q ->
    (b = true -> word_before p = false) ->
    token_from q (squeeze b s) ref.
Proof.
  induction s as [|x t IH]; intros b p q Htok Hctx Hb.
  - now apply token_nonempty in Htok.
  - destruct Htok
      as [pre [subj [ws [num [post [Hs [H1 [H2 [H3 [H4 [H5 H6]]]]]]]]]]].
    destruct pre as [|y pre'].
    + simpl in Hs, H5. rewrite Hs.
      destruct (@squeeze_token_head b subj ws num post H1 H2 H3)
        as [ws' [-> Hw']].
      exists [], subj, ws', num, (squeeze false post).
      split; [reflexivity|]. repeat (split; [assumption|]).
      split; [simpl; congruence | now rewrite word_after_squeeze].
    + simpl in Hs. injection Hs as <- Hs.
      assert (Htok : token_from (Some x) t ref).
      { exists pre', subj, ws, num, post.
        repeat (split; [assumption|]). assumption. }
      simpl. destruct (is_space x) eqn:Ex.
      * destruct b.
        -- apply (IH true (Some x) q Htok); [|intros _];
             simpl; rewrite (space_not_word _ Ex); [|reflexivity].
           rewrite <- Hctx. symmetry. now apply Hb.
        -- apply token_from_cons.
           apply (IH true (Some x) (Some " "%char) Htok).
           ++ simpl. now rewrite (space_not_word _ Ex).
           ++ intros _. simpl. now apply space_not_word.
      * apply token_from_cons.
        apply (IH false (Some x) (Some x) Htok); [reflexivity | discriminate].
Qed.

(** A token of the text is a token of the normalised text. *)
Lemma token_normalized (s ref : str) :
  token_from None s ref -> token_from None (normalize_space s) ref.
Proof.
  rewrite normalize_space_squeeze. intros H. apply token_rstrip.
  now apply (@token_squeezed ref s true None None H).
Qed.

(** ** Where the leaves come from *)

Lemma course_refs_courses (l : list str) :
  flat_map course_refs (map COURSE l) = l.
Proof. induction l as [|x l IH]; simpl; [reflexivity | now rewrite IH]. Qed.

Lemma course_refs_leaves (courses : list span) :
  flat_map course_refs (leaves_of courses) = map span_course courses.
Proof.
  induction courses as [|x l IH]; simpl; [reflexivity | now rewrite IH].
Qed.

Lemma course_refs_and_or_single (l : list node) :
  course_refs (and_or_single l) = flat_map course_refs l.
Proof.
  destruct l as [|x [|y l]]; try reflexivity. simpl. now rewrite app_nil_r.
Qed.

Lemma scanned_leaves (src ref : str) :
  In ref (flat_map course_refs (leaves_of (find_course_spans src))) ->
  scanned src ref.
Proof.
  rewrite course_refs_leaves. intros H. apply in_map_iff in H.
  destruct H as [x [Hx Hin]]. now exists x.
Qed.

Lemma segment_group_refs (seg ref : str) (g : node) :
  segment_group seg = Some g -> In ref (course_refs g) -> scanned seg ref.
Proof.
  unfold segment_group.
  destruct (find_course_spans seg) as [|c cs] eqn:E; [discriminate|].
  rewrite <- E.
  destruct (found AND_RE (lower seg) && negb (found OR_RE (lower seg)));
    [|destruct (found OR_RE (lower seg) && negb (found AND_RE (lower seg)))];
    intros H; injection H as <-; apply scanned_leaves.
Qed.

Lemma collect_subitems_refs (ref : str) (segments : list str) :
  forall acc : list node,
    In ref (flat_map course_refs (collect_subitems segments acc)) ->
    In ref (flat_map course_refs acc) \/
    exists seg, In seg segments /\ scanned seg ref.
Proof.
  induction segments as [|seg l IH]; intros acc H; simpl in H; [now left|].
  destruct (segment_group seg) as [g|] eqn:E.
  - apply IH in H. destruct H as [H | [s [Hs Hsc]]].
    + rewrite flat_map_app in H. apply in_app_or in H.
      destruct H as [H | H]; [now left|]. right. exists seg.
      split; [now left|]. simpl in H. rewrite app_nil_r in H.
      eapply segment_group_refs; eassumption.
    + right. exists s. split; [now right | assumption].
  - apply IH in H. destruct H as [H | [s [Hs Hsc]]]; [now left|].
    right. exists s. split; [now right | assumption].
Qed.

Lemma parse_mixed_refs (cc ref : str) :
  In ref (course_refs (parse_mixed cc (find_course_spans cc))) ->
  scanned cc ref \/ exists seg, In seg (comma_segments cc) /\ scanned seg ref.
Proof.
  unfold parse_mixed.
  set (items := match collect_subitems (comma_segments cc) [] with
                | [] => leaves_of (find_course_spans cc)
                | _ :: _ => collect_subitems (comma_segments cc) []
                end).
  assert (H : In ref (flat_map course_refs items) ->
              scanned cc ref \/
              exists seg, In seg (comma_segments cc) /\ scanned seg ref).
  { unfold items.
    destruct (collect_subitems (comma_segments cc) []) as [|g gs] eqn:E.
    - intros H. left. now apply scanned_leaves.
    - rewrite <- E. intros H. apply collect_subitems_refs in H.
      destruct H as [[] | H]. now right. }
  destruct (negb (count_op is_and items =? 0) && (count_op is_or items =? 0));
    [|destruct (negb (count_op is_or items =? 0)
                && (count_op is_and items =? 0))];
    exact H.
Qed.

Lemma parse_by_connectors_refs (cc ref : str) :
  In ref (course_refs (parse_by_connectors cc (find_course_spans cc))) ->
  scanned cc ref \/ exists seg, In seg (comma_segments cc) /\ scanned seg ref.
Proof.
  unfold parse_by_connectors.
  destruct (has K_AND (connectors_of cc (find_course_spans cc))),
    (has K_OR (connectors_of cc (find_course_spans cc))),
    (has K_LIST (connectors_of cc (find_course_spans cc))); simpl;
    try apply parse_mixed_refs;
    try (intros H; left; now apply scanned_leaves).
  all: rewrite course_refs_and_or_single; intros H; left;
    now apply scanned_leaves.
Qed.

Lemma parse_clause_refs (clause ref : str) :
  let cc := normalize_space clause in
  In ref (course_refs (parse_clause_into_group clause)) ->
  scanned cc ref \/ exists seg, In seg (comma_segments cc) /\ scanned seg ref.
Proof.
  intros cc. unfold parse_clause_into_group. fold cc.
  destruct (find_course_spans cc) as [|c0 cs0] eqn:Hc; [intros []|].
  rewrite <- Hc.
  destruct (search ONE_OF_RE cc) as [m|];
    [|now apply parse_by_connectors_refs].
  destruct (map span_course
              (filter (fun x => m_end m <=? span_start x)
                      (find_course_spans cc))) as [|y ys] eqn:E;
    [now apply parse_by_connectors_refs|].
  rewrite <- E, course_refs_and_or_single, flat_map_app.
  simpl. rewrite app_nil_r, !course_refs_courses. intros H. left.
  apply in_app_or in H.
  destruct H as [H | H]; apply in_map_iff in H; destruct H as [x [Hx Hin]];
    apply filter_In in Hin; destruct Hin as [Hin _]; now exists x.
Qed.

Lemma fold_refs (groups : list node) (ref : str) :
  In ref (course_refs (fold groups)) ->
  exists g, In g groups /\ In ref (course_refs g).
Proof.
  destruct groups as [|g [|h l]]; simpl.
  - intros [].
  - intros H. exists g. split; [now left | assumption].
  - intros H. change (In ref (flat_map course_refs (g :: h :: l))) in H.
    apply in_flat_map in H. exact H.
Qed.

Lemma parse_text_refs (text ref : str) :
  In ref (course_refs (hard (parse_prereq_text text))
          ++ course_refs (coreq_ok (parse_prereq_text text))) ->
  exists clause,
    In clause (clauses_of text) /\
    In ref (course_refs (parse_clause_into_group clause)).
Proof.
  unfold parse_prereq_text, route.
  destruct (clauses_of text) as [|c l] eqn:E; [intros []|].
  rewrite <- E. rewrite route_spec. cbn [fst snd hard coreq_ok].
  rewrite !app_nil_l. intros H.
  apply in_app_or in H.
  destruct H as [H | H]; apply fold_refs in H; destruct H as [g [Hg Hr]];
    apply in_map_iff in Hg; destruct Hg as [cl [<- Hcl]];
    apply filter_In in Hcl; destruct Hcl as [Hcl _]; now exists cl.
Qed.

(** ** From the clauses back to the text *)

Lemma comma_not_word (c : ascii) : Ascii.eqb "," c = true -> is_word c = false.
Proof. intros H. apply Ascii.eqb_eq in H. now subst c. Qed.

Lemma semicolon_not_word (c : ascii) :
  Ascii.eqb ";" c = true -> is_word c = false.
Proof. intros H. apply Ascii.eqb_eq in H. now subst c. Qed.

Lemma comma_not_space (c : ascii) : Ascii.eqb "," c = true -> is_space c = false.
Proof. intros H. apply Ascii.eqb_eq in H. now subst c. Qed.

Lemma token_of_segment (cc seg ref : str) :
  In seg (comma_segments cc) ->
  token_from None seg ref -> token_from None cc ref.
Proof.
  unfold comma_segments. intros H Ht. apply in_map_iff in H.
  destruct H as [piece [<- Hp]]. apply filter_In in Hp.
  destruct Hp as [Hp _]. apply token_of_normalized in Ht.
  unfold COMMAS_RE, chr in Hp. rewrite split_plus_cls in Hp.
  eapply token_of_piece; [exact comma_not_word | exact Hp | exact Ht].
Qed.

Lemma token_of_clause (text clause ref : str) :
  In clause (clauses_of text) ->
  token_from None clause ref -> token_from None text ref.
Proof.
  unfold clauses_of. intros H Ht. apply in_map_iff in H.
  destruct H as [piece [<- Hp]]. apply filter_In in Hp.
  destruct Hp as [Hp _]. apply token_of_normalized in Ht.
  unfold CLAUSE_SPLIT_RE, chr in Hp. rewrite split_plus_cls in Hp.
  eapply token_of_piece; [exact semicolon_not_word | exact Hp | exact Ht].
Qed.

Lemma scanned_token (src ref : str) :
  scanned src ref -> token_from None src ref.
Proof.
  intros [x [Hx <-]]. eapply token_at_from.
  apply find_course_spans_sound. exact Hx.
Qed.

(** C6.  Every course reference at a leaf of the hard or the coreq_ok
    tree of a text is the reference of a token that the scanner returned,
    with its offset, on the normalised form of a clause of the text or on
    one of the comma segments of that clause; it is a token of that
    clause and a token of the raw text: at some offset the text has two
    to four capital letters, any whitespace, two or three digits and at
    most one capital letter, as a whole word, and the reference is the
    letters, one space, and the rest. *)
Theorem no_fabrication :
  forall text ref : str,
    In ref (course_refs (hard (parse_prereq_text text))
            ++ course_refs (coreq_ok (parse_prereq_text text))) ->
    (exists clause src x,
        In clause (clauses_of text) /\
        In ref (course_refs (parse_clause_into_group clause)) /\
        (src = normalize_space clause \/
         In src (comma_segments (normalize_space clause))) /\
        In x (find_course_spans src) /\
        span_course x = ref /\
        token_at src (span_start x) ref /\
        exists j, token_at clause j ref) /\
    exists i, token_at text i ref.
Proof.
  intros text ref H. apply parse_text_refs in H.
  destruct H as [clause [Hcl Href]].
  pose proof (parse_clause_refs clause ref Href) as Hsrc. simpl in Hsrc.
  assert (Hx : exists src x,
             (src = normalize_space clause \/
              In src (comma_segments (normalize_space clause))) /\
             In x (find_course_spans src) /\ span_course x = ref).
  { destruct Hsrc as [[x [Hx Hr]] | [seg [Hseg [x [Hx Hr]]]]].
    - exists (normalize_space clause), x. auto.
    - exists seg, x. auto. }
  destruct Hx as [src [x [Hsrc' [Hx Hr]]]].
  assert (Hcc : token_from None (normalize_space clause) ref).
  { destruct Hsrc' as [-> | Hseg].
    - apply scanned_token. now exists x.
    - eapply token_of_segment; [exact Hseg|].
      apply scanned_token. now exists x. }
  assert (Hclause : token_from None clause ref)
    by now apply token_of_normalized.
  split.
  - exists clause, src, x. repeat (split; [assumption|]). split.
    + rewrite <- Hr. now apply find_course_spans_sound.
    + now apply token_from_at.
  - apply token_from_at. eapply token_of_clause; eassumption.
Qed.

Lemma no_fabrication_witness :
  exists i,
    token_at (lit "CS  225 and MATH 231, or CS 233; concurrent: CS 101") i
             (lit "CS 225").
Proof.
  apply (no_fabrication
           (lit "CS  225 and MATH 231, or CS 233; concurrent: CS 101")
           (lit "CS 225")).
  vm_compute. left. reflexivity.
Defined.

(** ** Clauses with both connectors *)

Lemma collect_subitems_spec (segments : list str) :
  forall acc : list node,
    collect_subitems segments acc = acc ++ segment_groups segments.
Proof.
  induction segments as [|seg l IH]; intros acc; simpl.
  - now rewrite app_nil_r.
  - destruct (segment_group seg) as [g|]; rewrite IH; [|reflexivity].
    now rewrite <- app_assoc.
Qed.

Lemma segment_groups_In (segments : list str) (g : node) :
  In g (segment_groups segments) <->
  exists seg, In seg segments /\ segment_group seg = Some g.
Proof.
  unfold segment_groups. rewrite in_flat_map. split.
  - intros [seg [Hs Hg]]. exists seg. split; [assumption|].
    destruct (segment_group seg) as [g'|]; [|contradiction].
    destruct Hg as [-> | []]. reflexivity.
  - intros [seg [Hs Hg]]. exists seg. split; [assumption|].
    rewrite Hg. now left.
Qed.












(** ** The examples of the specification *)

Example pure_conjunction :
  parse_prereq_text (lit "CS 225 and MATH 231")
  = Parsed (AND [COURSE (lit "CS 225"); COURSE (lit "MATH 231")]) EMPTY.
Proof. vm_compute. reflexivity. Qed.

Example pure_disjunction :
  parse_prereq_text (lit "CS 225 or CS 233")
  = Parsed (OR [COURSE (lit "CS 225"); COURSE (lit "CS 233")]) EMPTY.
Proof. vm_compute. reflexivity. Qed.

Example clauses_fold_to_and :
  parse_prereq_text (lit "CS 225; MATH 231")
  = Parsed (AND [COURSE (lit "CS 225"); COURSE (lit "MATH 231")]) EMPTY.
Proof. vm_compute. reflexivity. Qed.

Example coreq_flag :
  detect_flags (lit "credit or concurrent registration in MATH 231")
  = [lit "COREQ_ALLOWED"].
Proof. vm_compute. reflexivity. Qed.

Example standing_only :
  let c := record_of (lit "Senior standing required") in
  analyze [c]
  = Results [] [] [RemainingEntry None None (lit "Senior standing required")]
  /\ p_hard (build_prerequisites c) = EMPTY
  /\ p_flags (build_prerequisites c) = [lit "STANDING"].
Proof. repeat split; vm_compute; reflexivity. Qed.

(** A token that overlaps the one-of phrase starts before its end and
    is kept as an AND sibling. *)
Example token_inside_phrase :
  parse_clause_into_group (lit "ONE OF 12, CS 225")
  = AND [COURSE (lit "OF 12"); OR [COURSE (lit "CS 225")]].
Proof. vm_compute. reflexivity. Qed.

(** * Further properties *)

(** ** Course tokens and empty trees *)

Lemma semicolon_not_space (c : ascii) :
  Ascii.eqb ";" c = true -> is_space c = false.
Proof. intros H. apply Ascii.eqb_eq in H. now subst c. Qed.

Lemma has_token_iff (t : str) :
  find_course_spans t <> [] <-> exists ref, token_from None t ref.
Proof.
  split.
  - intros H. destruct (find_course_spans t) as [|x l] eqn:E; [congruence|].
    exists (span_course x). eapply token_at_from.
    apply find_course_spans_sound. rewrite E. now left.
  - intros [ref H]. eapply find_course_spans_nonempty. exact H.
Qed.

Lemma and_or_single_not_empty (l : list node) :
  Forall (fun g => is_empty g = false) l ->
  is_empty (and_or_single l) = false.
Proof.
  intros H. destruct l as [|x [|y l]]; try reflexivity. now inversion H.
Qed.

Lemma leaves_not_empty (courses : list span) :
  Forall (fun g => is_empty g = false) (leaves_of courses).
Proof. induction courses; simpl; constructor; auto. Qed.

Lemma parse_mixed_not_empty (cc : str) (courses : list span) :
  is_empty (parse_mixed cc courses) = false.
Proof.
  unfold parse_mixed.
  destruct (collect_subitems (comma_segments cc) []) as [|g gs].
  - destruct (negb (count_op is_and (leaves_of courses) =? 0)
              && (count_op is_or (leaves_of courses) =? 0));
      [|destruct (negb (count_op is_or (leaves_of courses) =? 0)
                  && (count_op is_and (leaves_of courses) =? 0))];
      reflexivity.
  - destruct (negb (count_op is_and (g :: gs) =? 0)
              && (count_op is_or (g :: gs) =? 0));
      [|destruct (negb (count_op is_or (g :: gs) =? 0)
                  && (count_op is_and (g :: gs) =? 0))];
      reflexivity.
Qed.

Lemma parse_by_connectors_not_empty (cc : str) (courses : list span) :
  is_empty (parse_by_connectors cc courses) = false.
Proof.
  unfold parse_by_connectors.
  destruct (has K_AND (connectors_of cc courses)),
    (has K_OR (connectors_of cc courses)),
    (has K_LIST (connectors_of cc courses)); simpl;
    try reflexivity; try apply parse_mixed_not_empty;
    apply and_or_single_not_empty, leaves_not_empty.
Qed.

(** The clause parser returns EMPTY only when the scanner finds no
    token in the normalised clause. *)
Lemma parse_clause_empty (clause : str) :
  is_empty (parse_clause_into_group clause)
  = negb (nonempty (find_course_spans (normalize_space clause))).
Proof.
  unfold parse_clause_into_group. cbv zeta.
  generalize (parse_by_connectors_not_empty (normalize_space clause)
                (find_course_spans (normalize_space clause))).
  destruct (find_course_spans (normalize_space clause)) as [|c0 cs0];
    [reflexivity|].
  intros Hpc. cbn [nonempty negb].
  destruct (search ONE_OF_RE (normalize_space clause)) as [m|];
    [|exact Hpc].
  destruct (map span_course
              (filter (fun x => m_end m <=? span_start x) (c0 :: cs0)))
    as [|y ys]; [exact Hpc|].
  apply and_or_single_not_empty. apply Forall_app. split.
  - apply Forall_forall. intros g Hg. apply in_map_iff in Hg.
    destruct Hg as [r [<- _]]. reflexivity.
  - now repeat constructor.
Qed.

(** X1.  The clause parser returns EMPTY exactly for the clauses without
    a course token: once the clause has two to four capitals, optional
    whitespace, two or three digits and an optional capital as a whole
    word, the result is a COURSE, an AND or an OR. *)
Theorem clause_empty_iff_no_token :
  forall clause : str,
    parse_clause_into_group clause = EMPTY <->
    ~ exists i ref, token_at clause i ref.
Proof.
  intros clause.
  assert (Hiff : parse_clause_into_group clause = EMPTY <->
                 find_course_spans (normalize_space clause) = []).
  { pose proof (parse_clause_empty clause) as H. split; intros E.
    - rewrite E in H. simpl in H.
      destruct (find_course_spans (normalize_space clause));
        [reflexivity | discriminate].
    - rewrite E in H. simpl in H.
      destruct (parse_clause_into_group clause); try discriminate.
      reflexivity. }
  rewrite Hiff. split.
  - intros E [i [ref Ht]]. apply token_at_from, token_normalized in Ht.
    revert E. apply has_token_iff. now exists ref.
  - intros Hno.
    destruct (find_course_spans (normalize_space clause)) as [|x l] eqn:E;
      [reflexivity|].
    exfalso. apply Hno.
    assert (Hne : find_course_spans (normalize_space clause) <> [])
      by (rewrite E; discriminate).
    apply has_token_iff in Hne. destruct Hne as [ref Ht].
    apply token_of_normalized, token_from_at in Ht.
    destruct Ht as [i Ht]. now exists i, ref.
Qed.

Lemma has_course_token_iff (t : str) :
  has_course_token t = true <-> exists ref, token_from None t ref.
Proof.
  unfold has_course_token, COURSE_TOKEN. rewrite found_spec. split.
  - intros [pre [post [-> Hm]]].
    destruct (match_here COURSE_RE (length pre) (last_of pre None) post)
      as [m|] eqn:E; [|congruence].
    apply course_match_sound in E.
    destruct E as [subj [ws [num [post' [-> [H1 [H2 [H3 [H4 [H5 _]]]]]]]]]].
    exists (subj ++ lit " " ++ num), pre, subj, ws, num, post'.
    repeat (split; [assumption || reflexivity|]). assumption.
  - intros [ref [pre [subj [ws [num [post [-> [H1 [H2 [H3 [_ [H5 H6]]]]]]]]]]]].
    exists pre, (subj ++ ws ++ num ++ post). split; [reflexivity|].
    now apply course_match_complete.
Qed.

Lemma fold_empty (groups : list node) :
  Forall (fun g => is_empty g = false) groups ->
  is_empty (fold groups) = negb (nonempty groups).
Proof.
  intros H. destruct groups as [|g [|h l]]; try reflexivity.
  simpl. now inversion H.
Qed.

Lemma In_nonempty (A : Type) (x : A) (l : list A) :
  In x l -> nonempty l = true.
Proof. destruct l; [contradiction | reflexivity]. Qed.

Lemma kept_trees_not_empty (sel : str -> bool) (clauses : list str) :
  Forall (fun g => is_empty g = false)
    (map parse_clause_into_group
       (filter (fun c => negb (is_empty (parse_clause_into_group c)) && sel c)
               clauses)).
Proof.
  apply Forall_forall. intros g Hg. apply in_map_iff in Hg.
  destruct Hg as [c [<- Hc]]. apply filter_In in Hc.
  destruct Hc as [_ Hc]. apply andb_true_iff in Hc.
  destruct Hc as [Hc _]. now destruct (is_empty (parse_clause_into_group c)).
Qed.

Lemma parse_text_trees (text : str) :
  hard (parse_prereq_text text)
  = fold (map parse_clause_into_group
            (filter (fun c => negb (is_empty (parse_clause_into_group c))
                              && negb (is_coreq_clause c))
                    (clauses_of text))) /\
  coreq_ok (parse_prereq_text text)
  = fold (map parse_clause_into_group
            (filter (fun c => negb (is_empty (parse_clause_into_group c))
                              && is_coreq_clause c)
                    (clauses_of text))).
Proof.
  unfold parse_prereq_text, route.
  destruct (clauses_of text) as [|c l] eqn:E; [now split|].
  rewrite route_spec. simpl fst. simpl snd. simpl app. now split.
Qed.

Lemma clause_of_text_token (text ref : str) :
  token_from None text ref ->
  exists clause,
    In clause (clauses_of text) /\ token_from None clause ref.
Proof.
  intros H.
  apply (@token_in_some_piece (Ascii.eqb ";") semicolon_not_word
                              semicolon_not_space) in H.
  destruct H as [piece [Hp Ht]]. apply token_normalized in Ht.
  exists (normalize_space piece). split; [|exact Ht].
  unfold clauses_of. apply in_map. apply filter_In. split.
  - unfold CLAUSE_SPLIT_RE, chr. now rewrite split_plus_cls.
  - destruct (normalize_space piece); [|reflexivity].
    now apply token_nonempty in Ht.
Qed.

Lemma parse_empty_negb (text : str) :
  is_empty (hard (parse_prereq_text text))
  && is_empty (coreq_ok (parse_prereq_text text))
  = negb (has_course_token text).
Proof.
  destruct (parse_text_trees text) as [Hh Hc]. rewrite Hh, Hc.
  rewrite !fold_empty by apply kept_trees_not_empty.
  destruct (has_course_token text) eqn:E.
  - apply has_course_token_iff in E. destruct E as [ref Ht].
    apply clause_of_text_token in Ht. destruct Ht as [clause [Hin Ht]].
    assert (Hk : is_empty (parse_clause_into_group clause) = false).
    { rewrite parse_clause_empty.
      apply token_normalized, find_course_spans_nonempty in Ht.
      destruct (find_course_spans (normalize_space clause));
        [congruence | reflexivity]. }
    apply andb_false_iff.
    destruct (is_coreq_clause clause) eqn:Ec; [right | left].
    + assert (Hin' : In clause
                (filter (fun c => negb (is_empty (parse_clause_into_group c))
                                  && is_coreq_clause c) (clauses_of text))).
      { apply filter_In. split; [assumption|]. now rewrite Hk, Ec. }
      now rewrite (In_nonempty _ _ (in_map parse_clause_into_group _ _ Hin')).
    + assert (Hin' : In clause
                (filter (fun c => negb (is_empty (parse_clause_into_group c))
                                  && negb (is_coreq_clause c))
                        (clauses_of text))).
      { apply filter_In. split; [assumption|]. now rewrite Hk, Ec. }
      now rewrite (In_nonempty _ _ (in_map parse_clause_into_group _ _ Hin')).
  - assert (Hall : forall clause, In clause (clauses_of text) ->
                     is_empty (parse_clause_into_group clause) = true).
    { intros clause Hin. rewrite parse_clause_empty.
      destruct (find_course_spans (normalize_space clause)) as [|x l] eqn:Ex;
        [reflexivity|].
      exfalso.
      assert (Hne : find_course_spans (normalize_space clause) <> [])
        by (rewrite Ex; discriminate).
      apply has_token_iff in Hne. destruct Hne as [ref Ht].
      apply token_of_normalized in Ht.
      apply (@token_of_clause text clause ref Hin) in Ht.
      assert (Hc' : has_course_token text = true)
        by (apply has_course_token_iff; now exists ref).
      congruence. }
    assert (Hnil : forall sel,
               filter (fun c => negb (is_empty (parse_clause_into_group c))
                                && sel c) (clauses_of text) = []).
    { intros sel. apply filter_nil_existsb.
      destruct (existsb _ (clauses_of text)) eqn:Ee; [|reflexivity].
      apply existsb_exists in Ee. destruct Ee as [c [Hin Hc']].
      rewrite (Hall c Hin) in Hc'. discriminate. }
    now rewrite !Hnil.
Qed.

(** X2.  Both trees of a text are EMPTY exactly when the text has no
    course token, which is what [has_course_token] of
    [build_final_parsed.py] tests: a text with a token always gets a
    non-EMPTY hard or coreq_ok tree. *)
Theorem parse_empty_iff_no_token :
  forall text : str,
    is_empty (hard (parse_prereq_text text))
    && is_empty (coreq_ok (parse_prereq_text text))
    = negb (has_course_token text) /\
    (has_course_token text = true <-> exists i ref, token_at text i ref).
Proof.
  intros text. split; [apply parse_empty_negb|].
  rewrite has_course_token_iff. split.
  - intros [ref H]. apply token_from_at in H. destruct H as [i H].
    now exists i, ref.
  - intros [i [ref H]]. exists ref. eapply token_at_from. exact H.
Qed.

Lemma main_loop_spec (data : list course_record) :
  forall acc : list parsed_record * list parsed_record,
    let record item :=
      ParsedRecord (c_index item) (c_name item)
                   (or_empty (c_prerequisites item))
                   (parse_prereq_text (or_empty (c_prerequisites item))) in
    let has_token item :=
      has_course_token (or_empty (c_prerequisites item)) in
    fold_left main_step data acc =
    (fst acc ++ map record (filter has_token data),
     snd acc ++ map record (filter (fun item => negb (has_token item)) data)).
Proof.
  induction data as [|item l IH]; intros [ps us]; cbn [fold_left].
  - cbn. now rewrite !app_nil_r.
  - rewrite IH. unfold main_step. cbn [fst snd filter].
    rewrite (parse_empty_negb (or_empty (c_prerequisites item))).
    destruct (has_course_token (or_empty (c_prerequisites item)));
      cbn [negb fst snd map]; now rewrite <- app_assoc.
Qed.

(** X3.  The loop of [main] sends a record to the list of unparsed
    records exactly when its prerequisite text has no course token, and
    to the list of parsed records otherwise; both lists keep the order of
    the input, so the two lengths add up to the number of records. *)
Theorem parse_all_partition :
  forall data : list course_record,
    let record item :=
      ParsedRecord (c_index item) (c_name item)
                   (or_empty (c_prerequisites item))
                   (parse_prereq_text (or_empty (c_prerequisites item))) in
    let has_token item :=
      has_course_token (or_empty (c_prerequisites item)) in
    fst (parse_all data) = map record (filter has_token data) /\
    snd (parse_all data)
    = map record (filter (fun item => negb (has_token item)) data) /\
    length (fst (parse_all data)) + length (snd (parse_all data))
    = length data.
Proof.
  intros data record has_token. unfold parse_all.
  rewrite main_loop_spec. cbn [fst snd app]. fold record. fold has_token.
  split; [reflexivity|]. split; [reflexivity|].
  rewrite !length_map. apply filter_length.
Qed.

(** ** Normalised whitespace *)

Lemma squeeze_idem (s : str) :
  forall b, squeeze b (squeeze b s) = squeeze b s.
Proof.
  induction s as [|x t IH]; intros b; [reflexivity|]. simpl.
  destruct (is_space x) eqn:E.
  - destruct b; [apply IH|]. simpl.
    change (is_space " ") with true. cbv iota. now rewrite IH.
  - simpl. now rewrite E, IH.
Qed.

Lemma rstrip_spaces (ws : str) :
  Forall (fun c => is_space c = true) ws -> rstrip ws = [].
Proof.
  induction 1 as [|x ws Hx _ IH]; [reflexivity|]. simpl.
  now rewrite IH, Hx.
Qed.

Lemma squeeze_spaces (ws : str) :
  Forall (fun c => is_space c = true) ws ->
  forall b, Forall (fun c => is_space c = true) (squeeze b ws).
Proof.
  induction 1 as [|x ws Hx _ IH]; intros b; simpl; [constructor|].
  rewrite Hx. destruct b; [apply IH|]. constructor; [reflexivity | apply IH].
Qed.

(** A string is its stripped part, which is empty or ends with a
    character that is no whitespace, and a run of whitespace. *)
Lemma rstrip_cases (s : str) :
  (rstrip s = [] /\ Forall (fun c => is_space c = true) s) \/
  (exists a y ws,
      s = a ++ y :: ws /\ is_space y = false /\
      Forall (fun c => is_space c = true) ws /\ rstrip s = a ++ [y]).
Proof.
  induction s as [|c s IH]; [left; now split|].
  destruct IH as [[E Hs] | [a [y [ws [-> [Hy [Hws E]]]]]]].
  - simpl. rewrite E. destruct (is_space c) eqn:Ec.
    + left. split; [reflexivity | now constructor].
    + right. exists [], c, s. now repeat split.
  - right. exists (c :: a), y, ws. repeat split; auto.
    simpl. simpl in E. rewrite E. now destruct a.
Qed.

Lemma squeeze_app_nonspace (a : str) (y : ascii) (r : str) :
  is_space y = false ->
  forall b, squeeze b (a ++ y :: r) = squeeze b (a ++ [y]) ++ squeeze false r.
Proof.
  intros Hy. induction a as [|x a IH]; intros b; simpl.
  - now rewrite Hy.
  - destruct (is_space x); [destruct b|]; now rewrite IH.
Qed.

Lemma squeeze_snoc_nonspace (a : str) (y : ascii) :
  is_space y = false ->
  forall b, exists a', squeeze b (a ++ [y]) = a' ++ [y].
Proof.
  intros Hy. induction a as [|x a IH]; intros b; simpl.
  - rewrite Hy. now exists [].
  - destruct (is_space x).
    + destruct b; [apply IH|]. destruct (IH true) as [a' ->].
      now exists (" "%char :: a').
    + destruct (IH false) as [a' ->]. now exists (x :: a').
Qed.

Lemma rstrip_snoc_nonspace (a : str) (y : ascii) :
  is_space y = false -> rstrip (a ++ [y]) = a ++ [y].
Proof. intros Hy. now rewrite rstrip_app_nonspace. Qed.

(** Stripping on the right and squeezing commute. *)
Lemma rstrip_squeeze (s : str) (b : bool) :
  rstrip (squeeze b s) = squeeze b (rstrip s).
Proof.
  destruct (rstrip_cases s) as [[E Hs] | [a [y [ws [-> [Hy [Hws E]]]]]]].
  - rewrite E. simpl. apply rstrip_spaces. now apply squeeze_spaces.
  - rewrite E, squeeze_app_nonspace by assumption.
    destruct (@squeeze_snoc_nonspace a y Hy b) as [a' Ea]. rewrite Ea.
    rewrite <- app_assoc. simpl. rewrite rstrip_app_nonspace by assumption.
    rewrite (@rstrip_spaces _ (@squeeze_spaces ws Hws false)). reflexivity.
Qed.

Lemma rstrip_idem (s : str) : rstrip (rstrip s) = rstrip s.
Proof.
  destruct (rstrip_cases s) as [[E Hs] | [a [y [ws [-> [Hy [Hws E]]]]]]].
  - now rewrite E.
  - rewrite E. now apply rstrip_snoc_nonspace.
Qed.

Lemma rstrip_last (s a : str) (x : ascii) :
  rstrip s = a ++ [x] -> is_space x = false.
Proof.
  destruct (rstrip_cases s) as [[E Hs] | [a' [y [ws [-> [Hy [Hws E]]]]]]].
  - rewrite E. now destruct a.
  - rewrite E. intros H. apply app_inj_tail in H. destruct H as [_ <-].
    exact Hy.
Qed.

Lemma squeeze_shape (s : str) :
  forall (b : bool) (a : str) (x : ascii) (rest : str),
    squeeze b s = a ++ x :: rest -> is_space x = true ->
    x = " "%char /\ (b = true -> a <> []) /\
    match rest with
    | [] => True
    | y :: _ => is_space y = false
    end.
Proof.
  induction s as [|c t IH]; intros b a x rest H Hx; simpl in H.
  - now destruct a.
  - destruct (is_space c) eqn:Ec.
    + destruct b; [now apply (IH true)|].
      destruct a as [|a0 a]; simpl in H.
      * injection H as <- <-. split; [reflexivity|].
        split; [discriminate|].
        apply squeeze_true_head.
      * injection H as <- H.
        destruct (IH true a x rest H Hx) as [H1 [_ H3]].
        split; [assumption|]. split; [discriminate | assumption].
    + destruct a as [|a0 a]; simpl in H.
      * injection H as <- _. congruence.
      * injection H as <- H.
        destruct (IH false a x rest H Hx) as [H1 [_ H3]].
        split; [assumption|]. split; [discriminate | assumption].
Qed.

Lemma squeeze_keeps_nonspace (s : str) :
  forall b,
    filter (fun c => negb (is_space c)) (squeeze b s)
    = filter (fun c => negb (is_space c)) s.
Proof.
  induction s as [|x t IH]; intros b; [reflexivity|]. simpl.
  destruct (is_space x) eqn:E; simpl.
  - destruct b; [apply IH|]. simpl. apply IH.
  - rewrite E. simpl. now rewrite IH.
Qed.

Lemma filter_spaces (ws : str) :
  Forall (fun c => is_space c = true) ws ->
  filter (fun c => negb (is_space c)) ws = [].
Proof.
  induction 1 as [|x ws Hx _ IH]; [reflexivity|]. simpl. now rewrite Hx.
Qed.

Lemma rstrip_keeps_nonspace (s : str) :
  filter (fun c => negb (is_space c)) (rstrip s)
  = filter (fun c => negb (is_space c)) s.
Proof.
  destruct (rstrip_prefix s) as [ws [Hs Hws]].
  rewrite Hs at 2. rewrite filter_app, (@filter_spaces ws Hws).
  now rewrite app_nil_r.
Qed.

Lemma normalize_space_idem (s : str) :
  normalize_space (normalize_space s) = normalize_space s.
Proof.
  rewrite !normalize_space_squeeze.
  rewrite <- rstrip_squeeze, squeeze_idem. now rewrite !rstrip_idem.
Qed.

Lemma normalize_space_keeps (s : str) :
  filter (fun c => negb (is_space c)) (normalize_space s)
  = filter (fun c => negb (is_space c)) s.
Proof.
  rewrite normalize_space_squeeze, rstrip_keeps_nonspace.
  apply squeeze_keeps_nonspace.
Qed.

Lemma normalize_space_shape (s a : str) (x : ascii) (rest : str) :
  normalize_space s = a ++ x :: rest ->
  is_space x = true ->
  x = " "%char /\ a <> [] /\
  exists y rest', rest = y :: rest' /\ is_space y = false.
Proof.
  rewrite normalize_space_squeeze. intros H Hx.
  destruct (rstrip_prefix (squeeze true s)) as [ws [Hs Hws]].
  rewrite H in Hs. rewrite <- app_assoc in Hs. simpl in Hs.
  destruct (@squeeze_shape s true a x (rest ++ ws) Hs Hx) as [H1 [H2 H3]].
  split; [assumption|]. split; [now apply H2|].
  destruct rest as [|y rest'].
  - apply rstrip_last in H. congruence.
  - exists y, rest'. split; [reflexivity | exact H3].
Qed.

(** X4.  [normalize_space] yields a normal form: normalising twice is
    normalising once; in the result every whitespace character is a
    space that has a character before it and a character that is no
    whitespace after it (so no whitespace at either end and no two in a
    row); and the other characters are those of the input, in order. *)
Theorem normalize_space_normal_form :
  forall s : str,
    normalize_space (normalize_space s) = normalize_space s /\
    (forall a x rest,
        normalize_space s = a ++ x :: rest ->
        is_space x = true ->
        x = " "%char /\ a <> [] /\
        exists y rest', rest = y :: rest' /\ is_space y = false) /\
    filter (fun c => negb (is_space c)) (normalize_space s)
    = filter (fun c => negb (is_space c)) s.
Proof.
  intros s. split; [apply normalize_space_idem|].
  split; [apply normalize_space_shape | apply normalize_space_keeps].
Qed.

(** ** The extent of a scanned token *)

(** X5.  The offsets of a scanned token delimit its text: between start
    and end the text reads subject code, whitespace, catalog number;
    the reference is the subject code, one space and the number; the
    end is inside the text and at least four characters after the
    start. *)
Theorem span_extent :
  forall (t : str) (x : span),
    In x (find_course_spans t) ->
    exists subj ws num,
      is_subject subj /\
      Forall (fun c => is_space c = true) ws /\
      is_number num /\
      span_course x = subj ++ lit " " ++ num /\
      slice t (span_start x) (span_end x) = subj ++ ws ++ num /\
      span_end x = span_start x + length subj + length ws + length num /\
      span_start x + 4 <= span_end x <= length t.
Proof.
  intros t x H. unfold find_course_spans in H. apply in_map_iff in H.
  destruct H as [m [<- Hm]]. apply finditer_sound in Hm.
  destruct Hm as [pre [post0 [-> Hm]]].
  apply course_match_sound in Hm.
  destruct Hm as [subj [ws [num [post [-> [Hsubj [Hws [Hnum [Hp [Hq ->]]]]]]]]]].
  unfold span_start, span_end, span_course, group.
  cbn [fst snd m_start m_end m_caps find].
  change (2 =? 1) with false. change (1 =? 1) with true. cbv iota.
  exists subj, ws, num.
  split; [assumption|]. split; [assumption|]. split; [assumption|].
  split; [|split; [|split]].
  - f_equal.
    + apply slice_app.
    + f_equal.
      replace (pre ++ subj ++ ws ++ num ++ post)
        with ((pre ++ subj ++ ws) ++ num ++ post)
        by (now rewrite <- !app_assoc).
      replace (length pre + length subj + length ws)
        with (length (pre ++ subj ++ ws))
        by (rewrite !length_app; lia).
      apply slice_app.
  - replace (pre ++ subj ++ ws ++ num ++ post)
      with (pre ++ (subj ++ ws ++ num) ++ post)
      by (now rewrite <- !app_assoc).
    replace (length pre + length subj + length ws + length num)
      with (length pre + length (subj ++ ws ++ num))
      by (rewrite !length_app; lia).
    apply slice_app.
  - reflexivity.
  - rewrite !length_app.
    destruct Hsubj as [Ls _].
    destruct Hnum as [ds [sfx [-> [Ld _]]]]. rewrite !length_app. lia.
Qed.

Lemma span_extent_witness :
  exists subj ws num,
    is_subject subj /\
    Forall (fun c => is_space c = true) ws /\
    is_number num /\
    span_course (lit "CS 225A", 4, 12) = subj ++ lit " " ++ num /\
    slice (lit "see CS  225A.") (span_start (lit "CS 225A", 4, 12))
          (span_end (lit "CS 225A", 4, 12)) = subj ++ ws ++ num /\
    span_end (lit "CS 225A", 4, 12)
    = span_start (lit "CS 225A", 4, 12) + length subj + length ws
      + length num /\
    span_start (lit "CS 225A", 4, 12) + 4
    <= span_end (lit "CS 225A", 4, 12) <= length (lit "see CS  225A.").
Proof.
  apply (@span_extent (lit "see CS  225A.") (lit "CS 225A", 4, 12)).
  vm_compute. left. reflexivity.
Defined.

(** ** What a match consumes *)

Lemma rep_loop_calls (step : cursor -> cont -> option cursor) :
  (forall c k e, step c k = Some e ->
     exists c', k c' = Some e /\ exists w, rest c = w ++ rest c') ->
  forall fuel lo hi c k e,
    rep_loop step fuel lo hi c k = Some e ->
    exists c', k c' = Some e /\ exists w, rest c = w ++ rest c'.
Proof.
  intros Hstep. induction fuel as [|f IH]; intros lo hi c k e H.
  - simpl in H. destruct (lo =? 0); [|discriminate].
    exists c. split; [assumption | now exists []].
  - assert (Hgo :
      match lo with
      | S lo' => step c (fun c' => rep_loop step f lo' (option_map pred hi) c' k)
      | 0 =>
          match step c (fun c' =>
                  if pos c' =? pos c then None
                  else rep_loop step f 0 (option_map pred hi) c' k) with
          | Some e => Some e
          | None => k c
          end
      end = Some e ->
      exists c', k c' = Some e /\ exists w, rest c = w ++ rest c').
    { clear H. intros H. destruct lo as [|lo'].
      - destruct (step c _) as [e'|] eqn:E.
        + injection H as ->. apply Hstep in E.
          destruct E as [c1 [E [w1 Hw1]]].
          destruct (pos c1 =? pos c); [discriminate|].
          apply IH in E. destruct E as [c2 [E [w2 Hw2]]].
          exists c2. split; [assumption|]. exists (w1 ++ w2).
          now rewrite Hw1, Hw2, app_assoc.
        + exists c. split; [assumption | now exists []].
      - apply Hstep in H. destruct H as [c1 [E [w1 Hw1]]].
        apply IH in E. destruct E as [c2 [E [w2 Hw2]]].
        exists c2. split; [assumption|]. exists (w1 ++ w2).
        now rewrite Hw1, Hw2, app_assoc. }
    simpl in H. destruct hi as [[|h]|]; try (now apply Hgo).
    exists c. split; [assumption | now exists []].
Qed.

(** A successful run has called its continuation on a cursor further on
    in the text. *)
Lemma run_calls (r : regex) :
  forall c k e,
    run r c k = Some e ->
    exists c', k c' = Some e /\ exists w, rest c = w ++ rest c'.
Proof.
  induction r as [|p|a IHa b IHb|a IHa b IHb|a IHa lo hi| | | |i a IHa];
    intros c k e H; simpl in H.
  - exists c. split; [assumption | now exists []].
  - destruct (rest c) as [|x t] eqn:Er; [discriminate|].
    destruct (p x); [|discriminate].
    exists (advance x t c). split; [assumption|]. now exists [x].
  - apply IHa in H. destruct H as [c1 [H [w1 Hw1]]].
    apply IHb in H. destruct H as [c2 [H [w2 Hw2]]].
    exists c2. split; [assumption|]. exists (w1 ++ w2).
    now rewrite Hw1, Hw2, app_assoc.
  - destruct (run a c k) as [e'|] eqn:E.
    + injection H as ->. now apply IHa.
    + now apply IHb.
  - eapply rep_loop_calls; [exact IHa | exact H].
  - destruct (at_boundary (prev c) (rest c)); [|discriminate].
    exists c. split; [assumption | now exists []].
  - destruct (pos c =? 0); [|discriminate].
    exists c. split; [assumption | now exists []].
  - destruct (at_end (rest c)); [|discriminate].
    exists c. split; [assumption | now exists []].
  - apply IHa in H. destruct H as [c1 [H [w1 Hw1]]].
    exists (set_cap i (pos c) (pos c1) c1). split; [assumption|].
    now exists w1.
Qed.

(** ** Corequisite clauses and the flag COREQ_ALLOWED *)

(** The phrase pattern of [is_coreq_clause] holds the word
    "concurrent", so its test adds nothing to the three substring
    tests. *)
Lemma credit_or_concurrent_keyword (s : str) :
  found CREDIT_OR_CONCURRENT_RE s = true ->
  contains (lit "concurrent") s = true.
Proof.
  rewrite found_spec, contains_spec. intros [pre [post [-> Hm]]].
  unfold match_here in Hm.
  destruct (run CREDIT_OR_CONCURRENT_RE
              (Cursor (length pre) (last_of pre None) post []) Some)
    as [e|] eqn:E; [clear Hm | congruence].
  unfold CREDIT_OR_CONCURRENT_RE in E.
  rewrite run_Cat in E. apply run_calls in E.
  destruct E as [c1 [E [w1 Hw1]]].
  rewrite run_Cat in E. apply run_calls in E.
  destruct E as [c2 [E [w2 Hw2]]].
  rewrite run_Cat in E. apply run_calls in E.
  destruct E as [c3 [E [w3 Hw3]]].
  rewrite run_Cat in E. apply run_calls in E.
  destruct E as [c4 [E [w4 Hw4]]].
  rewrite run_Cat in E. unfold text in E. rewrite run_text in E.
  destruct (eat Ascii.eqb (lit "concurrent") (rest c4) (prev c4))
    as [[p' t]|] eqn:Ee; [|discriminate].
  apply eat_eqb_spec in Ee. destruct Ee as [Hr _].
  cbn [rest] in Hw1.
  exists (pre ++ w1 ++ w2 ++ w3 ++ w4), t.
  rewrite Hw1, Hw2, Hw3, Hw4, Hr. now rewrite <- !app_assoc.
Qed.

Lemma detect_flags_coreq (text : str) :
  In (lit "COREQ_ALLOWED") (detect_flags text) <->
  some_keyword_in (lower text)
    [lit "concurrent"; lit "co-requisite"; lit "corequisite"] = true.
Proof.
  rewrite detect_flags_filter, in_map_iff. split.
  - intros [[kws n] [Hn Hg]]. simpl in Hn. subst n.
    apply filter_In in Hg. destruct Hg as [Hg Hk]. simpl in Hk.
    unfold groups_by_name in Hg. simpl in Hg.
    repeat (destruct Hg as [Hg | Hg];
            [inversion Hg; subst kws; exact Hk|]).
    contradiction.
  - intros H.
    exists ([lit "concurrent"; lit "co-requisite"; lit "corequisite"],
            lit "COREQ_ALLOWED").
    split; [reflexivity|]. apply filter_In. split; [|exact H].
    unfold groups_by_name. right. now left.
Qed.

Lemma is_coreq_clause_keyword (c : str) :
  is_coreq_clause c =
  some_keyword_in (lower c)
    [lit "concurrent"; lit "co-requisite"; lit "corequisite"].
Proof.
  unfold is_coreq_clause, some_keyword_in. cbn [existsb].
  rewrite orb_false_r. cbv zeta.
  destruct (found CREDIT_OR_CONCURRENT_RE (lower c)) eqn:E.
  - apply credit_or_concurrent_keyword in E. rewrite E. reflexivity.
  - rewrite orb_false_r. now rewrite orb_assoc.
Qed.

(** X6.  A clause is corequisite-relevant exactly when the flag
    classifier raises COREQ_ALLOWED on it: the phrase pattern "credit
    or concurrent enrollment/registration in" of [is_coreq_clause] can
    only match where the keyword "concurrent" occurs. *)
Theorem coreq_clause_iff_flag :
  forall c : str,
    is_coreq_clause c = true <->
    In (lit "COREQ_ALLOWED") (detect_flags c).
Proof.
  intros c. now rewrite detect_flags_coreq, is_coreq_clause_keyword.
Qed.

(** ** Keywords of a clause and of the text *)

Lemma lower_app (a b : str) : lower (a ++ b) = lower a ++ lower b.
Proof. apply map_app. Qed.

Lemma lower_squeeze (s : str) :
  forall b, lower (squeeze b s) = squeeze b (lower s).
Proof.
  induction s as [|x t IH]; intros b; [reflexivity|]. simpl.
  rewrite is_space_lower. destruct (is_space x).
  - destruct b; [apply IH|]. simpl. now rewrite IH.
  - simpl. now rewrite IH.
Qed.

Lemma substring_app (w a s b : str) :
  substring w s -> substring w (a ++ s ++ b).
Proof.
  intros [pre [post ->]]. exists (a ++ pre), (post ++ b).
  now rewrite <- !app_assoc.
Qed.

Lemma substring_cons (w : str) (x : ascii) (s : str) :
  substring w s -> substring w (x :: s).
Proof. intros [pre [post ->]]. now exists (x :: pre), post. Qed.

(** A word without whitespace that occurs in the squeezed text occurs
    in the text. *)
Lemma substring_of_squeezed (w : str) :
  Forall (fun c => is_space c = false) w -> w <> [] ->
  forall (q : str) (b : bool) (a rest : str),
    squeeze b q = a ++ w ++ rest -> substring w q.
Proof.
  intros Hw Hne. induction q as [|c t IH]; intros b a rest H.
  - simpl in H. destruct a; [|discriminate]. destruct w; [congruence|].
    discriminate.
  - destruct (is_space c) eqn:Ec.
    + simpl in H. rewrite Ec in H. destruct b.
      * apply substring_cons. eapply IH. exact H.
      * destruct a as [|a0 a].
        -- destruct w as [|w0 w]; [congruence|]. simpl in H.
           injection H as <- _. inversion Hw. discriminate.
        -- simpl in H. injection H as _ H.
           apply substring_cons. eapply IH. exact H.
    + destruct a as [|a0 a].
      * assert (H' : squeeze false (c :: t) = w ++ rest)
          by (simpl; rewrite Ec; simpl in H; now rewrite Ec in H).
        apply (@squeeze_inv_nonspace w Hw) in H'.
        destruct H' as [t' [-> _]]. now exists [], t'.
      * simpl in H. rewrite Ec in H. injection H as _ H.
        apply substring_cons. eapply IH. exact H.
Qed.

Lemma substring_lower_normalized (w p : str) :
  Forall (fun c => is_space c = false) w -> w <> [] ->
  substring w (lower (normalize_space p)) -> substring w (lower p).
Proof.
  intros Hw Hne H. rewrite normalize_space_squeeze in H.
  destruct (rstrip_prefix (squeeze true p)) as [ws [Hs _]].
  assert (H' : substring w (lower (squeeze true p))).
  { rewrite Hs, lower_app.
    apply (@substring_app w [] (lower (rstrip (squeeze true p))) (lower ws)).
    exact H. }
  rewrite lower_squeeze in H'. destruct H' as [a [rest H']].
  eapply substring_of_squeezed; eassumption.
Qed.

Lemma piece_of_split (P : ascii -> bool) (s piece : str) :
  In piece (split_on P false s) -> exists pre post, s = pre ++ piece ++ post.
Proof.
  intros H. destruct (split_on P false s) as [|h tl] eqn:E; [contradiction|].
  destruct (@split_on_pieces P s false h tl E) as [[pre [post [Hs _]]] Htl].
  destruct H as [<- | H].
  - now exists pre, post.
  - destruct (Htl piece H) as [pre' [x [post' [Hs' _]]]].
    exists (pre' ++ [x]), post'. rewrite Hs'. now rewrite <- !app_assoc.
Qed.

Lemma keyword_of_clause (w text clause : str) :
  Forall (fun c => is_space c = false) w -> w <> [] ->
  In clause (clauses_of text) ->
  substring w (lower clause) -> substring w (lower text).
Proof.
  intros Hw Hne Hin H. unfold clauses_of in Hin. apply in_map_iff in Hin.
  destruct Hin as [piece [<- Hp]]. apply filter_In in Hp.
  destruct Hp as [Hp _]. unfold CLAUSE_SPLIT_RE, chr in Hp.
  rewrite split_plus_cls in Hp. apply piece_of_split in Hp.
  destruct Hp as [pre [post ->]].
  rewrite !lower_app. apply substring_app.
  now apply substring_lower_normalized.
Qed.

Lemma coreq_keywords_plain (w : str) :
  In w [lit "concurrent"; lit "co-requisite"; lit "corequisite"] ->
  Forall (fun c => is_space c = false) w /\ w <> [].
Proof.
  intros [<- | [<- | [<- | []]]]; (split; [|discriminate]);
    repeat constructor.
Qed.

Lemma fold_not_empty_inv (groups : list node) :
  fold groups <> EMPTY -> exists g, In g groups.
Proof.
  intros H. destruct groups as [|g l]; [now elim H|]. exists g. now left.
Qed.

Lemma coreq_tree_flag_text (text : str) :
  coreq_ok (parse_prereq_text text) <> EMPTY ->
  In (lit "COREQ_ALLOWED") (detect_flags text).
Proof.
  intros H. rewrite (proj2 (parse_text_trees text)) in H.
  apply fold_not_empty_inv in H. destruct H as [g Hg].
  apply in_map_iff in Hg. destruct Hg as [clause [_ Hc]].
  apply filter_In in Hc. destruct Hc as [Hin Hc].
  apply andb_true_iff in Hc. destruct Hc as [_ Hc].
  rewrite is_coreq_clause_keyword in Hc.
  apply some_keyword_in_spec in Hc. destruct Hc as [w [Hw Hs]].
  apply detect_flags_coreq. apply some_keyword_in_spec.
  exists w. split; [assumption|].
  destruct (@coreq_keywords_plain w Hw) as [Hp Hne].
  now apply (@keyword_of_clause w text clause).
Qed.

(** X7.  A text whose coreq_ok tree is not EMPTY raises the flag
    COREQ_ALLOWED, and so does the output record of
    [build_final_parsed.py]: the keyword that routed a clause to
    coreq_ok is found again in the whole text. *)
Theorem coreq_tree_flag :
  (forall text : str,
      coreq_ok (parse_prereq_text text) <> EMPTY ->
      In (lit "COREQ_ALLOWED") (detect_flags text)) /\
  (forall c : course_record,
      p_coreq_ok (build_prerequisites c) <> EMPTY ->
      In (lit "COREQ_ALLOWED") (p_flags (build_prerequisites c))).
Proof.
  split; [exact coreq_tree_flag_text|].
  intros c. unfold build_prerequisites. cbn [p_coreq_ok p_flags].
  destruct (strip (or_empty (c_prerequisites c))) as [|x raw] eqn:E.
  - intros H. exfalso. apply H. reflexivity.
  - cbn [nonempty]. apply coreq_tree_flag_text.
Qed.

(** ** Course-only texts raise no flag *)

Lemma ends_nonspace (w : str) :
  2 <= length w ->
  is_space (hd " "%char w) = false ->
  is_space (last w " "%char) = false ->
  exists x mid y,
    w = x :: mid ++ [y] /\ is_space x = false /\ is_space y = false.
Proof.
  intros L Hh Hl. destruct w as [|x w']; [simpl in L; lia|].
  destruct (@exists_last _ w') as [mid [y Hw]].
  - intros ->. simpl in L. lia.
  - subst w'. exists x, mid, y. split; [reflexivity|].
    split; [exact Hh|].
    change (x :: mid ++ [y]) with ((x :: mid) ++ [y]) in Hl.
    now rewrite last_last in Hl.
Qed.

Lemma no_requirement_keyword (text w : str) :
  has_non_course_requirements (strip text) = false ->
  In (seq_of chr w) NON_COURSE_KEYWORDS ->
  2 <= length w ->
  is_space (hd " "%char w) = false ->
  is_space (last w " "%char) = false ->
  contains w (lower text) = false.
Proof.
  intros H Hin L Hh Hl. unfold has_non_course_requirements in H.
  cbv zeta in H.
  assert (Hf : found (seq_of chr w) (lower (strip text)) = false).
  { destruct (found (seq_of chr w) (lower (strip text))) eqn:E;
      [|reflexivity].
    rewrite <- H. symmetry. apply existsb_exists.
    exists (seq_of chr w). now split. }
  rewrite found_text in Hf. apply contains_false in Hf.
  apply contains_false. intros Hs. apply Hf.
  destruct (@ends_nonspace w L Hh Hl) as [x [mid [y [-> [Hx Hy]]]]].
  now apply substring_lower_strip.
Qed.

Lemma detect_flags_none (text : str) :
  Forall (fun g => Forall (fun w => contains w (lower text) = false) (fst g))
         groups_by_name ->
  detect_flags text = [].
Proof.
  intros H. rewrite detect_flags_filter.
  induction H as [|g l Hg _ IH]; [reflexivity|]. simpl.
  replace (some_keyword_in (lower text) (fst g)) with false; [exact IH|].
  symmetry. unfold some_keyword_in.
  induction Hg as [|w ws Hw _ IHw]; [reflexivity|]. simpl.
  now rewrite Hw.
Qed.

(** X8.  A text that [is_course_only] accepts raises no flag of
    [detect_flags]: every keyword of the flag classifier is among the
    keywords that [has_non_course_requirements] rejects. *)
Theorem course_only_no_flags :
  forall text : str,
    is_course_only text = true -> detect_flags text = [].
Proof.
  intros text H. unfold is_course_only in H. cbv zeta in H.
  destruct (has_non_course_requirements (strip text)) eqn:E;
    [discriminate|]. clear H.
  apply detect_flags_none. unfold groups_by_name.
  repeat (apply Forall_cons;
          [cbn [fst];
           repeat (apply Forall_cons;
                   [apply (@no_requirement_keyword text _ E);
                    [unfold NON_COURSE_KEYWORDS, Re.text; simpl; tauto
                    | simpl; lia | reflexivity | reflexivity]|]);
           apply Forall_nil|]).
  apply Forall_nil.
Qed.

Lemma course_only_no_flags_witness :
  detect_flags (lit "CS 225 and one of MATH 231, MATH 241") = [].
Proof.
  apply (@course_only_no_flags (lit "CS 225 and one of MATH 231, MATH 241")).
  vm_compute. reflexivity.
Defined.

(** ** The buckets of [analyze] *)

Lemma analyze_loop_spec (courses : list course_record) :
  forall res : results,
    let prereq c := or_empty (c_prerequisites c) in
    let is_none c :=
      negb (nonempty (strip (prereq c))) || is_none_text (prereq c) in
    let entry c :=
      CourseOnlyEntry (c_index c) (c_name c) (prereq c)
                      (extract_course_refs (prereq c)) in
    let rest_entry c := RemainingEntry (c_index c) (c_name c) (prereq c) in
    fold_left analyze_step courses res =
    Results
      (none res ++ filter is_none courses)
      (course_only res ++
       map entry (filter (fun c => negb (is_none c)
                                   && is_course_only (prereq c)) courses))
      (remaining res ++
       map rest_entry
           (filter (fun c => negb (is_none c)
                             && negb (is_course_only (prereq c))) courses)).
Proof.
  induction courses as [|c l IH]; intros res; cbv zeta; cbn [fold_left].
  - cbn [filter map]. rewrite !app_nil_r. now destruct res.
  - rewrite IH. cbv zeta. unfold analyze_step. cbn [filter].
    destruct (negb (nonempty (strip (or_empty (c_prerequisites c)))));
      cbn [orb negb andb none course_only remaining map app];
      [now rewrite <- app_assoc|].
    destruct (is_none_text (or_empty (c_prerequisites c)));
      cbn [orb negb andb none course_only remaining map app];
      [now rewrite <- app_assoc|].
    destruct (is_course_only (or_empty (c_prerequisites c)));
      cbn [orb negb andb none course_only remaining map app];
      now rewrite <- app_assoc.
Qed.

Lemma filter3_length (A : Type) (f g : A -> bool) (l : list A) :
  length (filter f l)
  + length (filter (fun c => negb (f c) && g c) l)
  + length (filter (fun c => negb (f c) && negb (g c)) l) = length l.
Proof.
  induction l as [|c l IH]; [reflexivity|]. simpl.
  destruct (f c); simpl; [lia|]. destruct (g c); simpl; lia.
Qed.

(** X9.  [analyze] is a three-way partition that keeps the order of the
    input: the bucket "none" holds the records whose text is blank or a
    none-text; of the others, those with a course-only text go to
    "course_only", with the references the scanner finds in the text,
    and the rest to "remaining"; the three lengths add up to the number
    of records. *)
Theorem analyze_partition :
  forall courses : list course_record,
    let prereq c := or_empty (c_prerequisites c) in
    let is_none c :=
      negb (nonempty (strip (prereq c))) || is_none_text (prereq c) in
    none (analyze courses) = filter is_none courses /\
    course_only (analyze courses)
    = map (fun c => CourseOnlyEntry (c_index c) (c_name c) (prereq c)
                      (map span_course (find_course_spans (prereq c))))
          (filter (fun c => negb (is_none c) && is_course_only (prereq c))
                  courses) /\
    remaining (analyze courses)
    = map (fun c => RemainingEntry (c_index c) (c_name c) (prereq c))
          (filter (fun c => negb (is_none c)
                            && negb (is_course_only (prereq c))) courses) /\
    length (none (analyze courses))
    + length (course_only (analyze courses))
    + length (remaining (analyze courses)) = length courses.
Proof.
  intros courses prereq is_none. unfold analyze.
  rewrite analyze_loop_spec. cbn [none course_only remaining app].
  fold prereq. fold is_none.
  assert (Hrefs : forall t,
             extract_course_refs t = map span_course (find_course_spans t)).
  { intros t. unfold extract_course_refs, find_course_spans, COURSE_TOKEN.
    rewrite map_map. reflexivity. }
  split; [reflexivity|]. split.
  { apply map_ext. intros c. now rewrite Hrefs. }
  split; [reflexivity|].
  rewrite !length_map. apply filter3_length.
Qed.

(** ** The courses of a tree *)

Lemma str_in_spec (c : str) (l : list str) : str_in c l = true <-> In c l.
Proof.
  unfold str_in. destruct (in_dec (list_eq_dec ascii_dec) c l);
    split; auto; discriminate.
Qed.

Lemma str_in_false (c : str) (l : list str) : str_in c l = false <-> ~ In c l.
Proof.
  unfold str_in. destruct (in_dec (list_eq_dec ascii_dec) c l);
    split; auto; try discriminate. intros H. contradiction.
Qed.

Lemma uniq_loop_app (out : list str) :
  forall seen uniq,
    uniq_loop out seen uniq = uniq ++ uniq_loop out seen [].
Proof.
  induction out as [|c out IH]; intros seen uniq; simpl.
  - now rewrite app_nil_r.
  - destruct (str_in c seen); [apply IH|].
    rewrite IH, (IH (c :: seen) [c]). now rewrite <- app_assoc.
Qed.

Lemma uniq_loop_In (out : list str) :
  forall seen x,
    In x (uniq_loop out seen []) <-> In x out /\ ~ In x seen.
Proof.
  induction out as [|c out IH]; intros seen x; simpl; [tauto|].
  destruct (str_in c seen) eqn:E.
  - apply str_in_spec in E. rewrite IH. split.
    + intros [H1 H2]. split; auto.
    + intros [[<- | H1] H2]; [contradiction | auto].
  - apply str_in_false in E. rewrite uniq_loop_app. simpl. rewrite IH.
    split.
    + intros [<- | [H1 H2]]; [split; auto|].
      split; [auto|]. intros H. apply H2. now right.
    + intros [[<- | H1] H2]; [now left|].
      destruct (list_eq_dec ascii_dec c x) as [-> | Hn]; [now left|].
      right. split; [assumption|]. intros [H | H]; [congruence | contradiction].
Qed.

Lemma uniq_loop_NoDup (out : list str) :
  forall seen, NoDup (uniq_loop out seen []).
Proof.
  induction out as [|c out IH]; intros seen; simpl; [constructor|].
  destruct (str_in c seen); [apply IH|].
  rewrite uniq_loop_app. simpl. constructor; [|apply IH].
  rewrite uniq_loop_In. intros [_ H]. apply H. now left.
Qed.

(** What comes before the first occurrence of a course stays before
    it. *)
Lemma uniq_loop_first (l1 : list str) :
  forall (seen : list str) (c : str) (l2 : list str),
    ~ In c l1 -> ~ In c seen ->
    exists r1 r2,
      uniq_loop (l1 ++ c :: l2) seen [] = r1 ++ c :: r2 /\
      forall x, In x r1 <-> In x l1 /\ ~ In x seen.
Proof.
  induction l1 as [|a l1 IH]; intros seen c l2 Hc Hs.
  - simpl. apply str_in_false in Hs. rewrite Hs, uniq_loop_app.
    exists [], (uniq_loop l2 (c :: seen) []). split; [reflexivity|].
    intros x. simpl. tauto.
  - assert (Hac : a <> c) by (intros ->; apply Hc; now left).
    assert (Hc' : ~ In c l1) by (intros H; apply Hc; now right).
    simpl. destruct (str_in a seen) eqn:E.
    + apply str_in_spec in E.
      destruct (IH seen c l2 Hc' Hs) as [r1 [r2 [Hr Hx]]].
      exists r1, r2. split; [exact Hr|]. intros x. rewrite Hx. split.
      * intros [H1 H2]. split; [now right | assumption].
      * intros [[<- | H1] H2]; [contradiction | auto].
    + apply str_in_false in E. rewrite uniq_loop_app.
      assert (Hs' : ~ In c (a :: seen))
        by (intros [H | H]; [congruence | contradiction]).
      destruct (IH (a :: seen) c l2 Hc' Hs') as [r1 [r2 [Hr Hx]]].
      exists (a :: r1), r2. split; [simpl; now rewrite Hr|].
      intros x. simpl. rewrite Hx. split.
      * intros [<- | [H1 H2]]; [split; auto|].
        split; [now right|]. intros H. apply H2. now right.
      * intros [[<- | H1] H2]; [now left|].
        destruct (list_eq_dec ascii_dec a x) as [-> | Hn]; [now left|].
        right. split; [assumption|].
        intros [H | H]; [congruence | contradiction].
Qed.

(** [walk] appends the references at the leaves, left to right, the
    empty ones apart. *)
Lemma walk_refs : forall n : node, walk n = filter nonempty (course_refs n).
Proof.
  fix IH 1. intros [|c|l|l]; simpl.
  - reflexivity.
  - now destruct c.
  - induction l as [|a l IHl]; simpl; [reflexivity|].
    now rewrite filter_app, <- IH, IHl.
  - induction l as [|a l IHl]; simpl; [reflexivity|].
    now rewrite filter_app, <- IH, IHl.
Qed.

Lemma collect_courses_refs (ast : node) (c : str) :
  In c (collect_courses_from_ast ast) -> In c (course_refs ast).
Proof.
  unfold collect_courses_from_ast. rewrite walk_refs, uniq_loop_In, filter_In.
  tauto.
Qed.

(** X10.  [collect_courses_from_ast] returns every non-empty course
    reference at a leaf of the tree exactly once, in the order of the
    first occurrences: what comes before the first occurrence of a
    course among the leaves is what comes before it in the result. *)
Theorem collect_courses_spec :
  forall ast : node,
    NoDup (collect_courses_from_ast ast) /\
    (forall c, In c (collect_courses_from_ast ast) <->
               c <> [] /\ In c (course_refs ast)) /\
    (forall l1 c l2,
        filter nonempty (course_refs ast) = l1 ++ c :: l2 ->
        ~ In c l1 ->
        exists r1 r2,
          collect_courses_from_ast ast = r1 ++ c :: r2 /\
          forall x, In x r1 <-> In x l1).
Proof.
  intros ast. unfold collect_courses_from_ast. rewrite walk_refs.
  split; [apply uniq_loop_NoDup|]. split.
  - intros c. rewrite uniq_loop_In, filter_In. split.
    + intros [[H1 H2] _]. split; [|assumption]. now destruct c.
    + intros [H1 H2]. split; [|tauto]. split; [assumption|].
      now destruct c.
  - intros l1 c l2 E Hc. rewrite E.
    destruct (@uniq_loop_first l1 [] c l2 Hc (fun H => H))
      as [r1 [r2 [Hr Hx]]].
    exists r1, r2. split; [exact Hr|]. intros x. rewrite Hx. tauto.
Qed.

(** ** The subject of an identifier *)

Lemma split_whitespace_nil (s : str) :
  forall b,
    filter nonempty (split_on is_space b s) = [] <->
    Forall (fun c => is_space c = true) s.
Proof.
  induction s as [|x t IH]; intros b; cbn [split_on].
  - split; [constructor | reflexivity].
  - destruct (is_space x) eqn:E.
    + destruct b; cbn [filter nonempty]; rewrite IH;
        (split; intros H; [now constructor | now inversion H]).
    + split.
      * intros H. destruct (split_on is_space false t); discriminate.
      * intros H. inversion H. congruence.
Qed.

Lemma has_space_spec (id : str) :
  existsb (Ascii.eqb " ") id = true <-> In " "%char id.
Proof.
  rewrite existsb_exists. split.
  - intros [x [Hx E]]. apply Ascii.eqb_eq in E. now subst x.
  - intros H. exists " "%char. split; [assumption | reflexivity].
Qed.

(** [subject_of] raises exactly on the blank identifiers. *)
Lemma subject_of_None (id : str) : subject_of id = None <-> blank_id id.
Proof.
  unfold subject_of, blank_id, split_whitespace.
  destruct (existsb (Ascii.eqb " ") id) eqn:E.
  - apply has_space_spec in E.
    destruct (filter nonempty (split_on is_space false id)) as [|w l] eqn:F.
    + apply split_whitespace_nil in F. tauto.
    + split; [discriminate|]. intros [_ H].
      apply (split_whitespace_nil id false) in H. congruence.
  - split; [discriminate|]. intros [H _]. apply has_space_spec in H.
    congruence.
Qed.

Lemma split_on_word (w r : str) :
  Forall (fun c => is_space c = false) w -> w <> [] ->
  exists tl, split_on is_space false (w ++ " "%char :: r) = w :: tl.
Proof.
  intros Hw Hne. exists (split_on is_space true r).
  rewrite (@split_on_nonsep_prefix is_space w (" "%char :: r) []
             (split_on is_space true r) Hw eq_refl false (or_intror eq_refl)).
  now rewrite app_nil_r.
Qed.

(** The subject of a course reference is its subject code. *)
Lemma subject_of_ref (subj num : str) :
  is_subject subj ->
  subject_of (subj ++ lit " " ++ num) = Some (Some subj).
Proof.
  intros Hs. destruct (subject_nonspace Hs) as [Hw Hne].
  unfold subject_of.
  assert (E : existsb (Ascii.eqb " ") (subj ++ lit " " ++ num) = true).
  { apply has_space_spec. apply in_or_app. right. now left. }
  rewrite E. unfold split_whitespace.
  destruct (@split_on_word subj num Hw Hne) as [tl Ht].
  change (lit " " ++ num) with (" "%char :: num). rewrite Ht. simpl.
  destruct subj; [congruence | reflexivity].
Qed.

(** ** The loops of [build_graph] *)

Lemma ensure_node_None (id : str) (label : option str)
  (nodes_map : list graph_node) :
  nodes_ok nodes_map ->
  (ensure_node (Some id) label nodes_map = None <-> subject_of id = None).
Proof.
  intros [_ Hsub]. unfold ensure_node, has_node.
  destruct (str_in id (map n_id nodes_map)) eqn:E.
  - apply str_in_spec, in_map_iff in E. destruct E as [n [<- Hn]].
    rewrite (Hsub n Hn). split; discriminate.
  - destruct (subject_of id); split; congruence.
Qed.

Lemma ensure_node_Some (id : str) (label : option str)
  (nodes_map nodes_map' : list graph_node) :
  nodes_ok nodes_map ->
  ensure_node (Some id) label nodes_map = Some nodes_map' ->
  nodes_ok nodes_map' /\
  forall x, In x (map n_id nodes_map') <->
            In x (map n_id nodes_map) \/ x = id.
Proof.
  intros [Hnd Hsub]. unfold ensure_node, has_node.
  destruct (str_in id (map n_id nodes_map)) eqn:E.
  - intros H. injection H as <-. apply str_in_spec in E.
    split; [now split|]. intros x. split; [tauto|].
    intros [H | ->]; assumption.
  - apply str_in_false in E.
    destruct (subject_of id) as [s|] eqn:Es; [|discriminate].
    intros H. injection H as <-. split; [split|].
    + rewrite map_app. simpl. apply NoDup_app; [assumption | | ].
      * repeat constructor. intros [].
      * intros x Hx [<- | []]. contradiction.
    + intros n Hn. apply in_app_or in Hn. destruct Hn as [Hn | [<- | []]].
      * now apply Hsub.
      * exact Es.
    + intros x. rewrite map_app, in_app_iff. simpl. intuition.
Qed.

Lemma add_edges_None (pres : list str) (idx : str) (k : edge_kind) :
  forall st : graph_state,
    nodes_ok (fst st) ->
    (add_edges pres idx k st = None <->
     exists pre, In pre pres /\ subject_of pre = None).
Proof.
  induction pres as [|pre pres IH]; intros st Hok; cbn [add_edges].
  - split; [discriminate | intros [pre [[] _]]].
  - destruct (ensure_node (Some pre) None (fst st)) as [nm|] eqn:E.
    + destruct (@ensure_node_Some pre None (fst st) nm Hok E) as [Hok' _].
      rewrite (IH (nm, snd st ++ [GraphEdge pre idx k]) Hok'). split.
      * intros [p [Hp Hs]]. exists p. split; [now right | assumption].
      * intros [p [[<- | Hp] Hs]].
        -- apply (@ensure_node_None pre None (fst st) Hok) in Hs. congruence.
        -- now exists p.
    + apply (@ensure_node_None pre None (fst st) Hok) in E.
      split; [|reflexivity].
      intros _. exists pre. split; [now left | assumption].
Qed.

Lemma add_edges_Some (pres : list str) (idx : str) (k : edge_kind) :
  forall st st' : graph_state,
    nodes_ok (fst st) ->
    add_edges pres idx k st = Some st' ->
    nodes_ok (fst st') /\
    snd st' = snd st ++ map (fun pre => GraphEdge pre idx k) pres /\
    forall x, In x (map n_id (fst st')) <->
              In x (map n_id (fst st)) \/ In x pres.
Proof.
  induction pres as [|pre pres IH]; intros st st' Hok H;
    cbn [add_edges] in H.
  - injection H as <-. split; [assumption|].
    split; [simpl; now rewrite app_nil_r|]. intros x. simpl. tauto.
  - destruct (ensure_node (Some pre) None (fst st)) as [nm|] eqn:E;
      [|discriminate].
    destruct (@ensure_node_Some pre None (fst st) nm Hok E) as [Hok' Hids].
    destruct (IH (nm, snd st ++ [GraphEdge pre idx k]) st' Hok' H)
      as [Hok'' [He Hx]]. cbn [fst snd] in He, Hx.
    split; [assumption|]. split.
    + rewrite He. simpl. now rewrite <- app_assoc.
    + intros x. rewrite Hx, Hids. simpl. intuition.
Qed.

Lemma graph_step_Some (include_coreq : bool) (st st' : graph_state)
  (c : graph_course) :
  nodes_ok (fst st) ->
  graph_step include_coreq st c = Some st' ->
  nodes_ok (fst st') /\
  snd st' = snd st ++ edges_of include_coreq c /\
  forall x, In x (map n_id (fst st')) <->
            In x (map n_id (fst st)) \/
            g_index c = Some x \/
            In x (map e_source (edges_of include_coreq c)).
Proof.
  intros Hok. unfold graph_step, edges_of.
  destruct (g_index c) as [idx|]; [|discriminate].
  destruct (ensure_node (Some idx) (g_name c) (fst st)) as [nm|] eqn:E;
    [|discriminate].
  destruct (@ensure_node_Some idx (g_name c) (fst st) nm Hok E)
    as [Hok1 Hid1].
  destruct (add_edges (collect_courses_from_ast (pr_hard c)) idx Hard
                      (nm, snd st)) as [st1|] eqn:E1; [|discriminate].
  destruct (@add_edges_Some _ idx Hard (nm, snd st) st1 Hok1 E1)
    as [Hok2 [He2 Hid2]].
  cbn [fst snd] in He2, Hid2.
  assert (Hsrc : forall (k : edge_kind) (l : list str),
             map e_source (map (fun pre => GraphEdge pre idx k) l) = l).
  { intros k l. rewrite map_map. simpl. apply map_id. }
  destruct include_coreq.
  - intros H.
    destruct (@add_edges_Some _ idx Coreq st1 st' Hok2 H)
      as [Hok3 [He3 Hid3]].
    split; [assumption|]. split.
    + rewrite He3, He2. now rewrite <- app_assoc.
    + intros x. rewrite Hid3, Hid2, Hid1, map_app, in_app_iff, !Hsrc.
      split.
      * intros [[[H1 | ->] | H1] | H1]; auto.
      * intros [H1 | [H1 | [H1 | H1]]]; auto.
        injection H1 as ->. auto.
  - intros H. injection H as <-. split; [assumption|]. split.
    + rewrite He2. now rewrite app_nil_r.
    + intros x. rewrite Hid2, Hid1, app_nil_r, Hsrc. split.
      * intros [[H1 | ->] | H1]; auto.
      * intros [H1 | [H1 | H1]]; auto. injection H1 as ->. auto.
Qed.

Lemma graph_step_None (include_coreq : bool) (st : graph_state)
  (c : graph_course) :
  nodes_ok (fst st) ->
  (graph_step include_coreq st c = None <-> course_fails include_coreq c).
Proof.
  intros Hok. unfold graph_step, course_fails, edges_of.
  destruct (g_index c) as [idx|].
  2:{ simpl. split; [intros _; exact I | reflexivity]. }
  assert (Hsrc : forall (k : edge_kind) (l : list str),
             (exists e, In e (map (fun pre => GraphEdge pre idx k) l)
                        /\ blank_id (e_source e)) <->
             exists pre, In pre l /\ subject_of pre = None).
  { intros k l. split.
    - intros [e [He Hb]]. apply in_map_iff in He.
      destruct He as [pre [<- Hp]]. exists pre. split; [assumption|].
      now apply subject_of_None.
    - intros [pre [Hp Hs]]. exists (GraphEdge pre idx k).
      split; [exact (in_map (fun p => GraphEdge p idx k) l pre Hp)|].
      now apply subject_of_None. }
  assert (Hor : forall l1 l2 : list graph_edge,
             (exists e, In e (l1 ++ l2) /\ blank_id (e_source e)) <->
             (exists e, In e l1 /\ blank_id (e_source e)) \/
             (exists e, In e l2 /\ blank_id (e_source e))).
  { intros l1 l2. split.
    - intros [e [He Hb]]. apply in_app_or in He.
      destruct He; [left | right]; now exists e.
    - intros [[e [He Hb]] | [e [He Hb]]]; exists e;
        (split; [apply in_or_app; auto | assumption]). }
  rewrite Hor, Hsrc, <- subject_of_None.
  destruct (ensure_node (Some idx) (g_name c) (fst st)) as [nm|] eqn:E.
  2:{ apply (@ensure_node_None idx (g_name c) (fst st) Hok) in E. tauto. }
  assert (Hidx : subject_of idx <> None).
  { intros H. apply (@ensure_node_None idx (g_name c) (fst st) Hok) in H.
    congruence. }
  destruct (@ensure_node_Some idx (g_name c) (fst st) nm Hok E)
    as [Hok1 _].
  destruct (add_edges (collect_courses_from_ast (pr_hard c)) idx Hard
                      (nm, snd st)) as [st1|] eqn:E1.
  2:{ apply (@add_edges_None _ idx Hard (nm, snd st) Hok1) in E1. tauto. }
  assert (Hh : ~ exists pre,
               In pre (collect_courses_from_ast (pr_hard c)) /\
               subject_of pre = None).
  { intros H. apply (@add_edges_None _ idx Hard (nm, snd st) Hok1) in H.
    congruence. }
  destruct (@add_edges_Some _ idx Hard (nm, snd st) st1 Hok1 E1)
    as [Hok2 _].
  destruct include_coreq.
  - rewrite Hsrc, (@add_edges_None _ idx Coreq st1 Hok2). tauto.
  - split; [discriminate|]. intros [H | [H | [e [[] _]]]]; contradiction.
Qed.

Lemma graph_loop_Some (include_coreq : bool) (courses : list graph_course) :
  forall st st' : graph_state,
    nodes_ok (fst st) ->
    graph_loop include_coreq courses st = Some st' ->
    nodes_ok (fst st') /\
    snd st' = snd st ++ flat_map (edges_of include_coreq) courses /\
    forall x, In x (map n_id (fst st')) <->
              In x (map n_id (fst st)) \/
              exists c, In c courses /\
                        (g_index c = Some x \/
                         In x (map e_source (edges_of include_coreq c))).
Proof.
  induction courses as [|c l IH]; intros st st' Hok H; simpl in H.
  - injection H as <-. split; [assumption|].
    split; [simpl; now rewrite app_nil_r|].
    intros x. split; [tauto|]. intros [H | [c [[] _]]]. exact H.
  - destruct (graph_step include_coreq st c) as [st1|] eqn:E;
      [|discriminate].
    destruct (@graph_step_Some include_coreq st st1 c Hok E)
      as [Hok1 [He1 Hid1]].
    destruct (IH st1 st' Hok1 H) as [Hok2 [He2 Hid2]].
    split; [assumption|]. split.
    + rewrite He2, He1. simpl. now rewrite <- app_assoc.
    + intros x. rewrite Hid2, Hid1. split.
      * intros [[H1 | H1] | [c' [Hc' H1]]]; auto.
        -- right. exists c. split; [now left | assumption].
        -- right. exists c'. split; [now right | assumption].
      * intros [H1 | [c' [[<- | Hc'] H1]]]; auto.
        right. now exists c'.
Qed.

Lemma graph_loop_None (include_coreq : bool) (courses : list graph_course) :
  forall st : graph_state,
    nodes_ok (fst st) ->
    (graph_loop include_coreq courses st = None <->
     exists c, In c courses /\ course_fails include_coreq c).
Proof.
  induction courses as [|c l IH]; intros st Hok; simpl.
  - split; [discriminate | intros [c [[] _]]].
  - destruct (graph_step include_coreq st c) as [st1|] eqn:E.
    + destruct (@graph_step_Some include_coreq st st1 c Hok E) as [Hok1 _].
      rewrite (IH st1 Hok1). split.
      * intros [c' [Hc' Hf]]. exists c'. split; [now right | assumption].
      * intros [c' [[<- | Hc'] Hf]]; [|now exists c'].
        apply (@graph_step_None include_coreq st c Hok) in Hf. congruence.
    + apply (@graph_step_None include_coreq st c Hok) in E.
      split; [|reflexivity]. intros _. exists c. split; [now left | exact E].
Qed.

Lemma nodes_ok_nil : nodes_ok [].
Proof. split; [constructor | intros n []]. Qed.

(** X11.  When [build_graph] returns, the nodes have distinct
    identifiers; they are the indices of the courses and the sources of
    the edges, and nothing else; both ends of every edge are nodes; and
    the subject of a node is the first word of an identifier with a
    space and absent for one without. *)
Theorem build_graph_well_formed :
  forall (courses : list graph_course) (include_coreq : bool)
         (nodes : list graph_node) (edges : list graph_edge),
    build_graph courses include_coreq = Some (nodes, edges) ->
    NoDup (map n_id nodes) /\
    (forall x, In x (map n_id nodes) <->
               (exists c, In c courses /\ g_index c = Some x) \/
               (exists e, In e edges /\ e_source e = x)) /\
    (forall e, In e edges ->
               In (e_source e) (map n_id nodes) /\
               In (e_target e) (map n_id nodes)) /\
    (forall n, In n nodes ->
               subject_of (n_id n) = Some (n_subject n)).
Proof.
  intros courses include_coreq nodes edges H. unfold build_graph in H.
  destruct (@graph_loop_Some include_coreq courses ([], []) (nodes, edges)
              nodes_ok_nil H) as [[Hnd Hsub] [He Hid]].
  cbn [fst snd app] in *.
  assert (Hedge : forall e, In e edges <->
                    exists c, In c courses /\ In e (edges_of include_coreq c)).
  { intros e. rewrite He. apply in_flat_map. }
  assert (Hx : forall x, In x (map n_id nodes) <->
                 (exists c, In c courses /\ g_index c = Some x) \/
                 (exists e, In e edges /\ e_source e = x)).
  { intros x. rewrite Hid. split.
    - intros [[] | [c [Hc [H1 | H1]]]].
      + left. now exists c.
      + right. apply in_map_iff in H1. destruct H1 as [e [Hs He']].
        exists e. split; [|assumption]. apply Hedge. now exists c.
    - intros [[c [Hc H1]] | [e [He' Hs]]].
      + right. exists c. auto.
      + apply Hedge in He'. destruct He' as [c [Hc He']].
        right. exists c. split; [assumption|]. right.
        apply in_map_iff. now exists e. }
  split; [assumption|]. split; [assumption|]. split; [|assumption].
  intros e Hin. split.
  - apply Hx. right. now exists e.
  - apply Hedge in Hin. destruct Hin as [c [Hc Hin]].
    apply Hx. left. exists c. split; [assumption|].
    unfold edges_of in Hin. destruct (g_index c) as [idx|]; [|contradiction].
    apply in_app_or in Hin. destruct Hin as [Hin | Hin].
    + apply in_map_iff in Hin. now destruct Hin as [pre [<- _]].
    + destruct include_coreq; [|contradiction].
      apply in_map_iff in Hin. now destruct Hin as [pre [<- _]].
Qed.

Lemma build_graph_well_formed_witness :
  NoDup [lit "CS 225"; lit "CS 125"; lit "MATH 231"].
Proof.
  refine (proj1 (@build_graph_well_formed
           [GraphCourse (Some (lit "CS 225")) (Some (lit "Data Structures"))
              (Some (PrerequisitesIn
                       (Some (OR [COURSE (lit "CS 125");
                                  COURSE (lit "CS 125")]))
                       (Some (COURSE (lit "MATH 231")))))]
           true
           [GraphNode (lit "CS 225") (lit "Data Structures") (Some (lit "CS"));
            GraphNode (lit "CS 125") (lit "CS 125") (Some (lit "CS"));
            GraphNode (lit "MATH 231") (lit "MATH 231") (Some (lit "MATH"))]
           [GraphEdge (lit "CS 125") (lit "CS 225") Hard;
            GraphEdge (lit "MATH 231") (lit "CS 225") Coreq] _)).
  vm_compute. reflexivity.
Defined.

(** X12.  The edges that [build_graph] returns are, course after
    course, one hard edge to the course from every course of its hard
    tree, then one coreq edge from every course of its coreq_ok tree;
    without [include_coreq] every edge is a hard one. *)
Theorem build_graph_edges :
  forall (courses : list graph_course) (include_coreq : bool)
         (nodes : list graph_node) (edges : list graph_edge),
    build_graph courses include_coreq = Some (nodes, edges) ->
    edges = flat_map (edges_of include_coreq) courses /\
    (include_coreq = false -> Forall (fun e => e_kind e = Hard) edges).
Proof.
  intros courses include_coreq nodes edges H. unfold build_graph in H.
  destruct (@graph_loop_Some include_coreq courses ([], []) (nodes, edges)
              nodes_ok_nil H) as [_ [He _]].
  cbn [fst snd app] in He. split; [assumption|].
  intros ->. rewrite He. apply Forall_forall. intros e Hin.
  apply in_flat_map in Hin. destruct Hin as [c [_ Hin]].
  unfold edges_of in Hin. destruct (g_index c) as [idx|]; [|contradiction].
  rewrite app_nil_r in Hin. apply in_map_iff in Hin.
  now destruct Hin as [pre [<- _]].
Qed.

Lemma build_graph_edges_witness :
  [GraphEdge (lit "CS 125") (lit "CS 225") Hard]
  = flat_map (edges_of false)
      [GraphCourse (Some (lit "CS 225")) None
         (Some (PrerequisitesIn (Some (COURSE (lit "CS 125")))
                                (Some (COURSE (lit "MATH 231")))))].
Proof.
  refine (proj1 (@build_graph_edges
           [GraphCourse (Some (lit "CS 225")) None
              (Some (PrerequisitesIn (Some (COURSE (lit "CS 125")))
                                     (Some (COURSE (lit "MATH 231")))))]
           false
           [GraphNode (lit "CS 225") (lit "CS 225") (Some (lit "CS"));
            GraphNode (lit "CS 125") (lit "CS 125") (Some (lit "CS"))]
           [GraphEdge (lit "CS 125") (lit "CS 225") Hard] _)).
  vm_compute. reflexivity.
Defined.

(** X13.  [build_graph] raises exactly when some course has no index, a
    blank index (a space and nothing but whitespace), or a blank course
    in a tree it reads; in every other case it returns. *)
Theorem build_graph_raises_iff :
  forall (courses : list graph_course) (include_coreq : bool),
    build_graph courses include_coreq = None <->
    exists c, In c courses /\ course_fails include_coreq c.
Proof.
  intros courses include_coreq. unfold build_graph.
  apply graph_loop_None. exact nodes_ok_nil.
Qed.

(** ** The graph of the parser's output *)

Lemma tree_ref_token (text ref : str) :
  In ref (course_refs (hard (parse_prereq_text text))
          ++ course_refs (coreq_ok (parse_prereq_text text))) ->
  token_from None text ref.
Proof.
  intros H. apply parse_text_refs in H. destruct H as [clause [Hcl Href]].
  pose proof (parse_clause_refs clause ref Href) as Hsrc. simpl in Hsrc.
  eapply token_of_clause; [exact Hcl|]. apply token_of_normalized.
  destruct Hsrc as [Hx | [seg [Hseg Hx]]].
  - now apply scanned_token.
  - eapply token_of_segment; [exact Hseg|]. now apply scanned_token.
Qed.

Lemma lstrip_prefix (s : str) :
  exists ws, s = ws ++ lstrip s /\ Forall (fun c => is_space c = true) ws.
Proof.
  induction s as [|c s IH]; simpl.
  - exists []. now split.
  - destruct (is_space c) eqn:E.
    + destruct IH as [ws [Hs Hws]]. exists (c :: ws).
      split; [simpl; now rewrite <- Hs | now constructor].
    + exists []. now split.
Qed.

Lemma token_of_strip (s ref : str) :
  token_from None (strip s) ref -> token_from None s ref.
Proof.
  unfold strip. intros H. apply token_of_rstrip in H.
  destruct (lstrip_prefix s) as [ws [Hs Hws]]. rewrite Hs.
  rewrite <- (app_nil_r (lstrip s)).
  apply (@token_from_embed None ws (lstrip s) [] ref); [|reflexivity].
  eapply token_from_context; [|exact H]. symmetry.
  apply (@last_of_seps is_space space_not_word ws None Hws eq_refl).
Qed.

Lemma parsed_edge_source (c : course_record) (include_coreq : bool)
  (e : graph_edge) :
  In e (edges_of include_coreq (graph_course_of c)) ->
  c_index c = Some (e_target e) /\
  token_from None (or_empty (c_prerequisites c)) (e_source e).
Proof.
  unfold edges_of, graph_course_of, pr_hard, pr_coreq, build_prerequisites.
  cbn [g_index g_prerequisites g_hard g_coreq_ok or_EMPTY p_hard p_coreq_ok].
  destruct (c_index c) as [idx|]; [|intros []].
  intros H.
  assert (Hsrc : e_target e = idx /\
                 In (e_source e)
                    (course_refs
                       (hard (parse_prereq_text
                                (strip (or_empty (c_prerequisites c)))))
                     ++ course_refs
                          (coreq_ok (parse_prereq_text
                                (strip (or_empty (c_prerequisites c))))))).
  { apply in_app_or in H. destruct H as [H | H].
    - apply in_map_iff in H. destruct H as [pre [<- Hp]].
      split; [reflexivity|]. apply in_or_app. left.
      now apply collect_courses_refs.
    - destruct include_coreq; [|contradiction].
      apply in_map_iff in H. destruct H as [pre [<- Hp]].
      split; [reflexivity|]. apply in_or_app. right.
      now apply collect_courses_refs. }
  destruct Hsrc as [-> Hsrc]. split; [reflexivity|].
  now apply token_of_strip, tree_ref_token.
Qed.

Lemma token_not_blank (s ref : str) : token_from None s ref -> ~ blank_id ref.
Proof.
  intros [pre [subj [ws [num [post [_ [H1 [_ [_ [-> _]]]]]]]]]] [_ Hb].
  apply Forall_app in Hb. destruct Hb as [Hb _].
  destruct (subject_nonspace H1) as [Hn Hne].
  destruct subj as [|x subj]; [congruence|].
  inversion Hb. inversion Hn. congruence.
Qed.

(** X14.  In the graph of the records that [build_final_parsed.py]
    writes, every edge of a course comes from a course token of its
    prerequisite text: the source is the subject code, one space and the
    catalog number of a token of the text, and the subject that
    [ensure_node] gives the source's node is that subject code. *)
Theorem parsed_graph_sources :
  forall (c : course_record) (include_coreq : bool) (e : graph_edge),
    In e (edges_of include_coreq (graph_course_of c)) ->
    c_index c = Some (e_target e) /\
    (exists i, token_at (or_empty (c_prerequisites c)) i (e_source e)) /\
    exists subj num,
      e_source e = subj ++ lit " " ++ num /\
      is_subject subj /\ is_number num /\
      subject_of (e_source e) = Some (Some subj).
Proof.
  intros c include_coreq e H. apply parsed_edge_source in H.
  destruct H as [Hi Ht]. split; [assumption|].
  split; [now apply token_from_at|].
  destruct Ht as [pre [subj [ws [num [post [_ [H1 [_ [H3 [-> _]]]]]]]]]].
  exists subj, num. split; [reflexivity|]. split; [assumption|].
  split; [assumption|]. now apply subject_of_ref.
Qed.

Lemma parsed_graph_sources_witness :
  c_index (CourseRecord (Some (lit "CS 225")) None None
                        (Some (lit "CS 125 or ECE 220")))
  = Some (lit "CS 225").
Proof.
  refine (proj1 (@parsed_graph_sources
                   (CourseRecord (Some (lit "CS 225")) None None
                                 (Some (lit "CS 125 or ECE 220")))
                   true
                   (GraphEdge (lit "ECE 220") (lit "CS 225") Hard) _)).
  vm_compute. right. left. reflexivity.
Defined.

(** X15.  On the records that [build_final_parsed.py] writes,
    [build_graph] raises only for a record without an index or with a
    blank one: the courses of the trees never make it raise. *)
Theorem parsed_graph_raises_iff :
  forall (courses : list course_record) (include_coreq : bool),
    build_graph (map graph_course_of courses) include_coreq = None <->
    exists c, In c courses /\
              (c_index c = None \/
               exists idx, c_index c = Some idx /\ blank_id idx).
Proof.
  intros courses include_coreq. unfold build_graph.
  rewrite (@graph_loop_None include_coreq (map graph_course_of courses)
             ([], []) nodes_ok_nil).
  split.
  - intros [g [Hg Hf]]. apply in_map_iff in Hg. destruct Hg as [c [<- Hc]].
    exists c. split; [assumption|]. unfold course_fails in Hf.
    change (g_index (graph_course_of c)) with (c_index c) in Hf.
    destruct (c_index c) as [idx|] eqn:E; [|now left].
    right. exists idx. split; [reflexivity|].
    destruct Hf as [Hf | [e [He Hb]]]; [assumption|].
    apply parsed_edge_source in He. destruct He as [_ He].
    now apply token_not_blank in He.
  - intros [c [Hc Hf]]. exists (graph_course_of c).
    split; [now apply in_map|]. unfold course_fails.
    change (g_index (graph_course_of c)) with (c_index c).
    destruct Hf as [-> | [idx [-> Hb]]]; [exact I | now left].
Qed.

(** ** The colour table *)

(** X16.  For a count [n] that is not negative, [palette] returns [n]
    colours, the colour at position [i] being the one at position
    [i mod 10] of the ten base colours. *)
Theorem palette_cycles :
  forall n : Z,
    (0 <= n)%Z ->
    length (palette n) = Z.to_nat n /\
    forall i, i < Z.to_nat n ->
              nth i (palette n) [] = nth (i mod 10) palette_base [].
Proof.
  intros n Hn. unfold palette.
  destruct (n <=? 10)%Z eqn:E.
  - apply Z.leb_le in E. apply Z.leb_le in Hn as Hn'. rewrite Hn'.
    assert (Hk : Z.to_nat n <= 10) by lia.
    assert (Hl : length palette_base = 10) by reflexivity.
    split.
    + rewrite length_firstn. lia.
    + intros i Hi. rewrite Nat.mod_small by lia.
      rewrite <- (firstn_skipn (Z.to_nat n) palette_base) at 2.
      rewrite app_nth1; [reflexivity|]. rewrite length_firstn. lia.
  - split.
    + now rewrite length_map, length_seq.
    + intros i Hi.
      rewrite (nth_indep _ [] (nth (0 mod 10) palette_base []))
        by now rewrite length_map, length_seq.
      rewrite (map_nth (fun i => nth (i mod 10) palette_base [])).
      now rewrite seq_nth.
Qed.

Lemma palette_cycles_witness :
  length (palette 12) = 12 /\
  forall i, i < 12 -> nth i (palette 12) [] = nth (i mod 10) palette_base [].
Proof.
  apply (@palette_cycles 12%Z). lia.
Defined.

(** ** The none-texts *)

(** A successful repetition of a class has consumed a run of characters
    of the class, within its bounds. *)
Lemma run_rep_cls_inv (p : ascii -> bool) (lo : nat) (hi : option nat)
  (c : cursor) (k : cont) (e : cursor) :
  le_opt lo hi ->
  run (Rep (Cls p) lo hi) c k = Some e ->
  exists w r,
    rest c = w ++ r /\
    Forall (fun x => p x = true) w /\
    lo <= length w /\
    match hi with Some h => length w <= h | None => True end /\
    k (Cursor (pos c + length w) (last_of w (prev c)) r (caps c)) = Some e.
Proof.
  intros Hle H. rewrite run_rep_cls in H by assumption. cbv zeta in H.
  destruct (lo <=? min_opt hi (run_length p (rest c))) eqn:L; [|discriminate].
  apply Nat.leb_le in L. apply first_down_inv in H.
  destruct H as [j [Hj H]].
  assert (Hn : j <= run_length p (rest c)).
  { destruct hi as [h|]; simpl in L, Hj; lia. }
  destruct (@run_length_firstn p (rest c) j Hn) as [Hall Hlen].
  exists (firstn j (rest c)), (skipn j (rest c)).
  split; [now rewrite firstn_skipn|]. split; [assumption|].
  rewrite Hlen. split; [lia|]. split.
  - destruct hi as [h|]; [|exact I]. simpl in L, Hj. lia.
  - exact H.
Qed.

Lemma run_Bos (c : cursor) (k : cont) :
  run Bos c k = if pos c =? 0 then k c else None.
Proof. reflexivity. Qed.

Lemma run_Eos (c : cursor) (k : cont) :
  run Eos c k = if at_end (rest c) then k c else None.
Proof. reflexivity. Qed.

Lemma ieqb_lower (x y : ascii) :
  ieqb x y = true -> lower_char y = lower_char x.
Proof. unfold ieqb. intros H. apply Ascii.eqb_eq in H. now symmetry. Qed.

(** What the third pattern finds is a "prerequisite(s): none" phrase. *)
Lemma found_NONE_RE_3_inv (s : str) :
  found NONE_RE_3 s = true -> none_phrase s.
Proof.
  rewrite found_spec. intros [pre [post [-> Hm]]]. unfold match_here in Hm.
  destruct (run NONE_RE_3 (Cursor (length pre) (last_of pre None) post [])
                Some) as [e|] eqn:E; [clear Hm | congruence].
  unfold NONE_RE_3, itext in E.
  rewrite run_Cat, run_itext in E. cbn [rest prev pos caps] in E.
  destruct (eat ieqb (lit "prerequisite") post (last_of pre None))
    as [[p1 t1]|] eqn:E1; [|discriminate].
  apply eat_ieqb_spec in E1. destruct E1 as [m [-> [Hm _]]].
  unfold opt in E. change (ichr "s") with (Cls (ieqb "s")) in E.
  rewrite run_Cat in E. apply run_rep_cls_inv in E; [|simpl; lia].
  destruct E as [sx [t2 [Ht1 [Hsx [_ [Lsx E]]]]]].
  cbn [rest prev pos caps] in Ht1, E. subst t1.
  rewrite run_Cat in E. unfold chr in E. rewrite run_Cls in E.
  cbn [rest] in E. destruct t2 as [|x t3]; [discriminate|].
  destruct (Ascii.eqb ":" x) eqn:Ex; [|discriminate].
  apply Ascii.eqb_eq in Ex. subst x.
  unfold star in E. rewrite run_Cat in E.
  apply run_rep_cls_inv in E; [|exact I].
  destruct E as [ws [t4 [Ht3 [Hws [_ [_ E]]]]]].
  cbn [advance rest prev pos caps] in Ht3, E. subst t3.
  rewrite run_Cat, run_itext in E. cbn [rest prev pos caps] in E.
  destruct (eat ieqb (lit "none") t4 (last_of ws (Some ":"%char)))
    as [[p5 t5]|] eqn:E5; [|discriminate].
  apply eat_ieqb_spec in E5. destruct E5 as [n [-> [Hn Hp5]]].
  rewrite run_Bnd in E. cbn [rest prev] in E.
  destruct (at_boundary p5 t5) eqn:B; [|discriminate].
  exists pre, m, sx, ws, n, t5.
  split; [reflexivity|]. split; [exact Hm|]. split.
  - destruct sx as [|y [|y' sx']]; [now left | right | simpl in Lsx; lia].
    inversion Hsx as [|? ? Hy _]. apply ieqb_lower in Hy.
    simpl. now rewrite Hy.
  - split; [assumption|]. split; [exact Hn|].
    destruct n as [|n1 [|n2 [|n3 [|n4 [|n5 n']]]]]; try discriminate.
    simpl in Hp5. subst p5. unfold at_boundary in B. simpl in B.
    simpl in Hn. injection Hn as _ _ _ Hn4.
    assert (Hw : is_word n4 = true)
      by (rewrite <- is_word_lower, Hn4; reflexivity).
    rewrite Hw in B. simpl in B. now destruct (word_after t5).
Qed.

(** What the first pattern finds is "none", an optional full stop, and
    whitespace around them. *)
Lemma found_NONE_RE_1_inv (s : str) :
  found NONE_RE_1 s = true ->
  exists ws1 n dots ws2,
    s = ws1 ++ n ++ dots ++ ws2 /\
    Forall (fun c => is_space c = true) ws1 /\
    lower n = lit "none" /\
    (dots = [] \/ dots = lit ".") /\
    Forall (fun c => is_space c = true) ws2.
Proof.
  rewrite found_spec. intros [pre [post [-> Hm]]]. unfold match_here in Hm.
  destruct (run NONE_RE_1 (Cursor (length pre) (last_of pre None) post [])
                Some) as [e|] eqn:E; [clear Hm | congruence].
  unfold NONE_RE_1 in E. rewrite run_Cat, run_Bos in E. cbn [pos] in E.
  destruct (length pre =? 0) eqn:L; [|discriminate].
  apply Nat.eqb_eq in L. destruct pre; [clear L | simpl in L; discriminate].
  unfold star in E. rewrite run_Cat in E.
  apply run_rep_cls_inv in E; [|exact I].
  destruct E as [ws1 [t1 [Hp [Hws1 [_ [_ E]]]]]].
  cbn [rest prev pos caps] in Hp, E. subst post.
  unfold itext in E. rewrite run_Cat, run_itext in E.
  cbn [rest prev pos caps] in E.
  destruct (eat ieqb (lit "none") t1 _)
    as [[p2 t2]|] eqn:E2; [|discriminate].
  apply eat_ieqb_spec in E2. destruct E2 as [n [-> [Hn _]]].
  unfold opt, chr in E. rewrite run_Cat in E.
  apply run_rep_cls_inv in E; [|simpl; lia].
  destruct E as [dots [t3 [Ht2 [Hd [_ [Ld E]]]]]].
  cbn [rest prev pos caps] in Ht2, E. subst t2.
  rewrite run_Cat in E. apply run_rep_cls_inv in E; [|exact I].
  destruct E as [ws3 [t4 [Ht3 [Hws3 [_ [_ E]]]]]].
  cbn [rest prev pos caps] in Ht3, E. subst t3.
  rewrite run_Eos in E. cbn [rest] in E.
  destruct (at_end t4) eqn:Ee; [|discriminate].
  exists ws1, n, dots, (ws3 ++ t4). simpl.
  split; [reflexivity|]. split; [assumption|]. split; [exact Hn|]. split.
  - destruct dots as [|d [|d' dots']]; [now left | right | simpl in Ld; lia].
    inversion Hd as [|? ? Hx _]. apply Ascii.eqb_eq in Hx. now subst d.
  - apply Forall_app. split; [assumption|].
    destruct t4 as [|x [|y t']]; [constructor | | discriminate].
    simpl in Ee. apply Nat.eqb_eq in Ee. constructor; [|constructor].
    unfold code in Ee.
    rewrite <- (ascii_nat_embedding x), Ee. reflexivity.
Qed.

Lemma lstrip_head (s : str) :
  match lstrip s with
  | x :: _ => is_space x = false
  | [] => True
  end.
Proof.
  induction s as [|c s IH]; simpl; [exact I|].
  destruct (is_space c) eqn:E; [exact IH | exact E].
Qed.

Lemma rstrip_head (s : str) :
  match s with
  | x :: _ => is_space x = false
  | [] => True
  end ->
  match rstrip s with
  | x :: _ => is_space x = false
  | [] => True
  end.
Proof.
  destruct s as [|c s]; [auto|]. simpl. intros H.
  destruct (rstrip s); [now rewrite H | exact H].
Qed.

Lemma strip_parts (t : str) :
  exists ws1 ws2,
    t = ws1 ++ strip t ++ ws2 /\
    Forall (fun c => is_space c = true) ws1 /\
    Forall (fun c => is_space c = true) ws2.
Proof.
  destruct (lstrip_prefix t) as [ws1 [H1 Hw1]].
  destruct (rstrip_prefix (lstrip t)) as [ws2 [H2 Hw2]].
  exists ws1, ws2. unfold strip. rewrite <- H2. now repeat split.
Qed.

(** On a stripped text the first pattern finds only "none" and
    "none.", in any case. *)
Lemma found_NONE_RE_1_strip (t : str) :
  found NONE_RE_1 (strip t) = true ->
  lower (strip t) = lit "none" \/ lower (strip t) = lit "none.".
Proof.
  intros H. apply found_NONE_RE_1_inv in H.
  destruct H as [ws1 [n [dots [ws2 [Hs [Hw1 [Hn [Hd Hw2]]]]]]]].
  destruct n as [|n1 n']; [discriminate|].
  assert (Hn1 : is_space n1 = false).
  { rewrite <- is_space_lower. simpl in Hn. injection Hn as -> _.
    reflexivity. }
  assert (E1 : ws1 = []).
  { destruct ws1 as [|y ws1']; [reflexivity|].
    pose proof (rstrip_head (lstrip t) (lstrip_head t)) as Hh.
    fold (strip t) in Hh. rewrite Hs in Hh. simpl in Hh.
    inversion Hw1. congruence. }
  subst ws1. simpl in Hs.
  assert (E2 : ws2 = []).
  { destruct ws2 as [|y0 ws0]; [reflexivity|].
    destruct (@exists_last _ (y0 :: ws0)) as [ws' [y Hy]]; [discriminate|].
    rewrite Hy in Hs, Hw2. apply Forall_app in Hw2.
    destruct Hw2 as [_ Hw2]. inversion Hw2 as [|? ? Hy' _].
    assert (Hl : strip t = (n1 :: n' ++ dots ++ ws') ++ [y]).
    { rewrite Hs. simpl. now rewrite <- !app_assoc. }
    unfold strip in Hl. apply rstrip_last in Hl. congruence. }
  subst ws2. rewrite app_nil_r in Hs. rewrite Hs.
  change (n1 :: n' ++ dots) with ((n1 :: n') ++ dots).
  rewrite lower_app, Hn.
  destruct Hd as [-> | ->]; [left; now rewrite app_nil_r | right; reflexivity].
Qed.

Lemma lower_char_cases (c : ascii) :
  (lower_char c = "n"%char -> c = "n"%char \/ c = "N"%char) /\
  (lower_char c = "o"%char -> c = "o"%char \/ c = "O"%char) /\
  (lower_char c = "e"%char -> c = "e"%char \/ c = "E"%char) /\
  (lower_char c = "."%char -> c = "."%char).
Proof.
  destruct c as [[] [] [] [] [] [] [] []]; vm_compute;
    repeat split; intros H; try discriminate H; auto.
Qed.

Lemma found_NONE_RE_1_none (s : str) :
  lower s = lit "none" \/ lower s = lit "none." ->
  found NONE_RE_1 s = true.
Proof.
  intros [H | H].
  - destruct s as [|c1 [|c2 [|c3 [|c4 [|c5 s']]]]]; try discriminate.
    simpl in H. injection H as H1 H2 H3 H4.
    apply lower_char_cases in H1, H2, H3, H4.
    destruct H1 as [-> | ->], H2 as [-> | ->], H3 as [-> | ->],
      H4 as [-> | ->]; vm_compute; reflexivity.
  - destruct s as [|c1 [|c2 [|c3 [|c4 [|c5 [|c6 s']]]]]]; try discriminate.
    simpl in H. injection H as H1 H2 H3 H4 H5.
    apply lower_char_cases in H1, H2, H3, H4, H5.
    destruct H1 as [-> | ->], H2 as [-> | ->], H3 as [-> | ->],
      H4 as [-> | ->]; subst c5; vm_compute; reflexivity.
Qed.

Lemma none_phrase_of_strip (t : str) : none_phrase (strip t) -> none_phrase t.
Proof.
  intros [pre [p [sx [ws [n [post [Hs [Hp [Hsx [Hws [Hn Hpost]]]]]]]]]]].
  destruct (strip_parts t) as [ws1 [ws2 [Ht [Hw1 Hw2]]]].
  exists (ws1 ++ pre), p, sx, ws, n, (post ++ ws2).
  split.
  - rewrite Ht, Hs. now rewrite <- !app_assoc.
  - repeat (split; [assumption|]).
    apply word_after_app; [assumption | now apply spaces_not_word].
Qed.

(** X17.  [is_none_text] holds exactly for the texts that, stripped and
    lowercased, are "none" or "none.", and for the texts with one of the
    two negative phrasings anywhere in them. *)
Theorem is_none_text_iff :
  forall t : str,
    is_none_text t = true <->
    lower (strip t) = lit "none" \/
    lower (strip t) = lit "none." \/
    negative_phrasing t.
Proof.
  intros t. split.
  - unfold is_none_text, NONE_PATTERNS. cbn [existsb]. cbv zeta.
    rewrite orb_false_r, !orb_true_iff.
    intros [H | [H | H]].
    + apply found_NONE_RE_1_strip in H. tauto.
    + right. right. left. rewrite found_NONE_RE_2 in H.
      apply contains_spec in H.
      destruct (strip_parts t) as [ws1 [ws2 [Ht _]]].
      rewrite Ht, !lower_app. now apply substring_app.
    + right. right. right.
      now apply none_phrase_of_strip, found_NONE_RE_3_inv.
  - intros [H | [H | H]].
    + unfold is_none_text, NONE_PATTERNS. cbn [existsb]. cbv zeta.
      rewrite found_NONE_RE_1_none by now left. reflexivity.
    + unfold is_none_text, NONE_PATTERNS. cbn [existsb]. cbv zeta.
      rewrite found_NONE_RE_1_none by now right. reflexivity.
    + now apply is_none_text_phrasing.
Qed.

(** ** The scanner finds every token *)

(** A run of characters of a class that stops where the class stops is
    determined by the text. *)
Lemma run_split (P : ascii -> bool) (a : str) :
  forall (a' r r' : str),
    Forall (fun c => P c = true) a ->
    Forall (fun c => P c = true) a' ->
    a ++ r = a' ++ r' ->
    (forall x r0, r = x :: r0 -> P x = false) ->
    (forall x r0, r' = x :: r0 -> P x = false) ->
    a = a' /\ r = r'.
Proof.
  induction a as [|x a IH]; intros a' r r' Ha Ha' E Hr Hr'.
  - destruct a' as [|y a']; [now split|]. simpl in E.
    inversion Ha' as [|? ? Hy _]. rewrite (Hr y (a' ++ r') E) in Hy.
    discriminate.
  - destruct a' as [|y a'].
    + simpl in E. inversion Ha as [|? ? Hx _].
      rewrite (Hr' x (a ++ r) (eq_sym E)) in Hx. discriminate.
    + simpl in E. injection E as <- E.
      inversion Ha. inversion Ha'.
      destruct (IH a' r r') as [-> ->]; auto.
Qed.

Lemma upper_not_digit (c : ascii) : is_upper c = true -> is_digit c = false.
Proof.
  intros H. destruct (is_digit c) eqn:E; [|reflexivity].
  apply digit_not_upper in E. congruence.
Qed.

Lemma nonword_not_digit (c : ascii) : is_word c = false -> is_digit c = false.
Proof.
  intros H. destruct (is_digit c) eqn:E; [|reflexivity].
  apply digit_is_word in E. congruence.
Qed.

Lemma number_head (num post : str) :
  is_number num ->
  exists d r, num ++ post = d :: r /\ is_digit d = true.
Proof.
  intros [ds [sfx [-> [L [Hd _]]]]].
  destruct ds as [|d ds']; [simpl in L; lia|].
  exists d, ((ds' ++ sfx) ++ post). split; [reflexivity|]. now inversion Hd.
Qed.

(** At most one token starts at a place: the subject code, the
    whitespace and the number are determined by the text. *)
Lemma token_parts_unique (subj ws num post subj' ws' num' post' : str) :
  subj ++ ws ++ num ++ post = subj' ++ ws' ++ num' ++ post' ->
  is_subject subj -> Forall (fun c => is_space c = true) ws ->
  is_number num -> word_after post = false ->
  is_subject subj' -> Forall (fun c => is_space c = true) ws' ->
  is_number num' -> word_after post' = false ->
  subj = subj' /\ ws = ws' /\ num = num'.
Proof.
  intros E [_ Hs] Hw Hn Hp [_ Hs'] Hw' Hn' Hp'.
  assert (Hhead : forall (w n p : str),
             Forall (fun c => is_space c = true) w -> is_number n ->
             forall x r0, w ++ n ++ p = x :: r0 -> is_upper x = false).
  { intros w n p Hww Hnn x r0 Hx. destruct w as [|y w'].
    - destruct (number_head p Hnn) as [d [r [Hd Hdd]]].
      simpl in Hx. rewrite Hd in Hx. injection Hx as <- _.
      now apply digit_not_upper.
    - simpl in Hx. injection Hx as <- _. inversion Hww as [|? ? Hy _].
      destruct (is_upper y) eqn:Eu; [|reflexivity].
      apply upper_not_space in Eu. congruence. }
  destruct (@run_split is_upper subj subj' (ws ++ num ++ post)
              (ws' ++ num' ++ post') Hs Hs' E
              (Hhead ws num post Hw Hn) (Hhead ws' num' post' Hw' Hn'))
    as [-> E1].
  split; [reflexivity|].
  assert (Hhead2 : forall (n p : str),
             is_number n ->
             forall x r0, n ++ p = x :: r0 -> is_space x = false).
  { intros n p Hnn x r0 Hx.
    destruct (number_head p Hnn) as [d [r [Hd Hdd]]].
    rewrite Hd in Hx. injection Hx as <- _. now apply digit_not_space. }
  destruct (@run_split is_space ws ws' (num ++ post) (num' ++ post')
              Hw Hw' E1 (Hhead2 num post Hn) (Hhead2 num' post' Hn'))
    as [-> E2].
  split; [reflexivity|].
  destruct Hn as [ds [sfx [-> [_ [Hd Hsfx]]]]].
  destruct Hn' as [ds' [sfx' [-> [_ [Hd' Hsfx']]]]].
  rewrite <- !app_assoc in E2.
  assert (Hhead3 : forall (sf p : str),
             (sf = [] \/ exists u, sf = [u] /\ is_upper u = true) ->
             word_after p = false ->
             forall x r0, sf ++ p = x :: r0 -> is_digit x = false).
  { intros sf p Hsf Hpp x r0 Hx. destruct Hsf as [-> | [u [-> Hu]]].
    - simpl in Hx. subst p. simpl in Hpp. now apply nonword_not_digit.
    - simpl in Hx. injection Hx as <- _. now apply upper_not_digit. }
  destruct (@run_split is_digit ds ds' (sfx ++ post) (sfx' ++ post')
              Hd Hd' E2 (Hhead3 sfx post Hsfx Hp)
              (Hhead3 sfx' post' Hsfx' Hp'))
    as [-> E3].
  f_equal.
  destruct Hsfx as [-> | [u [-> Hu]]], Hsfx' as [-> | [u' [-> Hu']]].
  - reflexivity.
  - simpl in E3. subst post. simpl in Hp.
    apply upper_is_word in Hu'. congruence.
  - simpl in E3. subst post'. simpl in Hp'.
    apply upper_is_word in Hu. congruence.
  - simpl in E3. now injection E3 as ->.
Qed.

(** Two adjacent characters of a concatenation lie in the first part,
    across the seam, or in the second part. *)
Lemma adjacent_app (l1 l2 a : str) (y c : ascii) (b : str) :
  l1 ++ l2 = a ++ y :: c :: b ->
  (exists b1, l1 = a ++ y :: c :: b1) \/
  (l1 = a ++ [y] /\ l2 = c :: b) \/
  (exists a2, l2 = a2 ++ y :: c :: b).
Proof.
  revert a. induction l1 as [|x l1 IH]; intros a E.
  - right. right. now exists a.
  - destruct a as [|z a].
    + simpl in E. injection E as -> E. destruct l1 as [|x' l1'].
      * right. left. simpl in E. now split.
      * simpl in E. injection E as -> E. left. now exists l1'.
    + simpl in E. injection E as -> E.
      destruct (IH a E) as [[b1 ->] | [[-> ->] | [a2 ->]]].
      * left. now exists b1.
      * right. left. now split.
      * right. right. now exists a2.
Qed.

(** Inside the text of a token no capital letter comes after a
    character that is no word character. *)
Lemma token_no_inner_start (subj ws num a : str) (y c : ascii) (b : str) :
  is_subject subj -> Forall (fun x => is_space x = true) ws ->
  is_number num ->
  subj ++ ws ++ num = a ++ y :: c :: b ->
  is_upper c = true -> is_word y = true.
Proof.
  intros [_ Hs] Hw [ds [sfx [-> [L [Hd Hsfx]]]]] E Hc.
  rewrite Forall_forall in Hs, Hw, Hd.
  apply adjacent_app in E. destruct E as [[b1 ->] | [[-> E] | [a2 E]]].
  - apply upper_is_word, Hs, in_or_app. right. now left.
  - apply upper_is_word, Hs, in_or_app. right. now left.
  - apply adjacent_app in E. destruct E as [[b1 ->] | [[-> E] | [a3 E]]].
    + assert (Hsp : is_space c = true)
        by (apply Hw, in_or_app; right; right; now left).
      apply upper_not_space in Hc. congruence.
    + destruct ds as [|d ds']; [simpl in L; lia|].
      simpl in E. injection E as <- _.
      assert (Hdd : is_digit d = true) by (apply Hd; now left).
      apply digit_not_upper in Hdd. congruence.
    + apply adjacent_app in E. destruct E as [[b1 ->] | [[-> E] | [a4 E]]].
      * assert (Hdd : is_digit c = true)
          by (apply Hd, in_or_app; right; right; now left).
        apply digit_not_upper in Hdd. congruence.
      * apply digit_is_word, Hd, in_or_app. right. now left.
      * destruct Hsfx as [-> | [u [-> _]]].
        -- now destruct a4.
        -- destruct a4 as [|? [|? ?]]; discriminate.
Qed.

(** A token that starts after the start of another one starts at or
    after its end. *)
Lemma token_no_overlap (tokA postA pre subj rest : str) (p : option ascii)
  (subjA wsA numA : str) :
  tokA = subjA ++ wsA ++ numA ->
  is_subject subjA -> Forall (fun x => is_space x = true) wsA ->
  is_number numA ->
  tokA ++ postA = pre ++ subj ++ rest ->
  pre <> [] ->
  is_subject subj ->
  word_before (last_of pre p) = false ->
  length tokA <= length pre.
Proof.
  intros -> HsA HwA HnA E Hpre Hs Hb.
  destruct (Nat.le_gt_cases (length (subjA ++ wsA ++ numA)) (length pre))
    as [Hle | Hgt]; [assumption|]. exfalso.
  destruct (@exists_last _ pre Hpre) as [a [y ->]].
  rewrite last_of_snoc in Hb. simpl in Hb.
  destruct Hs as [Ls Us]. destruct subj as [|c subj']; [simpl in Ls; lia|].
  inversion Us as [|? ? Hc _].
  assert (Hsplit : exists b, subjA ++ wsA ++ numA = a ++ y :: c :: b).
  { assert (E2 : (subjA ++ wsA ++ numA) ++ postA
                 = (a ++ [y; c]) ++ subj' ++ rest).
    { rewrite E, <- !app_assoc. reflexivity. }
    rewrite length_app in Hgt. simpl in Hgt.
    assert (Hf : firstn (length a + 2) ((subjA ++ wsA ++ numA) ++ postA)
                 = a ++ [y; c]).
    { rewrite E2, firstn_app, length_app. simpl length.
      rewrite Nat.sub_diag. simpl firstn at 2. rewrite app_nil_r.
      apply firstn_all2. rewrite length_app. simpl. lia. }
    rewrite firstn_app in Hf.
    replace (length a + 2 - length (subjA ++ wsA ++ numA)) with 0 in Hf
      by lia.
    simpl firstn at 2 in Hf. rewrite app_nil_r in Hf.
    exists (skipn (length a + 2) (subjA ++ wsA ++ numA)).
    rewrite <- (firstn_skipn (length a + 2) (subjA ++ wsA ++ numA)) at 1.
    rewrite Hf. now rewrite <- app_assoc. }
  destruct Hsplit as [b Hsplit].
  assert (Hy : is_word y = true).
  { eapply (@token_no_inner_start subjA wsA numA a y c b); eauto. }
  congruence.
Qed.

Lemma scan_complete (s : str) :
  forall (skip n : nat) (p : option ascii) (pre subj ws num post : str),
    s = pre ++ subj ++ ws ++ num ++ post ->
    skip <= length pre ->
    is_subject subj ->
    Forall (fun c => is_space c = true) ws ->
    is_number num ->
    word_before (last_of pre p) = false ->
    word_after post = false ->
    exists m,
      In m (scan COURSE_RE skip n p s) /\
      match_here COURSE_RE (n + length pre) (last_of pre p)
                 (subj ++ ws ++ num ++ post) = Some m.
Proof.
  induction s as [|x t IH];
    intros skip n p pre subj ws num post E Hk Hs Hw Hn Hb Ha.
  - destruct pre; [|discriminate]. destruct subj; [|discriminate].
    destruct Hs as [L _]. simpl in L. lia.
  - destruct pre as [|y pre'].
    + simpl in Hk. assert (skip = 0) by lia. subst skip.
      simpl in E. rewrite <- E. simpl last_of. simpl length.
      rewrite Nat.add_0_r.
      pose proof (@course_match_complete n p subj ws num post
                    Hs Hw Hn Hb Ha) as Hm.
      rewrite <- E in Hm. cbn [scan].
      destruct (match_here COURSE_RE n p (x :: t)) as [m|]; [|congruence].
      exists m. split; [now left | reflexivity].
    + simpl in E. injection E as -> E.
      assert (Hrec : forall k, k <= length pre' ->
                exists m,
                  In m (scan COURSE_RE k (S n) (Some y) t) /\
                  match_here COURSE_RE (n + length (y :: pre'))
                             (last_of (y :: pre') p)
                             (subj ++ ws ++ num ++ post) = Some m).
      { intros k Hk'.
        destruct (IH k (S n) (Some y) pre' subj ws num post E Hk' Hs Hw Hn
                     Hb Ha) as [m [Hin Hm]].
        exists m. split; [assumption|]. simpl length.
        now rewrite Nat.add_succ_r. }
      destruct skip as [|k]; cbn [scan].
      * destruct (match_here COURSE_RE n p (y :: t)) as [m0|] eqn:E0.
        -- assert (Hend : m_end m0 - n - 1 <= length pre').
           { apply course_match_sound in E0.
             destruct E0 as [subjA [wsA [numA [postA
                               [EA [HsA [HwA [HnA [_ [_ ->]]]]]]]]]].
             cbn [m_end].
             assert (Hov : length (subjA ++ wsA ++ numA)
                           <= length (y :: pre')).
             { apply (@token_no_overlap (subjA ++ wsA ++ numA) postA
                        (y :: pre') subj (ws ++ num ++ post) p
                        subjA wsA numA); auto.
               - rewrite <- !app_assoc. rewrite <- EA. simpl. now rewrite E.
               - discriminate. }
             rewrite !length_app in Hov. simpl in Hov. lia. }
           destruct (Hrec _ Hend) as [m [Hin Hm]].
           exists m. split; [now right | assumption].
        -- destruct (Hrec 0 (Nat.le_0_l _)) as [m [Hin Hm]].
           exists m. split; assumption.
      * simpl in Hk. destruct (Hrec k) as [m [Hin Hm]]; [lia|].
        exists m. split; assumption.
Qed.

Lemma token_at_scanned (t : str) (i : nat) (ref : str) :
  token_at t i ref ->
  exists x, In x (find_course_spans t) /\ span_start x = i /\
            span_course x = ref.
Proof.
  intros [pre [subj [ws [num [post [E [Hi [Hs [Hw [Hn [Hr [Hb Ha]]]]]]]]]]]].
  destruct (@scan_complete t 0 0 None pre subj ws num post E (Nat.le_0_l _)
              Hs Hw Hn Hb Ha) as [m [Hin Hm]].
  exists (group 1 m t ++ lit " " ++ group 2 m t, m_start m, m_end m).
  split.
  - unfold find_course_spans. apply in_map_iff. now exists m.
  - apply course_match_sound in Hm.
    destruct Hm as [subj' [ws' [num' [post' [E' [Hs' [Hw' [Hn' [_ [Ha' ->]]]]]]]]]].
    destruct (@token_parts_unique subj ws num post subj' ws' num' post'
                E' Hs Hw Hn Ha Hs' Hw' Hn' Ha') as [<- [<- <-]].
    unfold span_start, span_course, group.
    cbn [fst snd m_start m_caps find].
    change (2 =? 1) with false. change (1 =? 1) with true. cbv iota.
    split; [simpl; lia|]. rewrite Hr, E. f_equal.
    + apply slice_app.
    + f_equal.
      replace (pre ++ subj ++ ws ++ num ++ post)
        with ((pre ++ subj ++ ws) ++ num ++ post)
        by (now rewrite <- !app_assoc).
      replace (0 + length pre + length subj + length ws)
        with (length (pre ++ subj ++ ws))
        by (rewrite !length_app; lia).
      apply slice_app.
Qed.

(** X18.  The scanner returns exactly the course tokens of the text: a
    reference is returned with a start offset if and only if a token
    with that reference starts at that offset; and at most one token
    starts at an offset. *)
Theorem find_course_spans_exact :
  forall (t : str) (i : nat) (ref : str),
    ((exists x, In x (find_course_spans t) /\ span_start x = i /\
                span_course x = ref) <->
     token_at t i ref) /\
    (forall ref', token_at t i ref -> token_at t i ref' -> ref = ref').
Proof.
  intros t i ref. split; [split|].
  - intros [x [Hx [<- <-]]]. now apply find_course_spans_sound.
  - apply token_at_scanned.
  - intros ref'
      [pre [subj [ws [num [post [E [Hi [Hs [Hw [Hn [Hr [Hb Ha]]]]]]]]]]]]
      [pre' [subj' [ws' [num' [post' [E' [Hi' [Hs' [Hw' [Hn' [Hr' [Hb' Ha']]]]]]]]]]]].
    rewrite E in E'.
    apply app_inv_length in E'; [|congruence].
    destruct E' as [_ E'].
    destruct (@token_parts_unique subj ws num post subj' ws' num' post'
                E' Hs Hw Hn Ha Hs' Hw' Hn' Ha') as [<- [<- <-]].
    congruence.
Qed.

(** ** No token is lost *)

Lemma scanned_iff_token (src ref : str) :
  scanned src ref <-> token_from None src ref.
Proof.
  split; [apply scanned_token|]. intros H. apply token_from_at in H.
  destruct H as [i H]. apply token_at_scanned in H.
  destruct H as [x [Hx [_ Hr]]]. now exists x.
Qed.

Lemma scanned_refs (src ref : str) :
  scanned src ref <-> In ref (map span_course (find_course_spans src)).
Proof.
  unfold scanned. rewrite in_map_iff. split; intros [x H]; exists x; tauto.
Qed.

Lemma segment_group_complete (seg ref : str) :
  scanned seg ref ->
  exists g, segment_group seg = Some g /\ In ref (course_refs g).
Proof.
  intros H. apply scanned_refs in H. unfold segment_group.
  destruct (find_course_spans seg) as [|c l] eqn:E; [contradiction|].
  rewrite <- E in *. rewrite <- course_refs_leaves in H.
  destruct (found AND_RE (lower seg) && negb (found OR_RE (lower seg)));
    [|destruct (found OR_RE (lower seg) && negb (found AND_RE (lower seg)))];
    eexists; (split; [reflexivity | exact H]).
Qed.

Lemma segment_of_clause_token (cc ref : str) :
  token_from None cc ref ->
  exists seg, In seg (comma_segments cc) /\ token_from None seg ref.
Proof.
  intros H.
  apply (@token_in_some_piece (Ascii.eqb ",") comma_not_word comma_not_space)
    in H.
  destruct H as [piece [Hp Ht]]. apply token_normalized in Ht.
  exists (normalize_space piece). split; [|exact Ht].
  unfold comma_segments. apply in_map. apply filter_In. split.
  - unfold COMMAS_RE, chr. now rewrite split_plus_cls.
  - destruct (normalize_space piece); [|reflexivity].
    now apply token_nonempty in Ht.
Qed.

Lemma parse_mixed_complete (cc ref : str) :
  scanned cc ref ->
  In ref (course_refs (parse_mixed cc (find_course_spans cc))).
Proof.
  intros H. unfold parse_mixed. rewrite collect_subitems_spec. simpl app.
  assert (Hin : In ref (flat_map course_refs
                          (segment_groups (comma_segments cc)))).
  { apply scanned_iff_token, segment_of_clause_token in H.
    destruct H as [seg [Hseg Ht]]. apply scanned_iff_token in Ht.
    apply segment_group_complete in Ht. destruct Ht as [g [Hg Hr]].
    apply in_flat_map. exists g. split; [|assumption].
    apply segment_groups_In. now exists seg. }
  destruct (segment_groups (comma_segments cc)) as [|g gs];
    [contradiction|].
  destruct (negb (count_op is_and (g :: gs) =? 0)
            && (count_op is_or (g :: gs) =? 0));
    [|destruct (negb (count_op is_or (g :: gs) =? 0)
                && (count_op is_and (g :: gs) =? 0))];
    exact Hin.
Qed.

Lemma parse_by_connectors_complete (cc ref : str) :
  scanned cc ref ->
  In ref (course_refs (parse_by_connectors cc (find_course_spans cc))).
Proof.
  intros H. pose proof (proj1 (scanned_refs cc ref) H) as Hl.
  rewrite <- course_refs_leaves in Hl.
  unfold parse_by_connectors.
  destruct (has K_AND (connectors_of cc (find_course_spans cc))),
    (has K_OR (connectors_of cc (find_course_spans cc))),
    (has K_LIST (connectors_of cc (find_course_spans cc))); simpl;
    try exact Hl; try (now apply parse_mixed_complete);
    rewrite course_refs_and_or_single; exact Hl.
Qed.

Lemma parse_clause_complete (clause ref : str) :
  scanned (normalize_space clause) ref ->
  In ref (course_refs (parse_clause_into_group clause)).
Proof.
  intros H. unfold parse_clause_into_group. cbv zeta.
  pose proof (parse_by_connectors_complete H) as Hpc.
  destruct H as [x [Hx Hr]].
  destruct (find_course_spans (normalize_space clause)) as [|c0 cs0] eqn:Hc;
    [contradiction|].
  rewrite <- Hc in *.
  destruct (search ONE_OF_RE (normalize_space clause)) as [m|];
    [|exact Hpc].
  destruct (map span_course
              (filter (fun y => m_end m <=? span_start y)
                      (find_course_spans (normalize_space clause))))
    as [|y ys] eqn:E; [exact Hpc|].
  rewrite <- E. rewrite course_refs_and_or_single, flat_map_app.
  rewrite course_refs_courses. simpl. rewrite course_refs_courses, app_nil_r.
  apply in_or_app. destruct (m_end m <=? span_start x) eqn:L.
  - right. apply in_map_iff. exists x. split; [assumption|].
    apply filter_In. now split.
  - left. apply in_map_iff. exists x. split; [assumption|].
    apply filter_In. split; [assumption|].
    apply Nat.leb_gt in L. now apply Nat.ltb_lt.
Qed.

Lemma fold_refs_complete (groups : list node) (g : node) (ref : str) :
  In g groups -> In ref (course_refs g) -> In ref (course_refs (fold groups)).
Proof.
  intros Hg Hr. destruct groups as [|a [|b l]].
  - contradiction.
  - destruct Hg as [<- | []]. exact Hr.
  - change (In ref (flat_map course_refs (a :: b :: l))).
    apply in_flat_map. now exists g.
Qed.

Lemma token_kept (text ref : str) :
  token_from None text ref ->
  In ref (course_refs (hard (parse_prereq_text text))
          ++ course_refs (coreq_ok (parse_prereq_text text))).
Proof.
  intros H. apply clause_of_text_token in H.
  destruct H as [clause [Hin Ht]].
  apply token_normalized, scanned_iff_token, parse_clause_complete in Ht.
  assert (Hk : is_empty (parse_clause_into_group clause) = false).
  { destruct (parse_clause_into_group clause); try reflexivity.
    contradiction. }
  destruct (parse_text_trees text) as [Hh Hc]. rewrite Hh, Hc.
  apply in_or_app.
  destruct (is_coreq_clause clause) eqn:Ec; [right | left];
    (eapply fold_refs_complete; [|exact Ht]); apply in_map;
    apply filter_In; (split; [assumption|]); now rewrite Hk, Ec.
Qed.

(** X19.  The course references at the leaves of the hard and coreq_ok
    trees of a text are exactly the references of the course tokens of
    the text: every token of the text is kept in one of the two trees,
    and nothing else is. *)
Theorem leaves_are_the_tokens :
  forall text ref : str,
    In ref (course_refs (hard (parse_prereq_text text))
            ++ course_refs (coreq_ok (parse_prereq_text text))) <->
    exists i, token_at text i ref.
Proof.
  intros text ref. split.
  - intros H. now apply token_from_at, tree_ref_token.
  - intros [i H]. apply token_kept. eapply token_at_from. exact H.
Qed.

(** ** Every token gives an edge *)

Lemma token_after_spaces (ws r ref : str) :
  Forall (fun c => is_space c = true) ws ->
  token_from None (ws ++ r) ref -> token_from None r ref.
Proof.
  intros Hws. revert ref.
  assert (Hgen : forall p, word_before p = false ->
                   forall ref, token_from p (ws ++ r) ref ->
                               token_from None r ref).
  { induction Hws as [|x ws Hx _ IH]; intros p Hp ref H.
    - eapply token_from_context; [|exact H]. now rewrite Hp.
    - destruct H as [pre [subj [w [num [post [E [H1 [H2 [H3 [H4 [H5 H6]]]]]]]]]]].
      destruct pre as [|y pre'].
      + exfalso. destruct (subject_nonspace H1) as [Hn Hne].
        destruct subj as [|c subj']; [congruence|].
        simpl in E. injection E as -> _. inversion Hn. congruence.
      + simpl in E. injection E as <- E.
        apply (IH (Some x)); [simpl; now apply space_not_word|].
        exists pre', subj, w, num, post.
        split; [assumption|]. split; [assumption|]. split; [assumption|].
        split; [assumption|]. split; [assumption|].
        split; [exact H5 | exact H6]. }
  intros ref. now apply (Hgen None).
Qed.

Lemma token_strip (s ref : str) :
  token_from None s ref -> token_from None (strip s) ref.
Proof.
  intros H. unfold strip. apply token_rstrip.
  destruct (lstrip_prefix s) as [ws [Hs Hws]]. rewrite Hs in H.
  now apply (@token_after_spaces ws (lstrip s) ref).
Qed.

(** X20.  With [include_coreq], every course token of the prerequisite
    text of a record with an index gives an edge to that index in the
    graph of the records that [build_final_parsed.py] writes: a hard
    edge or a coreq edge from the reference of the token. *)
Theorem parsed_graph_edges_complete :
  forall (c : course_record) (idx : str) (i : nat) (ref : str),
    c_index c = Some idx ->
    token_at (or_empty (c_prerequisites c)) i ref ->
    In (GraphEdge ref idx Hard) (edges_of true (graph_course_of c)) \/
    In (GraphEdge ref idx Coreq) (edges_of true (graph_course_of c)).
Proof.
  intros c idx i ref Hidx Ht.
  apply token_at_from in Ht.
  assert (Hne : ref <> []).
  { destruct Ht as [pre [subj [ws [num [post [_ [[L _] [_ [_ [-> _]]]]]]]]]].
    destruct subj; [simpl in L; lia | discriminate]. }
  apply token_strip, token_kept in Ht.
  unfold edges_of, graph_course_of, pr_hard, pr_coreq, build_prerequisites.
  cbn [g_index g_prerequisites g_hard g_coreq_ok or_EMPTY p_hard p_coreq_ok].
  rewrite Hidx.
  assert (Hc : forall ast, In ref (course_refs ast) ->
                 In ref (collect_courses_from_ast ast)).
  { intros ast H. unfold collect_courses_from_ast.
    rewrite walk_refs, uniq_loop_In, filter_In.
    split; [|tauto]. split; [assumption|]. now destruct ref. }
  apply in_app_or in Ht. destruct Ht as [Ht | Ht]; [left | right];
    apply in_or_app; [left | right].
  - exact (in_map (fun pre => GraphEdge pre idx Hard) _ ref (Hc _ Ht)).
  - exact (in_map (fun pre => GraphEdge pre idx Coreq) _ ref (Hc _ Ht)).
Qed.

Lemma parsed_graph_edges_complete_witness :
  In (GraphEdge (lit "ECE 220") (lit "CS 225") Hard)
     (edges_of true
        (graph_course_of
           (CourseRecord (Some (lit "CS 225")) None None
                         (Some (lit "CS 125 or  ECE  220"))))) \/
  In (GraphEdge (lit "ECE 220") (lit "CS 225") Coreq)
     (edges_of true
        (graph_course_of
           (CourseRecord (Some (lit "CS 225")) None None
                         (Some (lit "CS 125 or  ECE  220"))))).
Proof.
  apply (@parsed_graph_edges_complete
           (CourseRecord (Some (lit "CS 225")) None None
                         (Some (lit "CS 125 or  ECE  220")))
           (lit "CS 225") 11 (lit "ECE 220")).
  - reflexivity.
  - apply (@find_course_spans_sound (lit "CS 125 or  ECE  220")
             (lit "ECE 220", 11, 19)).
    vm_compute. right. left. reflexivity.
Defined.

(** ** The clauses of a text *)

Lemma split_on_no_sep (P : ascii -> bool) (s : str) :
  forall (b : bool) (piece : str),
    In piece (split_on P b s) -> Forall (fun c => P c = false) piece.
Proof.
  induction s as [|x t IH]; intros b piece H; simpl in H.
  - destruct H as [<- | []]. constructor.
  - destruct (P x) eqn:E.
    + destruct b; [now apply (IH true)|].
      destruct H as [<- | H]; [constructor | now apply (IH true)].
    + destruct (split_on P false t) as [|h tl] eqn:Et; simpl in H.
      * destruct H as [<- | []]. now repeat constructor.
      * destruct H as [<- | H].
        -- constructor; [assumption|]. apply (IH false).
           rewrite Et. now left.
        -- apply (IH false). rewrite Et. now right.
Qed.

(** X21.  The clauses of a text are not empty, they are in normal form
    and hold no semicolon; and cutting the text into clauses neither
    loses a course token nor makes one: the tokens of the text are the
    tokens of its clauses. *)
Theorem clauses_spec :
  forall text : str,
    (forall clause, In clause (clauses_of text) ->
       clause <> [] /\ normalize_space clause = clause /\
       ~ In ";"%char clause) /\
    (forall ref,
        (exists i, token_at text i ref) <->
        exists clause i, In clause (clauses_of text) /\ token_at clause i ref).
Proof.
  intros text. split.
  - intros clause H. unfold clauses_of in H. apply in_map_iff in H.
    destruct H as [piece [<- Hp]]. apply filter_In in Hp.
    destruct Hp as [Hp Hne].
    split; [now destruct (normalize_space piece)|].
    split; [apply normalize_space_idem|].
    unfold CLAUSE_SPLIT_RE, chr in Hp. rewrite split_plus_cls in Hp.
    apply split_on_no_sep in Hp. intros Hin.
    assert (Hf : In ";"%char (filter (fun c => negb (is_space c))
                                     (normalize_space piece)))
      by (apply filter_In; now split).
    rewrite normalize_space_keeps in Hf. apply filter_In in Hf.
    destruct Hf as [Hf _]. rewrite Forall_forall in Hp.
    specialize (Hp _ Hf). discriminate.
  - intros ref. split.
    + intros [i H]. apply token_at_from, clause_of_text_token in H.
      destruct H as [clause [Hin Ht]]. apply token_from_at in Ht.
      destruct Ht as [j Ht]. now exists clause, j.
    + intros [clause [i [Hin Ht]]]. apply token_from_at.
      eapply token_of_clause; [exact Hin|]. eapply token_at_from. exact Ht.
Qed.

(** ** The parse depends on the normalised text only *)

Lemma squeeze_true_squeeze (s : str) :
  forall b, squeeze true (squeeze b s) = squeeze true s.
Proof.
  intros [|]; [apply squeeze_idem|].
  destruct s as [|c s]; [reflexivity|]. simpl.
  destruct (is_space c) eqn:E; simpl.
  - apply squeeze_idem.
  - now rewrite E, squeeze_idem.
Qed.

Lemma normalize_space_squeezed (s : str) (b : bool) :
  normalize_space (squeeze b s) = normalize_space s.
Proof. now rewrite !normalize_space_squeeze, squeeze_true_squeeze. Qed.

Lemma normalize_space_rstrip (s : str) :
  normalize_space (rstrip s) = normalize_space s.
Proof.
  rewrite !normalize_space_squeeze, <- rstrip_squeeze. apply rstrip_idem.
Qed.

Lemma squeeze_true_lstrip (s : str) : squeeze true (lstrip s) = squeeze true s.
Proof.
  induction s as [|c s IH]; [reflexivity|]. simpl.
  destruct (is_space c) eqn:E; [exact IH|]. simpl. now rewrite E.
Qed.

Lemma normalize_space_strip (s : str) :
  normalize_space (strip s) = normalize_space s.
Proof.
  unfold strip. rewrite normalize_space_rstrip.
  rewrite !normalize_space_squeeze. now rewrite squeeze_true_lstrip.
Qed.

Section Separator.
Variable P : ascii -> bool.
Hypothesis P_not_space : forall c, P c = true -> is_space c = false.

(** The pieces of the squeezed text are the squeezed pieces. *)
Lemma split_squeeze (s : str) :
  forall b r : bool,
    b && r = false ->
    split_on P r (squeeze b s) =
    match split_on P r s with
    | h :: tl => squeeze b h :: map (squeeze false) tl
    | [] => []
    end.
Proof.
  induction s as [|x t IH]; intros b r Hbr; [reflexivity|].
  cbn [squeeze split_on]. destruct (is_space x) eqn:Es.
  - assert (Hp : P x = false).
    { destruct (P x) eqn:E; [|reflexivity].
      apply P_not_space in E. congruence. }
    rewrite Hp. destruct b.
    + simpl in Hbr. subst r. rewrite (IH true false eq_refl).
      destruct (split_on P false t) as [|h tl] eqn:Et;
        [now apply split_on_nonempty in Et|].
      simpl. now rewrite Es.
    + cbn [split_on]. change (P " "%char) with (P " "%char).
      assert (Hsp : P " "%char = false).
      { destruct (P " "%char) eqn:E; [|reflexivity].
        apply P_not_space in E. discriminate. }
      rewrite Hsp, (IH true false eq_refl).
      destruct (split_on P false t) as [|h tl] eqn:Et;
        [now apply split_on_nonempty in Et|].
      simpl. now rewrite Es.
  - cbn [split_on]. destruct (P x) eqn:Ep.
    + rewrite (IH false true eq_refl).
      destruct (split_on P true t) as [|h tl] eqn:Et;
        [now apply split_on_nonempty in Et|].
      destruct r.
      * destruct b; [discriminate | reflexivity].
      * reflexivity.
    + rewrite (IH false false eq_refl).
      destruct (split_on P false t) as [|h tl] eqn:Et;
        [now apply split_on_nonempty in Et|].
      simpl. now rewrite Es.
Qed.

Lemma rstrip_cons (x : ascii) (h1 h2 : str) :
  rstrip h1 = rstrip h2 -> rstrip (x :: h1) = rstrip (x :: h2).
Proof. intros H. simpl. now rewrite H. Qed.

(** Whitespace at the end of the text only adds whitespace at the end
    of the last piece. *)
Lemma split_trailing (ws : str) :
  Forall (fun c => is_space c = true) ws ->
  forall (s : str) (r : bool),
    map rstrip (split_on P r (s ++ ws)) = map rstrip (split_on P r s).
Proof.
  intros Hws.
  assert (Hnil : forall r, map rstrip (split_on P r ws) = [[]]).
  { induction Hws as [|x ws Hx _ IH]; intros r; [reflexivity|].
    cbn [split_on].
    assert (Hp : P x = false).
    { destruct (P x) eqn:E; [|reflexivity].
      apply P_not_space in E. congruence. }
    rewrite Hp. specialize (IH false).
    destruct (split_on P false ws) as [|h [|h' tl]]; try discriminate.
    simpl in *. injection IH as IH. now rewrite IH, Hx. }
  induction s as [|x t IH]; intros r; [apply Hnil|].
  cbn [app split_on]. destruct (P x).
  - destruct r; [apply IH|]. simpl. now rewrite IH.
  - specialize (IH false).
    destruct (split_on P false (t ++ ws)) as [|h1 tl1] eqn:E1;
      [now apply split_on_nonempty in E1|].
    destruct (split_on P false t) as [|h2 tl2] eqn:E2;
      [now apply split_on_nonempty in E2|].
    cbn [cons_head map] in *. injection IH as Hh Htl.
    now rewrite (rstrip_cons x _ _ Hh), Htl.
Qed.

Lemma split_normalized (t : str) :
  map normalize_space (split_on P false (normalize_space t))
  = map normalize_space (split_on P false t).
Proof.
  assert (Hr : forall l, map normalize_space l
                         = map normalize_space (map rstrip l)).
  { intros l. rewrite map_map. apply map_ext. intros h.
    now rewrite normalize_space_rstrip. }
  rewrite normalize_space_squeeze.
  destruct (rstrip_prefix (squeeze true t)) as [ws [Hs Hws]].
  rewrite Hr. rewrite <- (split_trailing Hws (rstrip (squeeze true t)) false).
  rewrite <- Hs, <- Hr, (split_squeeze t true false eq_refl).
  destruct (split_on P false t) as [|h tl]; [reflexivity|].
  cbn [map]. rewrite normalize_space_squeezed, map_map. f_equal.
  apply map_ext. intros a. apply normalize_space_squeezed.
Qed.

End Separator.

Lemma map_filter_nonempty (l : list str) :
  map normalize_space (filter (fun c => nonempty (normalize_space c)) l)
  = filter nonempty (map normalize_space l).
Proof.
  induction l as [|h l IH]; [reflexivity|]. simpl.
  destruct (nonempty (normalize_space h)); simpl; now rewrite IH.
Qed.

Lemma clauses_of_normalized (t : str) :
  clauses_of (normalize_space t) = clauses_of t.
Proof.
  unfold clauses_of, CLAUSE_SPLIT_RE, chr.
  rewrite !split_plus_cls, !map_filter_nonempty.
  now rewrite (@split_normalized (Ascii.eqb ";") semicolon_not_space).
Qed.

Lemma parse_of_clauses (t u : str) :
  clauses_of t = clauses_of u -> parse_prereq_text t = parse_prereq_text u.
Proof. unfold parse_prereq_text. now intros ->. Qed.

Lemma parse_normalized (t : str) :
  parse_prereq_text (normalize_space t) = parse_prereq_text t.
Proof. apply parse_of_clauses, clauses_of_normalized. Qed.

Lemma parse_strip (t : str) :
  parse_prereq_text (strip t) = parse_prereq_text t.
Proof.
  rewrite <- (parse_normalized (strip t)), normalize_space_strip.
  apply parse_normalized.
Qed.

(** X22.  The parse of a text depends on its normal form only: two
    texts that differ in the amount of whitespace between words, or in
    whitespace at the ends, have the same hard and coreq_ok trees. *)
Theorem parse_whitespace_invariant :
  forall t u : str,
    normalize_space t = normalize_space u ->
    parse_prereq_text t = parse_prereq_text u.
Proof.
  intros t u H.
  now rewrite <- (parse_normalized t), H, parse_normalized.
Qed.

Lemma parse_whitespace_invariant_witness :
  parse_prereq_text (lit "  CS  225 and  MATH 231 ;  CS 233 ")
  = parse_prereq_text (lit "CS 225 and MATH 231 ; CS 233").
Proof.
  apply (@parse_whitespace_invariant
           (lit "  CS  225 and  MATH 231 ;  CS 233 ")
           (lit "CS 225 and MATH 231 ; CS 233")).
  vm_compute. reflexivity.
Defined.

(** X23.  The two scripts agree: for every record, the trees that
    [build_final_parsed.py] writes, which parses the stripped text, are
    the trees of the record that [parse_course_prereqs.py] writes. *)
Theorem scripts_agree :
  forall (data : list course_record) (r : parsed_record),
    In r (fst (parse_all data) ++ snd (parse_all data)) ->
    exists c,
      In c data /\
      r_index r = c_index c /\
      r_raw r = or_empty (c_prerequisites c) /\
      hard (r_ast r) = p_hard (build_prerequisites c) /\
      coreq_ok (r_ast r) = p_coreq_ok (build_prerequisites c).
Proof.
  intros data r H. unfold parse_all in H. rewrite main_loop_spec in H.
  cbn [fst snd app] in H.
  assert (Hc : exists c, In c data /\
                 r = ParsedRecord (c_index c) (c_name c)
                       (or_empty (c_prerequisites c))
                       (parse_prereq_text (or_empty (c_prerequisites c)))).
  { apply in_app_or in H. destruct H as [H | H];
      apply in_map_iff in H; destruct H as [c [<- Hc]];
      apply filter_In in Hc; exists c; tauto. }
  destruct Hc as [c [Hc ->]]. exists c. cbn [r_index r_raw r_ast].
  split; [assumption|]. split; [reflexivity|]. split; [reflexivity|].
  unfold build_prerequisites. cbn [p_hard p_coreq_ok].
  now rewrite parse_strip.
Qed.

Lemma scripts_agree_witness :
  exists c,
    In c [record_of (lit " CS 225 or CS 233 ")] /\
    r_index (ParsedRecord None None (lit " CS 225 or CS 233 ")
               (parse_prereq_text (lit " CS 225 or CS 233 ")))
    = c_index c /\
    r_raw (ParsedRecord None None (lit " CS 225 or CS 233 ")
             (parse_prereq_text (lit " CS 225 or CS 233 ")))
    = or_empty (c_prerequisites c) /\
    hard (r_ast (ParsedRecord None None (lit " CS 225 or CS 233 ")
                   (parse_prereq_text (lit " CS 225 or CS 233 "))))
    = p_hard (build_prerequisites c) /\
    coreq_ok (r_ast (ParsedRecord None None (lit " CS 225 or CS 233 ")
                       (parse_prereq_text (lit " CS 225 or CS 233 "))))
    = p_coreq_ok (build_prerequisites c).
Proof.
  apply (@scripts_agree [record_of (lit " CS 225 or CS 233 ")]
           (ParsedRecord None None (lit " CS 225 or CS 233 ")
              (parse_prereq_text (lit " CS 225 or CS 233 ")))).
  vm_compute. left. reflexivity.
Defined.

(** X24.  The list of courses that [analyze] records for a text holds
    the same references as the leaves of the two trees of the parser:
    both are the references of the course tokens of the text. *)
Theorem analysis_courses_are_leaves :
  forall text ref : str,
    In ref (extract_course_refs text) <->
    In ref (course_refs (hard (parse_prereq_text text))
            ++ course_refs (coreq_ok (parse_prereq_text text))).
Proof.
  intros text ref.
  assert (Hrefs : extract_course_refs text
                  = map span_course (find_course_spans text)).
  { unfold extract_course_refs, find_course_spans, COURSE_TOKEN.
    rewrite map_map. reflexivity. }
  rewrite Hrefs, <- scanned_refs, scanned_iff_token. split.
  - apply token_kept.
  - apply tree_ref_token.
Qed.

(** ** The notes of a record *)

Lemma lstrip_fixed (s : str) :
  match s with
  | x :: _ => is_space x = false
  | [] => True
  end ->
  lstrip s = s.
Proof. destruct s as [|x s]; [reflexivity|]. simpl. now intros ->. Qed.

Lemma strip_idem (s : str) : strip (strip s) = strip s.
Proof.
  unfold strip at 1.
  rewrite (lstrip_fixed (strip s)).
  - unfold strip. apply rstrip_idem.
  - unfold strip. apply rstrip_head, lstrip_head.
Qed.

Lemma detect_flags_In (t name : str) :
  In name (detect_flags t) <->
  exists kws w, In (kws, name) groups_by_name /\ In w kws /\
                substring w (lower t).
Proof.
  rewrite detect_flags_filter, in_map_iff. split.
  - intros [[kws n] [Hn Hg]]. simpl in Hn. subst n.
    apply filter_In in Hg. destruct Hg as [Hg Hk]. simpl in Hk.
    apply some_keyword_in_spec in Hk. destruct Hk as [w [Hw Hs]].
    now exists kws, w.
  - intros [kws [w [Hg [Hw Hs]]]]. exists (kws, name).
    split; [reflexivity|]. apply filter_In. split; [assumption|].
    apply some_keyword_in_spec. now exists w.
Qed.

(** The flags of a part of a text are flags of the text. *)
Lemma detect_flags_mono (a t b name : str) :
  In name (detect_flags t) -> In name (detect_flags (a ++ t ++ b)).
Proof.
  rewrite !detect_flags_In. intros [kws [w [Hg [Hw Hs]]]].
  exists kws, w. split; [assumption|]. split; [assumption|].
  rewrite !lower_app. now apply substring_app.
Qed.

(** X25.  A note of an output record of [build_final_parsed.py] is a
    stripped, non-empty piece of the stripped prerequisite text between
    semicolons; it has no course token or raises a flag; and every flag
    it raises is among the flags of the record. *)
Theorem notes_spec :
  forall (c : course_record) (note : str),
    In note (p_notes (build_prerequisites c)) ->
    note <> [] /\ strip note = note /\ ~ In ";"%char note /\
    substring note (or_empty (c_prerequisites c)) /\
    (has_course_token note = false \/ detect_flags note <> []) /\
    (forall name, In name (detect_flags note) ->
                  In name (p_flags (build_prerequisites c))).
Proof.
  intros c note. unfold build_prerequisites. cbn [p_notes p_flags].
  set (raw := strip (or_empty (c_prerequisites c))).
  destruct (nonempty raw); [|intros []].
  intros H. apply filter_In in H. destruct H as [H Hsel].
  apply in_map_iff in H. destruct H as [piece [<- Hp]].
  apply filter_In in Hp. destruct Hp as [Hp Hne].
  unfold CLAUSE_SPLIT_RE, chr in Hp. rewrite split_plus_cls in Hp.
  pose proof (split_on_no_sep _ _ _ _ Hp) as Hsemi.
  apply piece_of_split in Hp. destruct Hp as [pre [post Hraw]].
  destruct (strip_parts piece) as [w1 [w2 [Hpiece [_ _]]]].
  destruct (strip_parts (or_empty (c_prerequisites c)))
    as [v1 [v2 [Horig [_ _]]]].
  fold raw in Horig.
  split; [now destruct (strip piece)|].
  split; [apply strip_idem|].
  split; [|split; [|split]].
  - intros Hin. rewrite Forall_forall in Hsemi.
    assert (Hin' : In ";"%char piece).
    { rewrite Hpiece. apply in_or_app. right. apply in_or_app. now left. }
    specialize (Hsemi _ Hin'). discriminate.
  - exists (v1 ++ pre ++ w1), (w2 ++ post ++ v2).
    rewrite Horig at 1. rewrite Hraw. rewrite Hpiece at 1.
    now rewrite <- !app_assoc.
  - apply orb_true_iff in Hsel. destruct Hsel as [Hsel | Hsel].
    + left. now destruct (has_course_token (strip piece)).
    + right. now destruct (detect_flags (strip piece)).
  - intros name Hn. rewrite Hraw. rewrite Hpiece at 1.
    replace (pre ++ (w1 ++ strip piece ++ w2) ++ post)
      with ((pre ++ w1) ++ strip piece ++ (w2 ++ post))
      by (now rewrite <- !app_assoc).
    now apply detect_flags_mono.
Qed.

Lemma notes_spec_witness :
  lit "junior standing" <> [].
Proof.
  refine (proj1 (@notes_spec
                   (record_of (lit " CS 225; junior standing "))
                   (lit "junior standing") _)).
  vm_compute. left. reflexivity.
Defined.

(** ** The clauses and their routing *)

Lemma weave_cons_head (x : ascii) (h : str) (tl seps : list str) :
  weave ((x :: h) :: tl) seps = x :: weave (h :: tl) seps.
Proof. destruct seps; reflexivity. Qed.

(** [split_on] cuts the text at its runs of separators; in a run, the
    separators at the front are skipped. *)
Lemma split_on_weave (P : ascii -> bool) (s : str) :
  forall b : bool,
    exists lead seps,
      Forall (fun c => P c = true) lead /\
      (b = false -> lead = []) /\
      length (split_on P b s) = S (length seps) /\
      Forall (fun r => r <> [] /\ Forall (fun c => P c = true) r) seps /\
      s = lead ++ weave (split_on P b s) seps.
Proof.
  induction s as [|x t IH]; intros b.
  - exists [], []. repeat split; constructor.
  - cbn [split_on]. destruct (P x) eqn:E.
    + destruct (IH true) as [lead [seps [Hl [_ [Hlen [Hs Ht]]]]]].
      destruct b.
      * exists (x :: lead), seps. split; [now constructor|].
        split; [discriminate|]. split; [assumption|].
        split; [assumption|]. simpl. now rewrite <- Ht.
      * exists [], ((x :: lead) :: seps). split; [constructor|].
        split; [reflexivity|]. split; [simpl; now rewrite Hlen|].
        split.
        -- constructor; [|assumption]. split; [discriminate|].
           now constructor.
        -- simpl. now rewrite <- Ht.
    + destruct (IH false) as [lead [seps [_ [Hn [Hlen [Hs Ht]]]]]].
      rewrite (Hn eq_refl) in Ht. simpl in Ht.
      destruct (split_on P false t) as [|h tl] eqn:Et;
        [simpl in Hlen; discriminate|].
      exists [], seps. split; [constructor|]. split; [reflexivity|].
      cbn [cons_head]. split; [exact Hlen|]. split; [assumption|].
      rewrite weave_cons_head, <- Ht. reflexivity.
Qed.

Lemma split_at_semicolons (text : str) :
  cut_at_semicolons text (split_on (Ascii.eqb ";") false text).
Proof.
  split.
  - apply Forall_forall. intros p Hp Hin.
    apply split_on_no_sep in Hp. rewrite Forall_forall in Hp.
    specialize (Hp _ Hin). discriminate.
  - destruct (split_on_weave (Ascii.eqb ";") text false)
      as [lead [seps [_ [Hn [Hlen [Hs Ht]]]]]].
    rewrite (Hn eq_refl) in Ht. simpl in Ht.
    exists seps. split; [assumption|]. split; [|assumption].
    eapply Forall_impl; [|exact Hs]. intros r [Hr Hall].
    split; [assumption|]. eapply Forall_impl; [|exact Hall].
    intros c Hc. now apply Ascii.eqb_eq in Hc.
Qed.

(** The clauses are the normalised pieces that are not empty. *)
Lemma clauses_of_pieces (text : str) :
  clauses_of text
  = filter nonempty
      (map normalize_space (split_on (Ascii.eqb ";") false text)).
Proof.
  unfold clauses_of, CLAUSE_SPLIT_RE, chr.
  now rewrite split_plus_cls, map_filter_nonempty.
Qed.

(** C5.  The text is cut at its runs of semicolons; the clauses are the
    pieces, normalised, the empty ones dropped, in the order of the
    text.  The hard tree is the fold of the non-EMPTY trees of the
    clauses that are not corequisite clauses, the coreq_ok tree the fold
    of the non-EMPTY trees of those that are, both in clause order; a
    clause is a corequisite clause exactly when its lowercase form
    contains "concurrent", "co-requisite" or "corequisite", or has a
    match of the pattern "credit or concurrent enrollment/registration
    in".  The text "credit or concurrent registration in MATH 231" gives
    hard = EMPTY and coreq_ok = COURSE "MATH 231"; in "CS 225;
    concurrent registration in MATH 231" the first clause goes to hard
    and the second to coreq_ok; and of the four clauses of "CS 225;;
    credit or concurrent enrollment in MATH 231 ; PHYS 211; junior
    standing" the first and the third go to hard, the second to
    coreq_ok, and the last, which has no course, to neither. *)
Theorem coreq_routing :
  (forall text : str,
      let pieces := split_on (Ascii.eqb ";") false text in
      let tree_of := parse_clause_into_group in
      let kept c := negb (is_empty (tree_of c)) in
      cut_at_semicolons text pieces /\
      clauses_of text = filter nonempty (map normalize_space pieces) /\
      hard (parse_prereq_text text)
      = fold (map tree_of
                (filter (fun c => kept c && negb (is_coreq_clause c))
                        (clauses_of text))) /\
      coreq_ok (parse_prereq_text text)
      = fold (map tree_of
                (filter (fun c => kept c && is_coreq_clause c)
                        (clauses_of text)))) /\
  (forall c : str,
      is_coreq_clause c = true <->
      substring (lit "concurrent") (lower c) \/
      substring (lit "co-requisite") (lower c) \/
      substring (lit "corequisite") (lower c) \/
      matches CREDIT_OR_CONCURRENT_RE (lower c)) /\
  parse_prereq_text (lit "credit or concurrent registration in MATH 231")
  = Parsed EMPTY (COURSE (lit "MATH 231")) /\
  parse_prereq_text (lit "CS 225; concurrent registration in MATH 231")
  = Parsed (COURSE (lit "CS 225")) (COURSE (lit "MATH 231")) /\
  clauses_of (lit "CS 225;; credit or concurrent enrollment in MATH 231 ; PHYS 211; junior standing")
  = [lit "CS 225"; lit "credit or concurrent enrollment in MATH 231";
     lit "PHYS 211"; lit "junior standing"] /\
  parse_prereq_text (lit "CS 225;; credit or concurrent enrollment in MATH 231 ; PHYS 211; junior standing")
  = Parsed (AND [COURSE (lit "CS 225"); COURSE (lit "PHYS 211")])
           (COURSE (lit "MATH 231")).
Proof.
  split; [|split; [exact is_coreq_clause_spec
                  | repeat split; vm_compute; reflexivity]].
  intros text pieces tree_of kept.
  split; [apply split_at_semicolons|].
  split; [apply clauses_of_pieces|].
  unfold parse_prereq_text, route.
  destruct (clauses_of text) as [|c l] eqn:E; [now split|].
  rewrite route_spec. simpl fst. simpl snd. simpl app. now split.
Qed.
